(** * iva-backend: the website crawl-and-extract pipeline

    A shallow embedding of the crawl frontier ([crawlWebsiteWithPlaywright]),
    the contact extractor ([extractContact.js]), the location disambiguator
    ([locationUtils.js]) and the profile reconciler ([importFromWeb.js]:
    [crawlBusinessWebsite], [applyImportedBusinessData]), followed by the
    properties the specification states about them.

    Conventions.
    - A JavaScript string is the list of its UTF-16 code units ([jsstr]);
      [.length] is [length].  Literals are written as UTF-8 text and decoded
      by [js].
    - [null] and [undefined] are [None].
    - The platform's Unicode tables ([toLowerCase], [normalize('NFD')]) are an
      interface ([Platform]); the functions of the repository are written
      against it. *)

From Stdlib Require Import ZArith List Bool Lia Ascii String.
From stdpp Require Import base option list gmap.
Import ListNotations.
Local Open Scope Z_scope.

(** ** JavaScript strings *)

Module JsStr.

Definition jsstr := list Z.

(** Decoding of a UTF-8 byte sequence into UTF-16 code units. *)
Fixpoint utf8_units (bs : list Z) : list Z :=
  match bs with
  | [] => []
  | b0 :: r0 =>
    if b0 <? 0x80 then b0 :: utf8_units r0
    else if b0 <? 0xE0 then
      match r0 with
      | b1 :: r1 => ((b0 - 0xC0) * 64 + (b1 - 0x80)) :: utf8_units r1
      | [] => []
      end
    else if b0 <? 0xF0 then
      match r0 with
      | b1 :: b2 :: r2 =>
        ((b0 - 0xE0) * 4096 + (b1 - 0x80) * 64 + (b2 - 0x80)) :: utf8_units r2
      | _ => []
      end
    else
      match r0 with
      | b1 :: b2 :: b3 :: r3 =>
        let cp := (b0 - 0xF0) * 262144 + (b1 - 0x80) * 4096
                  + (b2 - 0x80) * 64 + (b3 - 0x80) - 0x10000 in
        (0xD800 + cp / 1024) :: (0xDC00 + cp mod 1024) :: utf8_units r3
      | _ => []
      end
  end.

Definition js (s : string) : jsstr :=
  utf8_units (map (fun a => Z.of_N (N_of_ascii a)) (list_ascii_of_string s)).

Arguments js s%_string.

(** The line feed. *)
Definition LF : jsstr := [10].

Fixpoint str_eqb (a b : jsstr) : bool :=
  match a, b with
  | [], [] => true
  | x :: a', y :: b' => (x =? y) && str_eqb a' b'
  | _, _ => false
  end.

(** [s.startsWith(p)] *)
Fixpoint startsWith (s p : jsstr) : bool :=
  match p, s with
  | [], _ => true
  | x :: p', y :: s' => (x =? y) && startsWith s' p'
  | _ :: _, [] => false
  end.

(** [s.includes(p)] *)
Fixpoint includes (s p : jsstr) : bool :=
  startsWith s p ||
  match s with
  | [] => false
  | _ :: s' => includes s' p
  end.

(** [s.endsWith(p)] *)
Definition endsWith (s p : jsstr) : bool :=
  startsWith (rev_append s []) (rev_append p []).

Definition in_range (lo hi c : Z) : bool := (lo <=? c) && (c <=? hi).

(** [\d] *)
Definition is_digit (c : Z) : bool := in_range 48 57 c.

(** WhiteSpace and LineTerminator code units: the class [\s], and what
    [trim] removes. *)
Definition is_space (c : Z) : bool :=
  in_range 9 13 c || (c =? 32) || (c =? 0xA0) || (c =? 0x1680)
  || in_range 0x2000 0x200A c || (c =? 0x2028) || (c =? 0x2029)
  || (c =? 0x202F) || (c =? 0x205F) || (c =? 0x3000) || (c =? 0xFEFF).

Fixpoint trimStart (s : jsstr) : jsstr :=
  match s with
  | c :: s' => if is_space c then trimStart s' else s
  | [] => []
  end.

Definition trim (s : jsstr) : jsstr :=
  rev_append (trimStart (rev_append (trimStart s) [])) [].

(** Truthiness of a nullable string: neither [null] nor empty. *)
Definition truthy (v : option jsstr) : bool :=
  match v with
  | Some (_ :: _) => true
  | _ => false
  end.

(** [a || b] on nullable strings. *)
Definition or_else (a b : option jsstr) : option jsstr :=
  if truthy a then a else b.

(** [s.slice(i, j)] for [0 <= i], [0 <= j]. *)
Definition slice (s : jsstr) (i j : nat) : jsstr := firstn (j - i) (skipn i s).

(** [a.join(sep)] *)
Fixpoint join (sep : jsstr) (l : list jsstr) : jsstr :=
  match l with
  | [] => []
  | [x] => x
  | x :: l' => x ++ sep ++ join sep l'
  end.

(** Decimal rendering of a non-negative integer ([String(n)]). *)
Fixpoint digits_of (fuel : nat) (n : Z) (acc : jsstr) : jsstr :=
  match fuel with
  | O => acc
  | S f =>
    let acc' := (48 + n mod 10) :: acc in
    if n <? 10 then acc' else digits_of f (n / 10) acc'
  end.

Definition of_nat (n : nat) : jsstr :=
  digits_of (S n) (Z.of_nat n) [].

(** A [Set] of strings in insertion order: [add] keeps the first
    occurrence. *)
Definition set_has (s : list jsstr) (x : jsstr) : bool := existsb (str_eqb x) s.

Definition set_add (s : list jsstr) (x : jsstr) : list jsstr :=
  if set_has s x then s else s ++ [x].

End JsStr.
Export JsStr.

(** ** Regular expressions

    The fragment of ECMAScript regular expressions the sources use,
    with the backtracking semantics of the language: alternatives are tried
    left to right, quantifiers are greedy or lazy, an iteration of a
    quantifier that consumes nothing is rejected. *)

Module Regex.

Inductive re : Type :=
| Eps
| Cls (p : Z -> bool)
| Cat (r1 r2 : re)
| Alt (r1 r2 : re)
| Rep (greedy : bool) (r : re)
| Bol
| Eol
| NotBehind (p : Z -> bool)
| NotAhead (p : Z -> bool).

(** A position in the subject: the code units before it, nearest first, and
    the code units after it. *)
Definition cursor : Type := list Z * list Z.

Definition remaining (c : cursor) : nat := length (snd c).

Definition advanced (c c' : cursor) : bool := (remaining c' <? remaining c)%nat.

Fixpoint m {A : Type} (r : re) (k : cursor -> option A) (c : cursor) : option A :=
  match r with
  | Eps => k c
  | Cls p =>
    match snd c with
    | x :: rest => if p x then k (x :: fst c, rest) else None
    | [] => None
    end
  | Cat r1 r2 => m r1 (m r2 k) c
  | Alt r1 r2 =>
    match m r1 k c with
    | Some a => Some a
    | None => m r2 k c
    end
  | Rep greedy r' =>
    (fix loop (n : nat) (c : cursor) {struct n} : option A :=
       match n with
       | O => k c
       | S n' =>
         if greedy then
           match m r' (fun c' => if advanced c c' then loop n' c' else None) c with
           | Some a => Some a
           | None => k c
           end
         else
           match k c with
           | Some a => Some a
           | None => m r' (fun c' => if advanced c c' then loop n' c' else None) c
           end
       end) (remaining c) c
  | Bol => match fst c with [] => k c | _ :: _ => None end
  | Eol => match snd c with [] => k c | _ :: _ => None end
  | NotBehind p =>
    match fst c with
    | x :: _ => if p x then None else k c
    | [] => k c
    end
  | NotAhead p =>
    match snd c with
    | x :: _ => if p x then None else k c
    | [] => k c
    end
  end.

(** The match at a position, if any: the position where it ends. *)
Definition match_at (r : re) (c : cursor) : option cursor := m r Some c.

(** The leftmost match at or after a position. *)
Fixpoint search (r : re) (pre rest : list Z) : option (cursor * cursor) :=
  match match_at r (pre, rest) with
  | Some e => Some ((pre, rest), e)
  | None =>
    match rest with
    | [] => None
    | x :: rest' => search r (x :: pre) rest'
    end
  end.

(** The text of a match and its index. *)
Definition matched (se : cursor * cursor) : jsstr :=
  firstn (remaining (fst se) - remaining (snd se)) (snd (fst se)).

Definition index (se : cursor * cursor) : nat := length (fst (fst se)).

(** Successive matches of a [g] regular expression: after an empty match the
    search resumes one code unit further. *)
Fixpoint exec_all (n : nat) (r : re) (c : cursor) : list (cursor * cursor) :=
  match n with
  | O => []
  | S n' =>
    match search r (fst c) (snd c) with
    | None => []
    | Some (s, e) =>
      (s, e) ::
      (if advanced s e then exec_all n' r e
       else match snd e with
            | [] => []
            | x :: t => exec_all n' r (x :: fst e, t)
            end)
    end
  end.

Definition matches (r : re) (s : jsstr) : list (cursor * cursor) :=
  exec_all (S (length s)) r ([], s).

(** [s.match(/r/g) || []] *)
Definition match_all (r : re) (s : jsstr) : list jsstr := map matched (matches r s).

(** [/r/.test(s)] *)
Definition test (r : re) (s : jsstr) : bool :=
  match search r [] s with Some _ => true | None => false end.

(** [s.replace(/r/g, t)] for a replacement text without [$] patterns. *)
Fixpoint splice (t : jsstr) (s : jsstr) (pos : nat) (ms : list (cursor * cursor)) : jsstr :=
  match ms with
  | [] => skipn pos s
  | se :: ms' =>
    slice s pos (index se) ++ t ++ splice t s (index se + length (matched se)) ms'
  end.

Definition replace_all (r : re) (t : jsstr) (s : jsstr) : jsstr :=
  splice t s 0 (matches r s).

(** [s.replace(/r/, t)] *)
Definition replace_first (r : re) (t : jsstr) (s : jsstr) : jsstr :=
  match search r [] s with
  | None => s
  | Some se => splice t s 0 [se]
  end.

(** Building blocks. *)
Definition chr (c : Z) : re := Cls (Z.eqb c).

Fixpoint lit (s : jsstr) : re :=
  match s with
  | [] => Eps
  | [c] => chr c
  | c :: s' => Cat (chr c) (lit s')
  end.

Definition opt (r : re) : re := Alt r Eps.
Definition star (r : re) : re := Rep true r.
Definition plus (r : re) : re := Cat r (Rep true r).

Fixpoint times (n : nat) (r : re) : re :=
  match n with
  | O => Eps
  | 1%nat => r
  | S n' => Cat r (times n' r)
  end.

(** [r{0,n}] *)
Fixpoint upto (n : nat) (r : re) : re :=
  match n with
  | O => Eps
  | S n' => opt (Cat r (upto n' r))
  end.

Fixpoint alts (rs : list re) : re :=
  match rs with
  | [] => Cls (fun _ => false)
  | [r] => r
  | r :: rs' => Alt r (alts rs')
  end.

Fixpoint cats (rs : list re) : re :=
  match rs with
  | [] => Eps
  | [r] => r
  | r :: rs' => Cat r (cats rs')
  end.

Definition digit : re := Cls is_digit.
Definition space : re := Cls is_space.
Definition any_of (cs : jsstr) : Z -> bool := fun c => existsb (Z.eqb c) cs.
Definition neg (p : Z -> bool) : Z -> bool := fun c => negb (p c).
Definition either (p q : Z -> bool) : Z -> bool := fun c => p c || q c.

End Regex.

(** ** The platform's Unicode tables

    [String.prototype.toLowerCase], [toUpperCase], [normalize('NFD')] and
    [localeCompare] belong to the host, not to the repository.  The functions
    below are written against this interface; [latin] implements it for
    text in Basic Latin, Latin-1 Supplement and Latin Extended-A (U+0000 to
    U+017F, which holds the Czech alphabet) and leaves other code units
    unchanged. *)

Class Platform : Type := {
  toLowerCase : jsstr -> jsstr;
  toUpperCase : jsstr -> jsstr;
  normalizeNFD : jsstr -> jsstr;
  localeCompare : jsstr -> jsstr -> Z
}.

Module Latin.

Definition even (c : Z) : bool := c mod 2 =? 0.

Definition lower_cu (c : Z) : jsstr :=
  if in_range 65 90 c then [c + 32]
  else if in_range 0xC0 0xDE c && negb (c =? 0xD7) then [c + 32]
  else if in_range 0x100 0x12F c && even c then [c + 1]
  else if c =? 0x130 then [0x69; 0x307]
  else if in_range 0x132 0x137 c && even c then [c + 1]
  else if in_range 0x139 0x148 c && negb (even c) then [c + 1]
  else if in_range 0x14A 0x177 c && even c then [c + 1]
  else if c =? 0x178 then [0xFF]
  else if in_range 0x179 0x17E c && negb (even c) then [c + 1]
  else [c].

Definition upper_cu (c : Z) : jsstr :=
  if in_range 97 122 c then [c - 32]
  else if c =? 0xB5 then [0x39C]
  else if c =? 0xDF then [83; 83]
  else if in_range 0xE0 0xFE c && negb (c =? 0xF7) then [c - 32]
  else if c =? 0xFF then [0x178]
  else if in_range 0x100 0x12F c && negb (even c) then [c - 1]
  else if c =? 0x131 then [73]
  else if in_range 0x132 0x137 c && negb (even c) then [c - 1]
  else if in_range 0x139 0x148 c && even c then [c - 1]
  else if c =? 0x149 then [0x2BC; 78]
  else if in_range 0x14A 0x177 c && negb (even c) then [c - 1]
  else if in_range 0x179 0x17E c && even c then [c - 1]
  else if c =? 0x17F then [83]
  else [c].

(** Canonical decompositions of U+00C0 to U+017F. *)
Definition decompositions : list (Z * jsstr) :=
  [ (192, [65; 768]); (193, [65; 769]); (194, [65; 770]); (195, [65; 771]); (196, [65; 776]);
    (197, [65; 778]); (199, [67; 807]); (200, [69; 768]); (201, [69; 769]); (202, [69; 770]);
    (203, [69; 776]); (204, [73; 768]); (205, [73; 769]); (206, [73; 770]); (207, [73; 776]);
    (209, [78; 771]); (210, [79; 768]); (211, [79; 769]); (212, [79; 770]); (213, [79; 771]);
    (214, [79; 776]); (217, [85; 768]); (218, [85; 769]); (219, [85; 770]); (220, [85; 776]);
    (221, [89; 769]); (224, [97; 768]); (225, [97; 769]); (226, [97; 770]); (227, [97; 771]);
    (228, [97; 776]); (229, [97; 778]); (231, [99; 807]); (232, [101; 768]); (233, [101; 769]);
    (234, [101; 770]); (235, [101; 776]); (236, [105; 768]); (237, [105; 769]); (238, [105; 770]);
    (239, [105; 776]); (241, [110; 771]); (242, [111; 768]); (243, [111; 769]); (244, [111; 770]);
    (245, [111; 771]); (246, [111; 776]); (249, [117; 768]); (250, [117; 769]); (251, [117; 770]);
    (252, [117; 776]); (253, [121; 769]); (255, [121; 776]); (256, [65; 772]); (257, [97; 772]);
    (258, [65; 774]); (259, [97; 774]); (260, [65; 808]); (261, [97; 808]); (262, [67; 769]);
    (263, [99; 769]); (264, [67; 770]); (265, [99; 770]); (266, [67; 775]); (267, [99; 775]);
    (268, [67; 780]); (269, [99; 780]); (270, [68; 780]); (271, [100; 780]); (274, [69; 772]);
    (275, [101; 772]); (276, [69; 774]); (277, [101; 774]); (278, [69; 775]); (279, [101; 775]);
    (280, [69; 808]); (281, [101; 808]); (282, [69; 780]); (283, [101; 780]); (284, [71; 770]);
    (285, [103; 770]); (286, [71; 774]); (287, [103; 774]); (288, [71; 775]); (289, [103; 775]);
    (290, [71; 807]); (291, [103; 807]); (292, [72; 770]); (293, [104; 770]); (296, [73; 771]);
    (297, [105; 771]); (298, [73; 772]); (299, [105; 772]); (300, [73; 774]); (301, [105; 774]);
    (302, [73; 808]); (303, [105; 808]); (304, [73; 775]); (308, [74; 770]); (309, [106; 770]);
    (310, [75; 807]); (311, [107; 807]); (313, [76; 769]); (314, [108; 769]); (315, [76; 807]);
    (316, [108; 807]); (317, [76; 780]); (318, [108; 780]); (323, [78; 769]); (324, [110; 769]);
    (325, [78; 807]); (326, [110; 807]); (327, [78; 780]); (328, [110; 780]); (332, [79; 772]);
    (333, [111; 772]); (334, [79; 774]); (335, [111; 774]); (336, [79; 779]); (337, [111; 779]);
    (340, [82; 769]); (341, [114; 769]); (342, [82; 807]); (343, [114; 807]); (344, [82; 780]);
    (345, [114; 780]); (346, [83; 769]); (347, [115; 769]); (348, [83; 770]); (349, [115; 770]);
    (350, [83; 807]); (351, [115; 807]); (352, [83; 780]); (353, [115; 780]); (354, [84; 807]);
    (355, [116; 807]); (356, [84; 780]); (357, [116; 780]); (360, [85; 771]); (361, [117; 771]);
    (362, [85; 772]); (363, [117; 772]); (364, [85; 774]); (365, [117; 774]); (366, [85; 778]);
    (367, [117; 778]); (368, [85; 779]); (369, [117; 779]); (370, [85; 808]); (371, [117; 808]);
    (372, [87; 770]); (373, [119; 770]); (374, [89; 770]); (375, [121; 770]); (376, [89; 776]);
    (377, [90; 769]); (378, [122; 769]); (379, [90; 775]); (380, [122; 775]); (381, [90; 780]);
    (382, [122; 780]) ].

Fixpoint assoc (c : Z) (t : list (Z * jsstr)) : option jsstr :=
  match t with
  | [] => None
  | (k, v) :: t' => if c =? k then Some v else assoc c t'
  end.

Definition nfd_cu (c : Z) : jsstr :=
  match assoc c decompositions with
  | Some d => d
  | None => [c]
  end.

(** Code-unit order, as the sign of a comparison. *)
Fixpoint compare_units (a b : jsstr) : Z :=
  match a, b with
  | [], [] => 0
  | [], _ :: _ => -1
  | _ :: _, [] => 1
  | x :: a', y :: b' =>
    if x <? y then -1 else if y <? x then 1 else compare_units a' b'
  end.

End Latin.

Definition latin : Platform := {|
  toLowerCase s := flat_map Latin.lower_cu s;
  toUpperCase s := flat_map Latin.upper_cu s;
  normalizeNFD s := flat_map Latin.nfd_cu s;
  localeCompare := Latin.compare_units
|}.

(** Case-insensitive matching ([i] flag): a code unit is compared through
    its canonical form, the single-unit upper case, which never maps a
    non-ASCII unit to an ASCII one. *)
Module RegexI.
Import Regex.

Definition canonicalize (c : Z) : Z :=
  match Latin.upper_cu c with
  | [u] => if (128 <=? c) && (u <? 128) then c else u
  | _ => c
  end.

Definition ci_chr (c : Z) : re := Cls (fun x => canonicalize x =? canonicalize c).

Fixpoint ci_lit (s : jsstr) : re :=
  match s with
  | [] => Eps
  | [c] => ci_chr c
  | c :: s' => Cat (ci_chr c) (ci_lit s')
  end.

(** A class under the [i] flag. *)
Definition ci_cls (p : Z -> bool) (members : jsstr) : Z -> bool :=
  fun x => p x || existsb (fun mbr => canonicalize x =? canonicalize mbr) members.

End RegexI.

(** A stable sort by a comparator ([a.sort(cmp)]). *)
Module Sort.

Fixpoint insert {A : Type} (cmp : A -> A -> Z) (x : A) (l : list A) : list A :=
  match l with
  | [] => [x]
  | y :: l' => if cmp y x <=? 0 then y :: insert cmp x l' else x :: l
  end.

Definition sort {A : Type} (cmp : A -> A -> Z) (l : list A) : list A :=
  fold_left (fun acc x => insert cmp x acc) l [].

End Sort.

(** ** Contact extraction: [lib/extractContact.js] *)

Module Contact.
Import Regex RegexI.

(** [[\s\-]] *)
Definition sep : re := Cls (either is_space (Z.eqb 45)).

Definition nine_digits : re :=
  cats [times 3 digit; opt sep; times 3 digit; opt sep; times 3 digit].

Definition PHONE_PATTERNS : list re :=
  [ (* /\+420[\s\-]?[0-9]{3}[\s\-]?[0-9]{3}[\s\-]?[0-9]{3}/g *)
    cats [lit (js "+420"); opt sep; nine_digits];
    (* /(?<!\d)420[\s\-]?[0-9]{3}[\s\-]?[0-9]{3}[\s\-]?[0-9]{3}(?!\d)/g *)
    cats [NotBehind is_digit; lit (js "420"); opt sep; nine_digits; NotAhead is_digit];
    (* /(?<!\d)[0-9]{3}[\s\-]?[0-9]{3}[\s\-]?[0-9]{3}(?!\d)/g *)
    cats [NotBehind is_digit; nine_digits; NotAhead is_digit] ].

Definition normalizePhoneToE164 (phone : option jsstr) : option jsstr :=
  match phone with
  | None | Some [] => None
  | Some phone =>
    (* phone.replace(/[^\d+]/g, '') *)
    let cleaned := replace_all (Cls (neg (either is_digit (Z.eqb 43)))) [] phone in
    if startsWith cleaned (js "+") then
      if startsWith cleaned (js "+420") && (length cleaned =? 13)%nat then Some cleaned
      else if (10 <=? length cleaned)%nat && (length cleaned <=? 15)%nat then Some cleaned
      else None
    else if startsWith cleaned (js "420") then
      let cleaned := js "+" ++ cleaned in
      if (length cleaned =? 13)%nat then Some cleaned else None
    else if (length cleaned =? 9)%nat then Some (js "+420" ++ cleaned)
    else None
  end.

Definition extractPhonesFromText (text : jsstr) : list jsstr :=
  match text with
  | [] => []
  | _ =>
    fold_left
      (fun phones pattern =>
         fold_left
           (fun phones mt =>
              match normalizePhoneToE164 (Some mt) with
              | Some normalized => set_add phones normalized
              | None => phones
              end)
           (match_all pattern text) phones)
      PHONE_PATTERNS []
  end.


Definition ADDRESS_LABELS : list jsstr :=
  map js [ "adresa"; "provozovna"; "salon"; "pobočka"; "kde nas najdete";
           "kde nás najdete" ]%string.

Definition LEGAL_ADDRESS_KEYWORDS : list jsstr :=
  map js [ "ičo"; "ico"; "dič"; "dic"; "sídlo"; "sidlo"; "fakturační"; "fakturacni";
           "společnost"; "spolecnost"; "zapsaná"; "zapsana"; "obchodní rejstřík";
           "obchodni rejstrik"; "rejstříku"; "rejstriku"; "s.r.o"; "a.s" ]%string.

Definition any_cu : Z -> bool := fun _ => true.

(** [/<script[^>]*>[\s\S]*?<\/script>/gi] and its [style] twin *)
Definition element_pattern (tag : jsstr) : re :=
  cats [ chr 60; ci_lit tag; star (Cls (neg (Z.eqb 62))); chr 62;
         Rep false (Cls any_cu);
         chr 60; chr 47; ci_lit tag; chr 62 ].

(** [/<[^>]+>/g] *)
Definition tag_pattern : re := cats [chr 60; plus (Cls (neg (Z.eqb 62))); chr 62].

(** [[A-Za-zÀ-ɏ]] *)
Definition latin_letter : Z -> bool :=
  either (in_range 65 90) (either (in_range 97 122) (in_range 0xC0 0x24F)).

(** [/([A-Za-zÀ-ɏ]+(?:\s+[A-Za-zÀ-ɏ]+){0,3})\s+(\d+(?:\/\d+)?)\s*,\s*(?:(\d{3}\s?\d{2})\s+)?([A-Za-zÀ-ɏ]+(?:\s+\d+)?)/g] *)
Definition simpleAddressPattern : re :=
  cats [ plus (Cls latin_letter);
         upto 3 (Cat (plus space) (plus (Cls latin_letter)));
         plus space;
         Cat (plus digit) (opt (Cat (chr 47) (plus digit)));
         star space; chr 44; star space;
         opt (cats [times 3 digit; opt space; times 2 digit; plus space]);
         Cat (plus (Cls latin_letter)) (opt (Cat (plus space) (plus digit))) ].

Record candidate : Type := {
  cand_address : jsstr;
  cand_score : Z;
  cand_context : jsstr
}.

Record dom_result : Type := {
  dom_address : option jsstr;
  dom_candidates : list candidate;
  dom_picked : option candidate;
  dom_reason : jsstr;
  dom_multiLocation : bool
}.

(** The text of the page, tags removed: [textOnly]. *)
Definition textOnly (html : jsstr) : jsstr :=
  let limitedHtml :=
    if 80000 <? Z.of_nat (length html) then firstn (Z.to_nat 80000) html else html in
  trim
    (replace_all (plus space) (js " ")
       (replace_all tag_pattern (js " ")
          (replace_all (element_pattern (js "style")) []
             (replace_all (element_pattern (js "script")) [] limitedHtml)))).

Section WithPlatform.
Context {P : Platform}.

(** [[̀-ͯ]], the combining marks *)
Definition combining : re := Cls (in_range 0x300 0x36F).

Definition normalizeForMatch (s : jsstr) : jsstr :=
  replace_all combining [] (normalizeNFD (toLowerCase s)).

Definition containsAny (haystack : jsstr) (needles : list jsstr) : bool :=
  let h := normalizeForMatch haystack in
  existsb (fun n => includes h (normalizeForMatch n)) needles.

(** Both city names occur in the text: [multiLocation]. *)
Definition mentionsPrahaAndBrno (text : jsstr) : bool :=
  let normalizedText := normalizeForMatch text in
  includes normalizedText (js "praha") && includes normalizedText (js "brno").

Definition scoreContext (context : jsstr) : Z :=
  let contextNorm := normalizeForMatch context in
  let score := 0 in
  let score := if containsAny context ADDRESS_LABELS then score + 35 else score in
  let score :=
    if includes contextNorm (js "mapy") || includes contextNorm (js "google")
       || includes contextNorm (js "maps")
    then score + 10 else score in
  let score :=
    if includes contextNorm (js "praha") || includes contextNorm (js "brno")
    then score + 10 else score in
  if containsAny context LEGAL_ADDRESS_KEYWORDS then score - 60 else score.

(** The body of the [exec] loop: at most [maxCandidates] candidates. *)
Fixpoint collectCandidates (text : jsstr) (ms : list (cursor * cursor))
    (candidates : list candidate) : list candidate :=
  match ms with
  | [] => candidates
  | se :: ms' =>
    let addr := trim (matched se) in
    if (length addr <? 10)%nat || (160 <? length addr)%nat
    then collectCandidates text ms' candidates
    else
      let idx := Z.of_nat (index se) in
      let contextStart := Z.max 0 (idx - 140) in
      let contextEnd := Z.min (Z.of_nat (length text)) (idx + Z.of_nat (length addr) + 140) in
      let context := slice text (Z.to_nat contextStart) (Z.to_nat contextEnd) in
      let candidates :=
        candidates ++ [ {| cand_address := addr; cand_score := scoreContext context;
                           cand_context := firstn 220 context |} ] in
      if (12 <=? length candidates)%nat then candidates
      else collectCandidates text ms' candidates
  end.

Definition addressCandidates (text : jsstr) : list candidate :=
  collectCandidates text (matches simpleAddressPattern text) [].

Definition extractAddressFromDom (html : jsstr) : dom_result :=
  match html with
  | [] => {| dom_address := None; dom_candidates := []; dom_picked := None;
             dom_reason := js "no_html"; dom_multiLocation := false |}
  | _ =>
    let text := textOnly html in
    let multiLocation := mentionsPrahaAndBrno text in
    let candidates :=
      Sort.sort (fun a b => cand_score b - cand_score a) (addressCandidates text) in
    let picked := head candidates in
    let strongEnough :=
      match picked with Some c => 30 <=? cand_score c | None => false end in
    if multiLocation && negb strongEnough then
      {| dom_address := Some (js "Praha a Brno"); dom_candidates := candidates;
         dom_picked := None; dom_reason := js "multi_location_summary";
         dom_multiLocation := true |}
    else
      match picked with
      | Some c =>
        if cand_score c <? 0 then
          {| dom_address := None; dom_candidates := candidates; dom_picked := picked;
             dom_reason := js "rejected_low_score"; dom_multiLocation := multiLocation |}
        else if 15 <=? cand_score c then
          {| dom_address := Some (cand_address c); dom_candidates := candidates;
             dom_picked := picked; dom_reason := js "picked_scored_candidate";
             dom_multiLocation := multiLocation |}
        else
          {| dom_address := None; dom_candidates := candidates; dom_picked := picked;
             dom_reason := js "no_confident_candidate"; dom_multiLocation := multiLocation |}
      | None =>
        {| dom_address := None; dom_candidates := candidates; dom_picked := picked;
           dom_reason := js "no_confident_candidate"; dom_multiLocation := multiLocation |}
      end
  end.

End WithPlatform.
End Contact.

(** ** Location detection: [utils/locationUtils.js] *)

Module Locations.
Import Regex RegexI.

Record chunk : Type := {
  c_text : option jsstr;
  c_url : option jsstr;      (* chunk.kb_pages?.url *)
  c_title : option jsstr     (* chunk.kb_pages?.title *)
}.

Record raw_location : Type := {
  r_name : option jsstr;
  r_address : option jsstr;
  r_booking_providers : list jsstr
}.

Record location : Type := {
  name : option jsstr;
  address : jsstr;
  booking_providers : list jsstr
}.

(** [x || ''] *)
Definition or_empty (x : option jsstr) : jsstr := default [] x.

(** [s.indexOf(p)] *)
Fixpoint indexOf_from (i : Z) (s p : jsstr) : Z :=
  if startsWith s p then i
  else match s with
       | [] => -1
       | _ :: s' => indexOf_from (i + 1) s' p
       end.

Definition indexOf (s p : jsstr) : Z := indexOf_from 0 s p.

(** [s.slice(i, j)] with [0 <= i] and [j <= s.length] *)
Definition sliceZ (s : jsstr) (i j : Z) : jsstr := slice s (Z.to_nat i) (Z.to_nat j).

Definition upper_cz : Z -> bool :=
  either (in_range 65 90) (any_of (js "ÁČĎÉĚÍŇÓŘŠŤÚŮÝŽ")).
Definition lower_cz : Z -> bool :=
  either (in_range 97 122) (any_of (js "áčďéěíňóřšťúůýž")).

(** Both classes under the [i] flag. *)
Definition letter_i : Z -> bool :=
  ci_cls (fun x => in_range 65 90 (canonicalize x)) (js "ÁČĎÉĚÍŇÓŘŠŤÚŮÝŽ").

(** [[A-ZÁ..Ž][a-zá..ž]+] *)
Definition word : re := Cat (Cls upper_cz) (plus (Cls lower_cz)).
Definition word_i : re := Cat (Cls letter_i) (plus (Cls letter_i)).

(** [[0-9]+(?:\/[0-9]+)?] *)
Definition house_number : re := Cat (plus digit) (opt (Cat (chr 47) (plus digit))).

Definition pattern1 : re :=
  cats [ word_i; star (Cat (plus space) word_i); plus space;
         opt (alts (map ci_lit [js "náměstí"; js "nám."; js "ulice"; js "ul."; js "třída"; js "tř."]));
         star space; house_number;
         opt (cats [star space; chr 44; star space]);
         opt (cats [star space; opt (cats [times 3 digit; star space; times 2 digit]); star space]);
         opt (Cat word_i (opt (Cat (plus space) (plus digit)))) ].

Definition pattern2 : re :=
  cats [ house_number; plus space; word_i; star (Cat (plus space) word_i);
         star space; chr 44; star space; word_i ].

Definition CITY_NAMES : list string :=
  [
    "Praha"; "Brno"; "Ostrava"; "Plzeň"; "Liberec"; "Olomouc"; "České Budějovice";
    "Hradec Králové"; "Ústí nad Labem"; "Pardubice"; "Zlín"; "Havířov"; "Kladno"; "Most";
    "Opava"; "Frýdek-Místek"; "Jihlava"; "Karviná"; "Teplice"; "Děčín"; "Chomutov";
    "Jablonec nad Nisou"; "Mladá Boleslav"; "Prostějov"; "Přerov"; "Česká Lípa"; "Třebíč";
    "Třinec"; "Žďár nad Sázavou"; "Orlová"; "Nový Jičín"; "Kroměříž"; "Litvínov";
    "Hodonín"; "Uherské Hradiště"; "Čáslav"; "Šumperk"; "Vsetín"; "Valašské Meziříčí";
    "Litoměřice"; "Břeclav"; "Kopřivnice"; "Klatovy"; "Hranice"; "Jindřichův Hradec";
    "Svitavy"; "Trutnov"; "Písek"; "Kutná Hora"; "Pelhřimov"; "Beroun";
    "Dvůr Králové nad Labem"; "Český Krumlov"; "Mělník"; "Tábor"; "Příbram"; "Náchod";
    "Rokycany"; "Jaroměř"; "Nymburk"; "Blansko"; "Kyjov"; "Vrchlabí"; "Boskovice"; "Žatec";
    "Sokolov"; "Kraslice"; "Aš"; "Cheb"; "Mariánské Lázně"; "Karlovy Vary"; "Louny";
    "Rakovník"; "Benešov"; "Kolín"; "Mladá Boleslav"; "Mělník"; "Neratovice";
    "Brandýs nad Labem-Stará Boleslav"; "Říčany"; "Černošice"; "Roztoky";
    "Kralupy nad Vltavou"; "Slaný"; "Kladno"; "Unhošť"; "Buštěhrad"; "Stochov";
    "Nové Strašecí"; "Roudnice nad Labem"; "Litoměřice"; "Ústí nad Labem"; "Děčín";
    "Varnsdorf"; "Rumburk"; "Šluknov"; "Česká Lípa"; "Nový Bor"; "Mimoň";
    "Jablonec nad Nisou"; "Liberec"; "Frýdlant"; "Turnov"; "Semily"; "Jilemnice";
    "Vrchlabí"; "Trutnov"; "Dvůr Králové nad Labem"; "Náchod"; "Nové Město nad Metují";
    "Česká Skalice"; "Jaroměř"; "Hradec Králové"; "Pardubice"; "Chrudim"; "Vysoké Mýto";
    "Ústí nad Orlicí"; "Lanškroun"; "Svitavy"; "Moravská Třebová"; "Litovel"; "Šumperk";
    "Jeseník"; "Krnov"; "Bruntál"; "Opava"; "Hlučín"; "Kravaře"; "Bohumín"; "Orlová";
    "Karviná"; "Havířov"; "Český Těšín"; "Frýdek-Místek"; "Frýdlant nad Ostravicí";
    "Nový Jičín"; "Kopřivnice"; "Příbor"; "Fulnek"; "Bílovec"; "Odry"; "Studénka";
    "Hranice"; "Lipník nad Bečvou"; "Přerov"; "Prostějov"; "Konice"; "Litovel"; "Uničov";
    "Šternberk"; "Olomouc"; "Šumperk"; "Zábřeh"; "Mohelnice"; "Loštice"; "Litovel";
    "Uničov"; "Šternberk"; "Olomouc"; "Šumperk"; "Zábřeh"; "Mohelnice"; "Loštice" ]%string.

Definition cityPattern : re := alts (map (fun n => ci_lit (js n)) CITY_NAMES).

(** [/([A-ZÁ..Ž][a-zá..ž]+\s+[0-9]+(?:\/[0-9]+)?)/i] *)
Definition nearbyPattern : re := cats [word_i; plus space; house_number].

Definition extractAddresses (text : jsstr) : list jsstr :=
  match text with
  | [] => []
  | _ =>
    let add_full (addresses : list jsstr) (m0 : jsstr) :=
      let fullMatch := trim m0 in
      if (10 <? length fullMatch)%nat && (length fullMatch <? 200)%nat
      then set_add addresses fullMatch else addresses in
    let addresses := fold_left add_full (match_all pattern1 text) [] in
    let addresses := fold_left add_full (match_all pattern2 text) addresses in
    fold_left
      (fun addresses city =>
         let cityIndex := indexOf text city in
         let context := sliceZ text (Z.max 0 (cityIndex - 100))
                               (Z.min (Z.of_nat (length text)) (cityIndex + 200)) in
         match search nearbyPattern [] context with
         | Some se => set_add addresses (matched se ++ js ", " ++ city)
         | None => addresses
         end)
      (match_all cityPattern text) addresses
  end.

Definition CITY_KEYWORDS : list jsstr :=
  map js [ "praha"; "brno"; "ostrava"; "plzeň"; "olomouc"; "liberec"; "hradec";
           "pardubice"; "zlin"; "ústí"; "usti"; "české budějovice";
           "ceske budejovice" ]%string.

Definition JUNK_TOKENS : list jsstr :=
  map js [ "kč"; "min"; "%"; "šampon"; "masky";
           "používáme jen profesionální značky";
           "pouzivame jen profesionalni znacky" ]%string.

Definition has_digit (str : jsstr) : bool := test digit str.

(** [str.replace(/\s+/g, ' ').trim()] *)
Definition normalizeAddress (str : jsstr) : jsstr :=
  trim (replace_all (plus space) (js " ") str).

Section WithPlatform.
Context {P : Platform}.

Definition extractLocationNames (chunks : list chunk) : list jsstr :=
  let cityPattern := alts (map (fun n => ci_lit (js n))
      [ "praha"; "brno"; "ostrava"; "plzen"; "plzeň"; "liberec"; "olomouc" ]%string) in
  let locationPattern :=
    cats [ alts (map (fun n => lit (js n))
             [ "Praha"; "Brno"; "Ostrava"; "Plzeň"; "Liberec"; "Olomouc" ]%string);
           star space; Cls (any_of (js "–-")); star space;
           word; star (Cat (plus space) word) ] in
  fold_left
    (fun locationNames chunk =>
       let url := or_empty (c_url chunk) in
       let text := or_empty (c_text chunk) in
       let title := or_empty (c_title chunk) in
       let urlLower := toLowerCase url in
       let add_if (b : bool) (n : jsstr) (acc : list jsstr) :=
         if b then set_add acc n else acc in
       let locationNames := add_if (includes urlLower (js "/praha")) (js "Praha") locationNames in
       let locationNames := add_if (includes urlLower (js "/brno")) (js "Brno") locationNames in
       let locationNames := add_if (includes urlLower (js "/ostrava")) (js "Ostrava") locationNames in
       let locationNames :=
         add_if (includes urlLower (js "/plzen") || includes urlLower (js "/plzeň"))
                (js "Plzeň") locationNames in
       let combinedText := toLowerCase (title ++ LF ++ text) in
       let locationNames :=
         fold_left
           (fun acc city => set_add acc (toUpperCase (firstn 1 city) ++ skipn 1 city))
           (match_all cityPattern combinedText) locationNames in
       fold_left
         (fun acc m0 => set_add acc (trim m0))
         (match_all locationPattern (title ++ LF ++ text)) locationNames)
    chunks [].

(** A [Map] from strings, in insertion order. *)
Fixpoint map_set {V : Type} (k : jsstr) (v : V) (mp : list (jsstr * V)) : list (jsstr * V) :=
  match mp with
  | [] => [(k, v)]
  | (k', v') :: mp' => if str_eqb k' k then (k, v) :: mp' else (k', v') :: map_set k v mp'
  end.

Fixpoint map_get {V : Type} (k : jsstr) (mp : list (jsstr * V)) : option V :=
  match mp with
  | [] => None
  | (k', v') :: mp' => if str_eqb k' k then Some v' else map_get k mp'
  end.

Definition map_delete {V : Type} (k : jsstr) (mp : list (jsstr * V)) : list (jsstr * V) :=
  filter (fun kv => negb (str_eqb (fst kv) k)) mp.

Definition mapBookingProvidersToLocations
    (locations : list location) (chunks : list chunk)
    (detectedBookingProviders : list jsstr) : list location :=
  match detectedBookingProviders, locations with
  | [], _ | _, [] => locations
  | _, _ =>
    let urlLocationMap :=
      fold_left
        (fun mp chunk =>
           let url := toLowerCase (or_empty (c_url chunk)) in
           match url with
           | [] => mp
           | _ =>
             if includes url (js "/praha") || includes url (js "/praha-")
             then map_set url (js "praha") mp
             else if includes url (js "/brno") || includes url (js "/brno-")
             then map_set url (js "brno") mp
             else if includes url (js "/ostrava") || includes url (js "/ostrava-")
             then map_set url (js "ostrava") mp
             else if includes url (js "/plzen") || includes url (js "/plzeň")
                     || includes url (js "/plzen-")
             then map_set url (js "plzeň") mp
             else mp
           end)
        chunks [] in
    map
      (fun loc =>
         let locationName := toLowerCase (or_empty (name loc)) in
         let addressLower := toLowerCase (address loc) in
         if existsb
              (fun kv => includes locationName (snd kv) || includes addressLower (snd kv))
              urlLocationMap
         then {| name := name loc; address := address loc;
                 booking_providers :=
                   fold_left set_add detectedBookingProviders (booking_providers loc) |}
         else loc)
      locations
  end.

Definition containsCityKeyword (str : jsstr) : option jsstr :=
  let lower := toLowerCase str in
  find (fun city => includes lower city) CITY_KEYWORDS.

Definition isProbablyAddress (str : jsstr) : bool :=
  let lower := toLowerCase str in
  if negb (has_digit str) then false
  else if negb (bool_decide (is_Some (containsCityKeyword str))) then false
  else if existsb (fun junk => includes lower junk) JUNK_TOKENS then false
  else
    let trimmed := trim str in
    if (length trimmed <? 8)%nat || (120 <? length trimmed)%nat then false
    else true.

Definition inferredLocationName (address : jsstr) : jsstr :=
  let lower := toLowerCase address in
  let has (n : jsstr) := includes lower n in
  if has (js "praha") then js "Praha"
  else if has (js "brno") then js "Brno"
  else if has (js "ostrava") then js "Ostrava"
  else if has (js "plzeň") || has (js "plzen") then js "Plzeň"
  else if has (js "olomouc") then js "Olomouc"
  else if has (js "liberec") then js "Liberec"
  else if has (js "hradec") then js "Hradec Králové"
  else if has (js "pardubice") then js "Pardubice"
  else if has (js "zlin") then js "Zlín"
  else if has (js "usti") || has (js "ústí") then js "Ústí nad Labem"
  else if has (js "ceske budejovice") || has (js "české budějovice") then js "České Budějovice"
  else js "Lokace".

Definition normalizeAndFilterLocations (rawLocations : list raw_location) : list location :=
  snd
    (fold_left
       (fun '(seen, result) loc =>
          match r_address loc with
          | None | Some [] => (seen, result)
          | Some addr =>
            let addrNorm := normalizeAddress addr in
            if negb (isProbablyAddress addrNorm) then (seen, result)
            else
              let key := toLowerCase addrNorm in
              if set_has seen key then (seen, result)
              else
                let name :=
                  match r_name loc with
                  | Some (c :: n) =>
                    (* /^lokace/i.test(name) *)
                    if test (Cat Bol (ci_lit (js "lokace"))) (c :: n)
                    then inferredLocationName addrNorm else c :: n
                  | _ => inferredLocationName addrNorm
                  end in
                (set_add seen key,
                 result ++ [ {| name := Some name; address := addrNorm;
                                booking_providers := r_booking_providers loc |} ])
          end)
       rawLocations ([], [])).

Definition seedBaseLocationFromProfile
    (profileAddress : option jsstr) (detectedBookingProviders : list jsstr)
  : option location :=
  match profileAddress with
  | None | Some [] => None
  | Some addr =>
    let addrNorm := normalizeAddress addr in
    if negb (isProbablyAddress addrNorm)
       && (negb (bool_decide (is_Some (containsCityKeyword addrNorm)))
           || negb (has_digit addrNorm))
    then None
    else Some {| name := Some (inferredLocationName addrNorm); address := addrNorm;
                 booking_providers := detectedBookingProviders |}
  end.

Definition city_key (addr : jsstr) : jsstr :=
  default (js "unknown") (containsCityKeyword addr).

Definition compare_candidates (a b : location) : Z :=
  let aAddr := address a in
  let bAddr := address b in
  let aHasSlash := includes aAddr (js "/") in
  let bHasSlash := includes bAddr (js "/") in
  if negb (eqb aHasSlash bHasSlash) then (if aHasSlash then -1 else 1)
  else if negb (length aAddr =? length bAddr)%nat
  then Z.of_nat (length aAddr) - Z.of_nat (length bAddr)
  else localeCompare aAddr bAddr.

Definition selectCanonicalPerCity
    (baseLocation : option location) (candidates : list location) : list location :=
  let byCity :=
    fold_left
      (fun byCity loc =>
         let city := city_key (address loc) in
         map_set city (default [] (map_get city byCity) ++ [loc]) byCity)
      candidates [] in
  let '(results, byCity) :=
    match baseLocation with
    | Some base => ([base], map_delete (city_key (address base)) byCity)
    | None => ([], byCity)
    end in
  let results :=
    fold_left
      (fun results '(city, locs) =>
         if str_eqb city (js "unknown") then results
         else match Sort.sort compare_candidates locs with
              | best :: _ => results ++ [best]
              | [] => results
              end)
      byCity results in
  firstn 5 results.

Definition detectLocationsFromChunks
    (chunks : list chunk) (profileAddress : option jsstr)
    (detectedBookingProviders : list jsstr) : list location :=
  match chunks with
  | [] => []
  | _ =>
    let allText := join ((LF ++ LF)) (map (fun c => or_empty (c_text c)) chunks) in
    let addresses := extractAddresses allText in
    let locationNames := extractLocationNames chunks in
    let profileAddr := if truthy profileAddress then profileAddress else None in
    let rawLocations :=
      match addresses with
      | _ :: _ :: _ =>
        imap
          (fun i address =>
             let name :=
               match find (fun locName => includes (toLowerCase address) (toLowerCase locName))
                          locationNames with
               | Some n => n
               | None =>
                 match search (alts (map (fun n => ci_lit (js n))
                         [ "Praha"; "Brno"; "Ostrava"; "Plzeň"; "Liberec"; "Olomouc" ]%string))
                         [] address with
                 | Some se => matched se
                 | None => js "Lokace " ++ of_nat (i + 1)
                 end
               end in
             {| r_name := Some name; r_address := Some address; r_booking_providers := [] |})
          addresses
      | [address] =>
        match locationNames with
        | _ :: _ :: _ =>
          map (fun locName =>
                 {| r_name := Some locName; r_address := Some address;
                    r_booking_providers := [] |})
              locationNames
        | _ =>
          [ {| r_name := head locationNames; r_address := Some address;
               r_booking_providers := [] |} ]
        end
      | [] =>
        match locationNames with
        | _ :: _ =>
          map (fun locName =>
                 {| r_name := Some locName; r_address := profileAddr;
                    r_booking_providers := [] |})
              locationNames
        | [] =>
          match profileAddr with
          | Some a => [ {| r_name := None; r_address := Some a; r_booking_providers := [] |} ]
          | None => []
          end
        end
      end in
    let cleaned := normalizeAndFilterLocations rawLocations in
    let baseLocation := seedBaseLocationFromProfile profileAddress detectedBookingProviders in
    let finalLocations := selectCanonicalPerCity baseLocation cleaned in
    let locationsWithProviders :=
      mapBookingProvidersToLocations finalLocations chunks detectedBookingProviders in
    match locationsWithProviders, profileAddr with
    | [], Some a =>
      [ {| name := None; address := a; booking_providers := detectedBookingProviders |} ]
    | _, _ => locationsWithProviders
    end
  end.

End WithPlatform.
End Locations.

(** ** The crawl frontier: [crawlers/playwrightCrawler.js]

    The browser, the site and the page store are the environment of the
    crawl: [web] tells how the visit of a URL ends.  [normalizeUrl],
    [shouldExclude] and [resolveUrl] wrap the platform's [URL] parser (and, for
    [shouldExclude], patterns compiled at run time) and are parameters.

    Besides the variables of the source the state carries three counters of
    the run that the source does not keep: the URLs taken from the queue
    ([dequeued]), the URLs handed to the browser ([attempts]) and the number of
    visits that did not end with an indexed page ([failures]). *)

Module Crawler.
Import Regex RegexI.

Definition PRIORITY_LINK_TEXTS : list jsstr :=
  map js [ "kontakt"; "contact"; "contacts"; "kontakty"; "rezervace"; "rezervovat";
           "booking"; "book now"; "appointment"; "reservation"; "ceník"; "cenník";
           "ceny"; "price list"; "prices"; "menu"; "služby"; "services" ]%string.

(** [/\/kontakt/i], ... *)
Definition PRIORITY_HREF_PATTERNS : list re :=
  map (fun w => Cat (chr 47) (ci_lit (js w)))
      [ "kontakt"; "contact"; "contacts"; "rezervace"; "booking"; "book";
        "appointment"; "reservation"; "cenik"; "cennik"; "ceny"; "price"; "menu";
        "sluzby"; "services" ]%string.

Definition BOOKING_PATTERNS : list (jsstr * list jsstr) :=
  [ (js "fresha", [js "fresha.com"; js "widget.fresha.com"]);
    (js "reserva", [js "reserva.cz"; js "reservaonline"]);
    (js "simplebook", [js "simplebook"; js "simplybook.me"]);
    (js "timely", [js "gettimely"; js "book.gettimely.com"]);
    (js "rever", [js "rever.io"; js "reverapp"]);
    (js "other_booking", [js "iframe"; js "booking"; js "rezervace"]) ].

Record task : Type := { url : jsstr; depth : Z; fromPriority : bool }.

Record link : Type := { href : jsstr; text : jsstr }.

Record page : Type := {
  page_url : jsstr;
  page_depth : Z;
  page_text : jsstr;
  page_html : jsstr;
  page_bookingProvider : option jsstr
}.

(** What the browser and the store returned for a page that loaded. *)
Record rendering : Type := {
  html : jsstr;          (* page.content() *)
  cleanedText : jsstr;   (* cleanText(bodyText) *)
  chunksStored : Z       (* rows added to kb_chunks *)
}.

(** How the visit of a URL ends. *)
Inductive outcome : Type :=
| NavigationFailed                      (* safeGoto returned null or threw *)
| HttpNotOk                             (* !response.ok() *)
| RenderThrew (html : option jsstr)     (* exception before the page is recorded *)
| InsertFailed (r : rendering)          (* kb_pages insert failed or threw *)
| ChunkingThrew (r : rendering)         (* page counted, exception before link discovery *)
| Indexed (r : rendering) (internalLinks : list link).

Record state : Type := {
  queue : list task;
  seen : list jsstr;
  visited : list jsstr;
  pagesCrawled : Z;
  totalChunks : Z;
  crawledPagesWithContent : list page;
  bookingProviders : list jsstr;
  dequeued : list jsstr;
  attempts : list jsstr;
  failures : Z
}.

Definition maxQueueSize : nat := 400.
Definition maxLinksPerPage : Z := 50.

Section Crawl.
Context {P : Platform}.
Variable normalizeUrl : jsstr -> jsstr.
Variable shouldExclude : jsstr -> bool.
Variable resolveUrl : jsstr -> jsstr -> option jsstr.   (* new URL(forced, baseUrl) *)
Variable web : nat -> jsstr -> outcome.
Variables maxDepth maxPages : Z.

Definition detectBookingProviders (url html : jsstr) : list jsstr :=
  let haystack := toLowerCase (url ++ LF ++ html) in
  fold_left
    (fun found provider =>
       if existsb (fun p => includes haystack (toLowerCase p)) (snd provider)
       then set_add found (fst provider) else found)
    BOOKING_PATTERNS [].

Definition isPriorityLink (l : link) : bool :=
  let lowerText := toLowerCase (text l) in
  let isPriorityText := existsb (fun key => includes lowerText key) PRIORITY_LINK_TEXTS in
  let isPriorityHref := existsb (fun rx => test rx (href l)) PRIORITY_HREF_PATTERNS in
  isPriorityText || isPriorityHref.

Definition enqueue (url : jsstr) (depth : Z) (fromPriority : bool) (st : state) : state :=
  match url with
  | [] => st
  | _ =>
    let normalized := normalizeUrl url in
    if set_has (seen st) normalized then st
    else if shouldExclude normalized then st
    else
      {| queue := queue st ++ [ {| url := normalized; depth := depth;
                                   fromPriority := fromPriority |} ];
         seen := set_add (seen st) normalized;
         visited := visited st; pagesCrawled := pagesCrawled st;
         totalChunks := totalChunks st;
         crawledPagesWithContent := crawledPagesWithContent st;
         bookingProviders := bookingProviders st;
         dequeued := dequeued st; attempts := attempts st; failures := failures st |}
  end.

Definition empty_state : state :=
  {| queue := []; seen := []; visited := []; pagesCrawled := 0; totalChunks := 0;
     crawledPagesWithContent := []; bookingProviders := [];
     dequeued := []; attempts := []; failures := 0 |}.

(** The queue before the loop: base URL, forced URLs, sitemap URLs. *)
Definition initial_state (baseUrl : jsstr) (forcedUrls sitemapUrls : list jsstr) : state :=
  let st := enqueue baseUrl 0 false empty_state in
  let st :=
    fold_left
      (fun st forced =>
         match resolveUrl forced baseUrl with
         | Some full => enqueue full 1 true st
         | None => st
         end)
      forcedUrls st in
  fold_left (fun st sUrl => enqueue sUrl 1 false st) sitemapUrls st.

(** Priority and normal links of a page. *)
Definition classifyLinks (visited : list jsstr) (internalLinks : list link)
  : list jsstr * list jsstr :=
  fold_left
    (fun '(priorityLinks, normalLinks) l =>
       if shouldExclude (href l) then (priorityLinks, normalLinks)
       else if set_has visited (href l) then (priorityLinks, normalLinks)
       else if isPriorityLink l then (priorityLinks ++ [href l], normalLinks)
       else (priorityLinks, normalLinks ++ [href l]))
    internalLinks ([], []).

(** One of the two loops that add links to the queue. *)
Definition addLinks (priority : bool) (visited : list jsstr) (depth : Z)
    (links : list jsstr) (acc : list task * list jsstr * Z) : list task * list jsstr * Z :=
  fold_left
    (fun '(queue, seen, addedCount) l =>
       if (length queue <? maxQueueSize)%nat && (addedCount <? maxLinksPerPage)
          && (depth + 1 <=? maxDepth)
       then
         if negb (set_has visited l) && negb (set_has seen l) then
           let t := {| url := l; depth := depth + 1; fromPriority := priority |} in
           (if priority then t :: queue else queue ++ [t], set_add seen l, addedCount + 1)
         else (queue, seen, addedCount)
       else (queue, seen, addedCount))
    links acc.

Definition record_providers (found : list jsstr) (detected : list jsstr) : list jsstr :=
  fold_left set_add detected found.

(** One turn of the main loop; [None] when the loop has ended. *)
Definition step (st : state) : option state :=
  match queue st with
  | [] => None
  | t :: rest =>
    if negb (pagesCrawled st <? maxPages) then None
    else
      let normalizedUrl := normalizeUrl (url t) in
      let st0 :=
        {| queue := rest; seen := seen st; visited := visited st;
           pagesCrawled := pagesCrawled st; totalChunks := totalChunks st;
           crawledPagesWithContent := crawledPagesWithContent st;
           bookingProviders := bookingProviders st;
           dequeued := dequeued st ++ [url t]; attempts := attempts st;
           failures := failures st |} in
      if set_has (visited st) normalizedUrl || (maxDepth <? depth t) then Some st0
      else
        let visited' := set_add (visited st) normalizedUrl in
        let attempts' := attempts st ++ [normalizedUrl] in
        let failed (providers : list jsstr) (pages : list page) :=
          {| queue := rest; seen := seen st; visited := visited';
             pagesCrawled := pagesCrawled st; totalChunks := totalChunks st;
             crawledPagesWithContent := pages; bookingProviders := providers;
             dequeued := dequeued st0; attempts := attempts';
             failures := failures st + 1 |} in
        let recorded (r : rendering) :=
          let detected := detectBookingProviders normalizedUrl (html r) in
          (record_providers (bookingProviders st) detected,
           crawledPagesWithContent st ++
             [ {| page_url := normalizedUrl; page_depth := depth t;
                  page_text := cleanedText r; page_html := html r;
                  page_bookingProvider := head detected |} ]) in
        match web (length (attempts st)) normalizedUrl with
        | NavigationFailed | HttpNotOk | RenderThrew None =>
          Some (failed (bookingProviders st) (crawledPagesWithContent st))
        | RenderThrew (Some h) =>
          Some (failed (record_providers (bookingProviders st)
                          (detectBookingProviders normalizedUrl h))
                       (crawledPagesWithContent st))
        | InsertFailed r =>
          let '(providers, pages) := recorded r in
          Some (failed providers pages)
        | ChunkingThrew r =>
          let '(providers, pages) := recorded r in
          Some {| queue := rest; seen := seen st; visited := visited';
                  pagesCrawled := pagesCrawled st + 1; totalChunks := totalChunks st;
                  crawledPagesWithContent := pages; bookingProviders := providers;
                  dequeued := dequeued st0; attempts := attempts';
                  failures := failures st |}
        | Indexed r internalLinks =>
          let '(providers, pages) := recorded r in
          let pagesCrawled' := pagesCrawled st + 1 in
          let '(queue', seen', _) :=
            if (depth t <? maxDepth) && (pagesCrawled' <? maxPages) then
              let '(priorityLinks, normalLinks) := classifyLinks visited' internalLinks in
              addLinks false visited' (depth t) normalLinks
                (addLinks true visited' (depth t) priorityLinks (rest, seen st, 0))
            else (rest, seen st, 0) in
          Some {| queue := queue'; seen := seen'; visited := visited';
                  pagesCrawled := pagesCrawled';
                  totalChunks := totalChunks st + chunksStored r;
                  crawledPagesWithContent := pages; bookingProviders := providers;
                  dequeued := dequeued st0; attempts := attempts';
                  failures := failures st |}
        end
  end.

(** The state after at most [n] turns of the loop. *)
Fixpoint run (n : nat) (st : state) : state :=
  match n with
  | O => st
  | S n' =>
    match step st with
    | Some st' => run n' st'
    | None => st
    end
  end.

(** A bound on the number of turns left. *)
Definition turns_left (st : state) : Z :=
  (maxLinksPerPage + 1) * Z.max 0 (maxPages - pagesCrawled st)
  + Z.of_nat (length (queue st)).

(** The page budget: pages counted, and visits that were not. *)
Definition budget_kept (st : state) : Prop :=
  0 <= pagesCrawled st <= Z.max 0 maxPages
  /\ 0 <= failures st
  /\ Z.of_nat (length (attempts st)) = pagesCrawled st + failures st.

End Crawl.

(** The URLs of the run in the order in which they leave the queue: those
    that left it, then those that wait in it. *)
Definition timeline (st : state) : list jsstr := dequeued st ++ map url (queue st).

(** Every URL of the queue, and every URL that left it, was marked seen. *)
Definition frontier_seen (st : state) : Prop :=
  forall u, In u (timeline st) -> In u (seen st).

(** No URL is visited twice and no page is recorded twice. *)
Definition visits_distinct (st : state) : Prop :=
  attempts st = visited st
  /\ NoDup (visited st)
  /\ NoDup (map page_url (crawledPagesWithContent st))
  /\ (forall u, In u (map page_url (crawledPagesWithContent st)) -> In u (visited st)).

End Crawler.

(** ** Business-name scoring: [lib/pickBusinessName.js]

    [urlHostname] is [new URL(url).hostname], of the platform's URL parser;
    [None] when the URL does not parse. *)

Module PickName.
Import Regex RegexI.

Definition GENERIC_WORDS : list jsstr :=
  map js [ "kadernictvi"; "kadeřnictví"; "salon"; "salón"; "studio"; "studío";
           "premiove"; "prémiové"; "luxusni"; "luxusní"; "krasa"; "krása"; "sluzby";
           "služby"; "vlasy"; "vlasu"; "vlasů"; "barber" ]%string.

(** [[-–—]] *)
Definition dash : re := Cls (any_of (js "-–—")).

Definition normalizeNameCandidate (name : option jsstr) : jsstr :=
  match name with
  | None | Some [] => []
  | Some name =>
    trim
      (replace_first (cats [star space; plus dash; Eol]) []
         (replace_first (cats [Bol; plus dash; star space]) []
            (trim
               (replace_all (chr 0xA0) (js " ")
                  (replace_all (plus space) (js " ") name)))))
  end.

(** [s.split(/r/).filter(Boolean)] *)
Fixpoint pieces (s : jsstr) (pos : nat) (ms : list (cursor * cursor)) : list jsstr :=
  match ms with
  | [] => [skipn pos s]
  | se :: ms' => slice s pos (index se) :: pieces s (index se + length (matched se)) ms'
  end.

Definition split_nonempty (r : re) (s : jsstr) : list jsstr :=
  filter (fun w => negb (str_eqb w [])) (pieces s 0 (matches r s)).

Section WithPlatform.
Context {P : Platform}.
Variable urlHostname : jsstr -> option jsstr.

Definition domainToken (url : jsstr) : jsstr :=
  match urlHostname url with
  | None => []
  | Some hostname =>
    let host := toLowerCase (replace_first (Cat Bol (Cat (ci_lit (js "www")) (chr 46))) [] hostname) in
    default [] (head (pieces host 0 (matches (chr 46) host)))
  end.

Definition scoreBusinessName (name : option jsstr) (url : jsstr) : Z :=
  match normalizeNameCandidate name with
  | [] => -1000
  | n =>
    let lower := toLowerCase n in
    let token := domainToken url in
    let score := 0 in
    let score := if truthy (Some token) && includes lower token then score + 35 else score in
    let score := if test (Cls (any_of (js "®™"))) n then score + 25 else score in
    let score := if (length n <=? 25)%nat then score + 10 else score in
    let score := if (60 <? length n)%nat then score - 25 else score in
    (* lower.normalize('NFD').replace(/[̀-ͯ]/g, '').split(/[^a-z0-9]+/i) *)
    let words :=
      split_nonempty
        (plus (Cls (fun c => negb (in_range 65 90 (canonicalize c) || is_digit c))))
        (replace_all (Cls (in_range 0x300 0x36F)) [] (normalizeNFD lower)) in
    let score :=
      fold_left (fun score w => if set_has GENERIC_WORDS w then score - 12 else score)
                words score in
    let hasLower := test (Cls (either (in_range 97 122) (in_range 0xE1 0x17E))) n in
    let hasUpper := test (Cls (either (in_range 65 90) (in_range 0xC1 0x17D))) n in
    let score := if hasLower && hasUpper then score + 8 else score in
    let spaceCount := length (match_all space n) in
    if (4 <=? spaceCount)%nat then score - 10 else score
  end.

Definition isGenericBusinessName (name : option jsstr) (url : jsstr) : bool :=
  scoreBusinessName name url <? 5.

End WithPlatform.
End PickName.

(** ** The profile reconciler: [lib/importFromWeb.js]

    The record store is modelled for the business that is being imported:
    the row of [businesses], the row of [business_profile], and the rows of
    [services] and [opening_hours], keyed by the columns of their unique
    constraints ([slug], [weekday]).  An upsert writes every column of its
    payload; a payload that holds one key twice is refused by the store (the
    source removes repeated slugs from the services payload for that
    reason), and the error of the refusal carries the message of the store.
    The select of the existing services (STEP 2) may fail: the source reads
    its error, warns, and goes on without the rows.  Apart from these the
    store answers every select and every write: the source never reads the
    errors of its other selects, and other connection faults are not
    modelled. *)

Module ImportFromWeb.
Import Regex RegexI PickName.

Record hours_entry : Type := { opens : option jsstr; closes : option jsstr }.

Record ImportedOpeningHour : Type := {
  weekday : jsstr;
  opensAt : option jsstr;
  closesAt : option jsstr;
  closed : bool
}.

Record ImportedProfile : Type := {
  name : option jsstr;
  address : option jsstr;
  phone : option jsstr;
  email : option jsstr;
  website : option jsstr
}.

Record ImportedService : Type := {
  s_name : option jsstr;
  description : option jsstr;
  durationMinutes : option Z;
  priceFrom : option Z;
  priceTo : option Z;
  isCore : bool
}.

Record ImportedBusinessData : Type := {
  profile : ImportedProfile;
  services : list ImportedService;
  openingHours : list ImportedOpeningHour
}.

(** [Object.entries(weekdayMap)] *)
Definition weekdayMap : list (jsstr * jsstr) :=
  map (fun d => (js d, js d)) [ "mon"; "tue"; "wed"; "thu"; "fri"; "sat"; "sun" ]%string.

(** The loop that turns an object of hours into entries: a day is kept when
    both [opens] and [closes] are there. *)
Definition hoursOf (hours : gmap jsstr hours_entry) : list ImportedOpeningHour :=
  flat_map
    (fun '(weekdayKey, weekdayValue) =>
       match hours !! weekdayKey with
       | Some h =>
         if truthy (opens h) && truthy (closes h)
         then [ {| weekday := weekdayValue; opensAt := opens h; closesAt := closes h;
                   closed := false |} ]
         else []
       | None => []
       end)
    weekdayMap.

(** [Object.values(result).filter((v) => v?.opens && v?.closes).length] *)
Definition validDays (hours : gmap jsstr hours_entry) : nat :=
  length (filter (fun kv => truthy (opens (snd kv)) && truthy (closes (snd kv)))
                 (map_to_list hours)).

Definition validHour (oh : ImportedOpeningHour) : bool :=
  truthy (opensAt oh) && truthy (closesAt oh).

(** The opening hours of the imported data.  [oracle] is
    [extractedData.opening_hours], [jsonLdHours] the hours of
    [extractOpeningHoursFromJsonLdPages], [preExtractedHours] the result of
    [extractCzechOpeningHours], [fresha] the hours of
    [extractOpeningHoursFromFreshaIfPossible]. *)
Definition finalOpeningHoursArray
    (oracle : option (gmap jsstr hours_entry))
    (jsonLdHours : gmap jsstr hours_entry)
    (preExtractedHours : option (gmap jsstr hours_entry))
    (bookingProviders : list jsstr)
    (fresha : option (gmap jsstr hours_entry)) : list ImportedOpeningHour :=
  let openingHours := match oracle with Some h => hoursOf h | None => [] end in
  let final := openingHours in
  let final := if (0 <? validDays jsonLdHours)%nat then hoursOf jsonLdHours else final in
  let final := match preExtractedHours with Some h => hoursOf h | None => final end in
  let final :=
    match final with
    | [] =>
      if set_has bookingProviders (js "fresha") then
        match fresha with
        | Some h => if (0 <? validDays h)%nat then hoursOf h else final
        | None => final
        end
      else final
    | _ => final
    end in
  let validHoursCount := length (filter validHour final) in
  if (validHoursCount =? 0)%nat then [] else final.

(** *** The stored profile *)

Record profile_row : Type := {
  pr_name : option jsstr;
  pr_address : option jsstr;
  pr_phone : option jsstr;
  pr_email : option jsstr;
  pr_website_url : option jsstr;
  pr_updated_at : jsstr
}.

Record service_row : Type := {
  sv_name : jsstr;
  sv_slug : jsstr;
  sv_description : option jsstr;
  sv_duration_minutes : option Z;
  sv_price_from : option Z;
  sv_price_to : option Z;
  sv_is_active : bool;
  sv_is_bookable : bool
}.

Record hours_row : Type := {
  h_weekday : jsstr;
  h_opens_at : option jsstr;
  h_closes_at : option jsstr
}.

Record store : Type := {
  businesses : option (option jsstr);           (* the row's [name], if the row exists *)
  business_profile : option profile_row;
  services_table : gmap jsstr service_row;      (* by [slug] *)
  opening_hours : gmap jsstr hours_row          (* by [weekday] *)
}.

Inductive completion : Type :=
| Returned
| Threw (message : jsstr).

Fixpoint has_duplicate (keys : list jsstr) : bool :=
  match keys with
  | [] => false
  | k :: keys' => set_has keys' k || has_duplicate keys'
  end.

(** [upsert(payload, { onConflict })]: [None] when the payload names a row
    twice. *)
Definition upsert {R : Type} (key : R -> jsstr) (payload : list R) (table : gmap jsstr R)
  : option (gmap jsstr R) :=
  if has_duplicate (map key payload) then None
  else Some (fold_left (fun t r => <[key r := r]> t) payload table).

(** A [Map] in insertion order: [set] on a key that is there keeps its
    place. *)
Fixpoint map_set {V : Type} (k : jsstr) (v : V) (mp : list (jsstr * V)) : list (jsstr * V) :=
  match mp with
  | [] => [(k, v)]
  | (k', v') :: mp' => if str_eqb k' k then (k, v) :: mp' else (k', v') :: map_set k v mp'
  end.

(** What the client answers beyond the rows of the tables. *)
Record client : Type := {
  existingError : bool;     (* the select of the existing services fails *)
  servicesError : jsstr;    (* [servicesError.message], when the upsert is refused *)
  openingError : jsstr      (* [openingError.message], when the upsert is refused *)
}.

Section WithPlatform.
Context {P : Platform}.
Variable urlHostname : jsstr -> option jsstr.
Variable supabase : client.

Definition makeSlugFromName (name : option jsstr) : jsstr :=
  match name with
  | None | Some [] => []
  | Some name =>
    let s := replace_all (Cls (in_range 0x300 0x36F)) [] (normalizeNFD (toLowerCase name)) in
    (* /[^a-z0-9\s-]/g *)
    let s := replace_all
               (Cls (neg (either (in_range 97 122)
                            (either is_digit (either is_space (Z.eqb 45)))))) [] s in
    let s := trim s in
    let s := replace_all (plus space) (js "_") s in
    let s := replace_all (plus (chr 45)) (js "_") s in
    let s := replace_all (plus (chr 95)) (js "_") s in
    replace_all (Alt (Cat Bol (chr 95)) (Cat (chr 95) Eol)) [] s
  end.

(** [coalesce]: the new value when it is not empty, the stored one otherwise *)
Definition coalesce (newVal existingVal : option jsstr) : option jsstr :=
  let newTrimmed := trim <$> newVal in
  if truthy newTrimmed then newTrimmed else existingVal.

Definition betterName (imported existing : option jsstr) (website : jsstr) : bool :=
  isGenericBusinessName urlHostname existing website
  && (scoreBusinessName urlHostname existing website
      <? scoreBusinessName urlHostname imported website).

(** STEP 1: the name in [businesses]. *)
Definition updateBusinessName (data : ImportedBusinessData) (st : store) : store :=
  let websiteForScoring := or_else (website (profile data)) None in
  let newName := trim <$> name (profile data) in
  let existingName := trim <$> mjoin (businesses st) in
  let shouldUpdateName :=
    truthy newName
    && negb (bool_decide (newName = existingName))
    && (negb (truthy existingName)
        || match websiteForScoring with
           | Some w => betterName newName existingName w
           | None => false
           end) in
  if shouldUpdateName then
    {| businesses := (fun _ => newName) <$> businesses st;
       business_profile := business_profile st;
       services_table := services_table st;
       opening_hours := opening_hours st |}
  else st.

(** STEP 1b: the row of [business_profile]. *)
Definition profileData (now : jsstr) (data : ImportedBusinessData)
    (existingProfile : option profile_row) : profile_row :=
  let websiteForScoring := or_else (website (profile data)) None in
  let existingProfileName := or_else (existingProfile ≫= pr_name) None in
  let importedProfileName := or_else (name (profile data)) None in
  let nameToSave :=
    match websiteForScoring, importedProfileName with
    | Some w, Some _ =>
      if negb (truthy existingProfileName) then importedProfileName
      else if betterName importedProfileName existingProfileName w
      then importedProfileName else existingProfileName
    | _, _ => coalesce importedProfileName existingProfileName
    end in
  {| pr_name := nameToSave;
     pr_address := coalesce (address (profile data)) (existingProfile ≫= pr_address);
     pr_phone := coalesce (phone (profile data)) (existingProfile ≫= pr_phone);
     pr_email := coalesce (email (profile data)) (existingProfile ≫= pr_email);
     pr_website_url := coalesce (website (profile data)) (existingProfile ≫= pr_website_url);
     pr_updated_at := now |}.

(** STEP 2: the payload of the services upsert. *)
Definition serviceBaseName (index : nat) (s : ImportedService) : jsstr :=
  if truthy (s_name s) then default [] (s_name s)
  else js "Služba z webu " ++ of_nat (index + 1).

Definition serviceSlug (index : nat) (s : ImportedService) : jsstr :=
  match makeSlugFromName (Some (serviceBaseName index s)) with
  | [] => js "service-" ++ of_nat (index + 1)
  | slug => slug
  end.

(** A row of the payload: [is_bookable] is the stored flag of the row with
    the same slug, [false] when there is none. *)
Definition serviceRow (existingBySlug : gmap jsstr service_row)
    (index : nat) (s : ImportedService) : service_row :=
  let baseName := serviceBaseName index s in
  let slug := serviceSlug index s in
  let preservedIsBookable :=
    match existingBySlug !! slug with
    | Some existingService => sv_is_bookable existingService
    | None => false
    end in
  {| sv_name := baseName; sv_slug := slug;
     sv_description := description s;
     sv_duration_minutes := durationMinutes s;
     sv_price_from := priceFrom s;
     sv_price_to := priceTo s;
     sv_is_active := true;
     sv_is_bookable := preservedIsBookable |}.

Definition rawServices (data : ImportedBusinessData)
    (existingBySlug : gmap jsstr service_row) : list service_row :=
  imap (serviceRow existingBySlug) (services data).

(** Deduplication by slug: the last one wins. *)
Definition servicesPayload (raw : list service_row) : list service_row :=
  map snd (fold_left (fun mp svc => map_set (sv_slug svc) svc mp) raw []).

Definition openingPayload (data : ImportedBusinessData) : list hours_row :=
  map (fun oh => {| h_weekday := weekday oh; h_opens_at := opensAt oh;
                    h_closes_at := closesAt oh |})
      (filter validHour (openingHours data)).

(** STEP 1b: the upsert of the profile row. *)
Definition saveProfile (now : jsstr) (data : ImportedBusinessData)
    (existingProfile : option profile_row) (st : store) : store :=
  {| businesses := businesses st;
     business_profile := Some (profileData now data existingProfile);
     services_table := services_table st;
     opening_hours := opening_hours st |}.

(** The rows the select of STEP 2 returns: [None], for [null], when it
    fails. *)
Definition existingServices (table : gmap jsstr service_row)
  : option (gmap jsstr service_row) :=
  if existingError supabase then None else Some table.

(** The lookup map of STEP 2: the returned rows that have a slug; empty when
    no rows were returned. *)
Definition existingBySlug (existingServices : option (gmap jsstr service_row))
  : gmap jsstr service_row :=
  match existingServices with
  | Some rows => filter (fun kv => negb (str_eqb (fst kv) [])) rows
  | None => ∅
  end.

(** The services table after STEP 2; [None] when the store refuses the
    upsert. *)
Definition servicesAfter (data : ImportedBusinessData) (table : gmap jsstr service_row)
  : option (gmap jsstr service_row) :=
  match services data with
  | [] => Some table
  | _ =>
    upsert sv_slug
      (servicesPayload (rawServices data (existingBySlug (existingServices table)))) table
  end.

(** The opening hours after STEP 3, and how the step ends. *)
Definition hoursAfter (data : ImportedBusinessData) (table : gmap jsstr hours_row)
  : gmap jsstr hours_row * completion :=
  match openingPayload data with
  | [] => (table, Returned)
  | payload =>
    match upsert h_weekday payload table with
    | Some t => (t, Returned)
    | None =>
      (table, Threw (js "Failed to upsert opening hours: " ++ openingError supabase))
    end
  end.

(** STEP 2: the upsert of the services. *)
Definition saveServices (data : ImportedBusinessData) (st : store) : option store :=
  (fun t => {| businesses := businesses st; business_profile := business_profile st;
               services_table := t; opening_hours := opening_hours st |})
  <$> servicesAfter data (services_table st).

(** STEP 3: the upsert of the opening hours. *)
Definition saveOpeningHours (data : ImportedBusinessData) (st : store) : store * completion :=
  let '(t, c) := hoursAfter data (opening_hours st) in
  ({| businesses := businesses st; business_profile := business_profile st;
      services_table := services_table st; opening_hours := t |}, c).

Definition applyImportedBusinessData (now : jsstr) (data : ImportedBusinessData)
    (st : store) : store * completion :=
  let existingProfile := business_profile st in
  let st := updateBusinessName data st in
  let st := saveProfile now data existingProfile st in
  match saveServices data st with
  | None => (st, Threw (js "Failed to upsert services: " ++ servicesError supabase))
  | Some st => saveOpeningHours data st
  end.

End WithPlatform.
End ImportFromWeb.

(** ** Text utilities: [utils/textUtils.js]

    [chunkSize] and [overlap] are integers.  [Math.floor(chunkSize * 0.8)] is
    written [chunkSize * 4 / 5] and [lastSpace > start + chunkSize * 0.5] is
    compared after doubling: for integers (below 2^50) the floating-point
    values are these.

    The loop of [chunkText] is run for at most [fuel] turns, and has no
    result ([None]) when it has not ended by then.  For a chunk size of 1 or
    more it ends within as many turns as the text has code units; for a
    smaller one the loop of the source need not end. *)

Module Text.
Import Regex.

(** [s.split(sep)] for a separator of one code unit *)
Fixpoint split_on (sep : Z) (s : jsstr) : list jsstr :=
  match s with
  | [] => [[]]
  | x :: s' =>
    if x =? sep then [] :: split_on sep s'
    else match split_on sep s' with
         | l :: ls => (x :: l) :: ls
         | [] => [[x]]
         end
  end.

Definition cleanText (text : option jsstr) : jsstr :=
  match text with
  | None | Some [] => []
  | Some text =>
    let s := replace_all (lit [13; 10]) LF text in
    let s := replace_all (chr 13) LF s in
    (* /\n{3,}/g *)
    let s := replace_all (Cat (times 3 (chr 10)) (star (chr 10))) (LF ++ LF) s in
    (* /[ \t]+/g *)
    let s := replace_all (plus (Cls (any_of [32; 9]))) (js " ") s in
    trim (join LF (map trim (split_on 10 s)))
  end.

(** [s.substring(a, b)] *)
Definition substring (s : jsstr) (a b : Z) : jsstr :=
  let len := Z.of_nat (length s) in
  let a := Z.min (Z.max a 0) len in
  let b := Z.min (Z.max b 0) len in
  slice s (Z.to_nat (Z.min a b)) (Z.to_nat (Z.max a b)).

(** [s.lastIndexOf(c, from)] for one code unit [c]: the scan from the start,
    [i] the index of the head of [s], [found] the last index found. *)
Fixpoint lastIndexOf_from (c : Z) (s : jsstr) (i from found : Z) : Z :=
  match s with
  | [] => found
  | x :: s' =>
    if i <=? from then lastIndexOf_from c s' (i + 1) from (if x =? c then i else found)
    else found
  end.

Definition lastIndexOf (s : jsstr) (c : Z) (from : Z) : Z :=
  lastIndexOf_from c s 0 (Z.max from 0) (-1).

(** [/[.!?]\s+[A-ZÁČĎÉĚÍŇÓŘŠŤÚŮÝŽ]/] *)
Definition sentence_boundary : re :=
  cats [ Cls (any_of (js ".!?")); plus space;
         Cls (either (in_range 65 90) (any_of (js "ÁČĎÉĚÍŇÓŘŠŤÚŮÝŽ"))) ].

(** Where the chunk that starts at [start] ends. *)
Definition chunk_end (cleanedText : jsstr) (chunkSize start : Z) : Z :=
  let len := Z.of_nat (length cleanedText) in
  let end_ := Z.min (start + chunkSize) len in
  if end_ <? len then
    let searchStart := Z.max (start + chunkSize * 4 / 5) start in
    let searchText := substring cleanedText searchStart end_ in
    match search sentence_boundary [] searchText with
    | Some sentenceMatch => searchStart + Z.of_nat (index sentenceMatch) + 1
    | None =>
      let lastSpace := lastIndexOf cleanedText 32 end_ in
      if 2 * start + chunkSize <? 2 * lastSpace then lastSpace else end_
    end
  else end_.

(** The [while] loop, for at most [fuel] turns of its body: [None] when the
    loop has not ended by then. *)
Fixpoint chunk_loop (fuel : nat) (cleanedText : jsstr) (chunkSize overlap : Z)
    (start : Z) (chunks : list jsstr) : option (list jsstr) :=
  if start <? Z.of_nat (length cleanedText) then
    match fuel with
    | O => None
    | S fuel' =>
      let end_ := chunk_end cleanedText chunkSize start in
      let chunk := trim (substring cleanedText start end_) in
      let chunks := match chunk with [] => chunks | _ :: _ => chunks ++ [chunk] end in
      let nextStart := end_ - overlap in
      let start := if nextStart <=? start then end_ else nextStart in
      if (length cleanedText <? length chunks)%nat then Some chunks
      else chunk_loop fuel' cleanedText chunkSize overlap start chunks
    end
  else Some chunks.

Definition chunkTextWithin (fuel : nat) (text : option jsstr) (chunkSize overlap : Z)
  : option (list jsstr) :=
  match text with
  | None | Some [] => Some []
  | Some text =>
    let cleanedText := trim text in
    match cleanedText with
    | [] => Some []
    | _ :: _ =>
      if Z.of_nat (length cleanedText) <=? chunkSize then Some [cleanedText]
      else chunk_loop fuel cleanedText chunkSize overlap 0 []
    end
  end.

(** The chunks of a text, the loop given as many turns as the trimmed text
    has code units; no chunks stand for a loop that has not ended by
    then. *)
Definition chunkText (text : option jsstr) (chunkSize overlap : Z) : list jsstr :=
  default []
    (chunkTextWithin (length (trim (default [] text))) text chunkSize overlap).

End Text.

(** ** Putting the import together: [crawlBusinessWebsite] of
    [lib/importFromWeb.js], and [mergeContactData] of [lib/extractContact.js]

    The numeric fields of a service are numbers, as the record has them, so
    [Number.isFinite] holds of every one that is not [null]. *)

Module Assembly.
Import Regex RegexI ImportFromWeb.

(** The contact fields of [deterministicContact] and of [extractedData]. *)
Record contact : Type := {
  c_name : option jsstr;
  c_address : option jsstr;
  c_phone : option jsstr;
  c_email : option jsstr
}.

Definition mergeContactData (deterministicContact llmExtracted : contact) : contact :=
  {| c_name := or_else (c_name llmExtracted) None;
     c_address := or_else (or_else (c_address deterministicContact) (c_address llmExtracted)) None;
     c_phone := or_else (or_else (c_phone deterministicContact) (c_phone llmExtracted)) None;
     c_email := or_else (or_else (c_email deterministicContact) (c_email llmExtracted)) None |}.

(** The address, phone and email of [importedData.profile]. *)
Definition finalContact (deterministicContact extractedData : contact)
    (preExtractedPhone : option jsstr) : contact :=
  let finalPhone := or_else (or_else preExtractedPhone (c_phone extractedData)) None in
  let mergedContact :=
    mergeContactData deterministicContact
      {| c_name := c_name extractedData; c_address := c_address extractedData;
         c_phone := c_phone extractedData; c_email := c_email extractedData |} in
  let finalPhoneMerged := or_else (c_phone mergedContact) finalPhone in
  let finalEmail := or_else (or_else (c_email mergedContact) (c_email extractedData)) None in
  let finalAddress :=
    or_else (or_else (c_address mergedContact) (c_address extractedData)) None in
  let finalAddress :=
    match c_address deterministicContact, c_address extractedData with
    | Some d, Some e =>
      if truthy (Some d) && truthy (Some e)
         && (length e <? 20)%nat && (length e <? length d)%nat
      then Some d else finalAddress
    | _, _ => finalAddress
    end in
  {| c_name := c_name mergedContact; c_address := finalAddress;
     c_phone := finalPhoneMerged; c_email := finalEmail |}.

Section WithPlatform.
Context {P : Platform}.

Definition normalizeServiceNameForComparison (name : option jsstr) : jsstr :=
  match name with
  | None | Some [] => []
  | Some name =>
    let s := replace_all (Cls (in_range 0x300 0x36F)) [] (normalizeNFD (toLowerCase name)) in
    let s := trim (replace_all (plus space) (js " ") s) in
    (* /^klasick[ýá]\s+/i *)
    replace_first
      (cats [Bol; ci_lit (js "klasick"); Cls (ci_cls (fun _ => false) (js "ýá")); plus space])
      [] s
  end.

Definition canonicalizeServiceName (name : option jsstr) : jsstr :=
  match name with
  | None | Some [] => []
  | Some name =>
    let s := replace_all (chr 0xA0) (js " ") name in
    let s := trim (replace_all (plus space) (js " ") s) in
    (* /\s*[*†‡]+$/g *)
    let s := replace_all (cats [star space; plus (Cls (any_of (js "*†‡"))); Eol]) [] s in
    (* /\s*[.:,-]+$/g *)
    let s := replace_all (cats [star space; plus (Cls (any_of (js ".:,-"))); Eol]) [] s in
    trim s
  end.

Definition hasNumeric (s : ImportedService) : bool :=
  bool_decide (durationMinutes s <> None)
  || bool_decide (priceFrom s <> None)
  || bool_decide (priceTo s <> None).

(** [existingScore] and [candScore] *)
Definition numericScore (s : ImportedService) : Z :=
  (match durationMinutes s with Some _ => 1 | None => 0 end)
  + (match priceFrom s with Some _ => 1 | None => 0 end)
  + (match priceTo s with Some _ => 1 | None => 0 end).

(** "carry over best fields": the winner after the four assignments. *)
Definition carryOver (winner loser : ImportedService) : ImportedService :=
  {| s_name := s_name winner;
     description :=
       match description winner with
       | None => if truthy (description loser) then description loser else None
       | Some d => Some d
       end;
     durationMinutes :=
       match durationMinutes winner with None => durationMinutes loser | Some d => Some d end;
     priceFrom := match priceFrom winner with None => priceFrom loser | Some p => Some p end;
     priceTo := match priceTo winner with None => priceTo loser | Some p => Some p end;
     isCore := isCore winner |}.

(** One turn of the loop of [cleanServices] over [byName]. *)
Definition cleanService (byName : list (jsstr * ImportedService)) (s : ImportedService)
  : list (jsstr * ImportedService) :=
  let originalName := or_else (s_name s) (Some []) in
  let name := canonicalizeServiceName originalName in
  match name with
  | [] => byName
  | _ :: _ =>
    let candidate :=
      {| s_name := Some name; description := description s;
         durationMinutes := durationMinutes s; priceFrom := priceFrom s;
         priceTo := priceTo s; isCore := hasNumeric s |} in
    if negb (hasNumeric candidate) then byName
    else
      let key := normalizeServiceNameForComparison (Some name) in
      match Locations.map_get key byName with
      | None => Locations.map_set key candidate byName
      | Some existing =>
        let existingScore := numericScore existing in
        let candScore := numericScore candidate in
        let winner := if existingScore <=? candScore then candidate else existing in
        let loser := if existingScore <=? candScore then existing else candidate in
        Locations.map_set key (carryOver winner loser) byName
      end
  end.

Definition cleanServices (services : list ImportedService) : list ImportedService :=
  map snd (fold_left cleanService services []).

End WithPlatform.
End Assembly.

(** ** Scenarios

    Concrete pages, profiles and imports, on which the properties below are
    evaluated. *)

Module Scenarios.
Import ImportFromWeb.

(** A page that names both cities and has one address, next to the word
    for a registered office. *)
Definition two_city_page : jsstr :=
  js "<html><body><h1>Salony Praha a Brno</h1><p>Sídlo společnosti: Dlouhá 12, Praha</p></body></html>".

(** A page of more than 80,000 code units: it names Praha at its start and
    Brno only at its end. *)
Definition long_page : jsstr :=
  js "<p>Salon Praha</p>" ++ List.repeat 35 (Z.to_nat 79990) ++ js "<p>Salon Brno</p>".

(** A profile address with a price in it. *)
Definition junk_profile_address : jsstr := js "Národní 28, Praha 1 (ceny od 300 kč)".

Definition site_hostname (url : jsstr) : option jsstr := Some (js "www.salon-petra.cz").

(** A stored profile with one bookable service and Monday hours. *)
Definition stored_service : service_row :=
  {| sv_name := js "Pánský střih"; sv_slug := js "pansky_strih";
     sv_description := Some (js "Klasický střih nůžkami");
     sv_duration_minutes := Some 30; sv_price_from := Some 300; sv_price_to := None;
     sv_is_active := true; sv_is_bookable := true |}.

Definition stored_row : profile_row :=
  {| pr_name := Some (js "Salon Petra");
     pr_address := Some (js "Národní 28, Praha 1");
     pr_phone := Some (js "+420608744774");
     pr_email := Some (js "info@salon-petra.cz");
     pr_website_url := Some (js "https://www.salon-petra.cz");
     pr_updated_at := js "2025-01-01T08:00:00.000Z" |}.

Definition stored : store :=
  {| businesses := Some (Some (js "Salon Petra"));
     business_profile := Some stored_row;
     services_table := {[ js "pansky_strih" := stored_service ]};
     opening_hours :=
       {[ js "mon" := {| h_weekday := js "mon"; h_opens_at := Some (js "09:00");
                         h_closes_at := Some (js "17:00") |} ]} |}.

(** A crawl that saw less than the one before: no contact details, and the
    service without its description and duration. *)
Definition recrawled_service : ImportedService :=
  {| s_name := Some (js "Pánský střih"); description := None; durationMinutes := None;
     priceFrom := Some 350; priceTo := None; isCore := true |}.

Definition partial_import : ImportedBusinessData :=
  {| profile := {| name := None; address := None; phone := Some (js "");
                   email := Some (js "  "); website := None |};
     services := [recrawled_service];
     openingHours := [] |}.

(** The same service, crawled again with another description. *)
Definition redescribed_service : ImportedService :=
  {| s_name := Some (js "Pánský střih"); description := Some (js "Střih strojkem i nůžkami");
     durationMinutes := Some 45; priceFrom := Some 350; priceTo := None; isCore := true |}.

Definition second_import : ImportedBusinessData :=
  {| profile := {| name := Some (js "Salon Petra"); address := None; phone := None;
                   email := None; website := Some (js "https://www.salon-petra.cz") |};
     services := [redescribed_service];
     openingHours := [] |}.

(** Monday hours from structured data, and other Monday hours read off the
    text of the site. *)
Definition structured_hours : gmap jsstr hours_entry :=
  {[ js "mon" := {| opens := Some (js "09:00"); closes := Some (js "17:00") |} ]}.

Definition heuristic_hours : gmap jsstr hours_entry :=
  {[ js "mon" := {| opens := Some (js "08:00"); closes := Some (js "20:00") |} ]}.

(** A small site: the home page links to "O nás" and to "Kontakt". *)
Definition home : jsstr := js "https://a.cz/".
Definition about : jsstr := js "https://a.cz/o-nas".
Definition contact : jsstr := js "https://a.cz/kontakt".

Definition plain_page (body : string) : Crawler.rendering :=
  {| Crawler.html := js body; Crawler.cleanedText := js body; Crawler.chunksStored := 1 |}.

Definition small_site (visit : nat) (u : jsstr) : Crawler.outcome :=
  if str_eqb u home then
    Crawler.Indexed (plain_page "Vitejte")
      [ {| Crawler.href := about; Crawler.text := js "O nás" |};
        {| Crawler.href := contact; Crawler.text := js "Kontakt" |} ]
  else Crawler.Indexed (plain_page "Salon") [].

(** The same site on a bad day: the home page times out. *)
Definition flaky_site (visit : nat) (u : jsstr) : Crawler.outcome :=
  if str_eqb u home then Crawler.NavigationFailed
  else Crawler.Indexed (plain_page "Salon") [].

Definition same_url (u : jsstr) : jsstr := u.
Definition no_exclusion (u : jsstr) : bool := false.
Definition no_resolution (forced baseUrl : jsstr) : option jsstr := None.

(** A store that answers the select of the existing services, and one that
    does not. *)
Definition answering : ImportFromWeb.client :=
  {| ImportFromWeb.existingError := false;
     ImportFromWeb.servicesError :=
       js "ON CONFLICT DO UPDATE command cannot affect row a second time";
     ImportFromWeb.openingError :=
       js "ON CONFLICT DO UPDATE command cannot affect row a second time" |}.

Definition failing_select : ImportFromWeb.client :=
  {| ImportFromWeb.existingError := true;
     ImportFromWeb.servicesError :=
       js "ON CONFLICT DO UPDATE command cannot affect row a second time";
     ImportFromWeb.openingError :=
       js "ON CONFLICT DO UPDATE command cannot affect row a second time" |}.

End Scenarios.
Export Scenarios.

(** ** Notions the properties are stated with *)

Module Notions.
Import Regex.

(** [c'] is [c] moved forward over [mv]. *)
Definition reach (c c' : cursor) : Prop :=
  exists mv, snd c = mv ++ snd c' /\ fst c' = rev mv ++ fst c.

(** The rest of the subject, from the cursor on, with every match
    replaced. *)
Definition rest_replaced (r : re) (t : list Z) (pre rest : list Z) : list Z :=
  splice t (rev pre ++ rest) (length pre) (exec_all (S (length rest)) r (pre, rest)).

(** What is left of [s] after its leading code units of class [p]. *)
Fixpoint skip_while (p : Z -> bool) (s : list Z) : list Z :=
  match s with
  | x :: s' => if p x then skip_while p s' else s
  | [] => []
  end.

(** [s] with every maximal run of code units of class [p] replaced by [t];
    [inrun] tells that the code unit before [s] was of the class. *)
Fixpoint squeeze (p : Z -> bool) (t : list Z) (inrun : bool) (s : list Z) : list Z :=
  match s with
  | [] => []
  | x :: s' =>
    if p x then (if inrun then squeeze p t true s' else t ++ squeeze p t true s')
    else x :: squeeze p t false s'
  end.

(** No two neighbours in [s] are both of class [p]. *)
Fixpoint no_pair (p : Z -> bool) (s : list Z) : Prop :=
  match s with
  | x :: s' =>
    match s' with
    | y :: _ => (p x = true -> p y = false) /\ no_pair p s'
    | [] => True
    end
  | [] => True
  end.

(** [s] without a last code unit [u]. *)
Fixpoint strip_last (u : Z) (s : list Z) : list Z :=
  match s with
  | [] => []
  | x :: s' =>
    match s' with
    | [] => if u =? x then [] else [x]
    | _ :: _ => x :: strip_last u s'
    end
  end.

(** [/^u|u$/]: the code unit [u] at either end. *)
Definition edge_unit (u : Z) : re := Alt (Cat Bol (chr u)) (Cat (chr u) Eol).

(** Collapsed whitespace: the whitespace of [s] is single spaces. *)
Definition single_spaced (s : list Z) : Prop :=
  no_pair is_space s /\ Forall (fun c => is_space c = true -> c = 32) s.

(** The code units a phone number keeps: digits and the plus sign. *)
Definition phone_unit (c : Z) : bool := negb (neg (either is_digit (Z.eqb 43)) c).

(** A chunk of [cleanedText]: not empty, trimmed, of at most [chunkSize]
    code units, and a piece of the text. *)
Definition chunk_fits (cleanedText : jsstr) (chunkSize : Z) (chunk : jsstr) : Prop :=
  chunk <> [] /\ trim chunk = chunk /\ Z.of_nat (length chunk) <= chunkSize
  /\ exists a b, cleanedText = a ++ chunk ++ b.

(** The city a location is filed under. *)
Definition city_of {P : Platform} (l : Locations.location) : jsstr :=
  Locations.city_key (Locations.address l).

(** What every turn of the crawl loop keeps. *)
Definition frontier_kept (shouldExclude : jsstr -> bool) (maxDepth : Z)
    (cap : nat) (st : Crawler.state) : Prop :=
  (length (Crawler.queue st) <= Nat.max cap Crawler.maxQueueSize)%nat
  /\ Forall (fun u => shouldExclude u = false) (Crawler.timeline st)
  /\ Forall (fun t => 0 <= Crawler.depth t) (Crawler.queue st)
  /\ Forall (fun p => 0 <= Crawler.page_depth p <= maxDepth) (Crawler.crawledPagesWithContent st)
  /\ NoDup (Crawler.bookingProviders st)
  /\ Forall (fun id => In id (map fst Crawler.BOOKING_PATTERNS)) (Crawler.bookingProviders st)
  /\ Forall (fun p => match Crawler.page_bookingProvider p with
                      | Some id => In id (Crawler.bookingProviders st)
                      | None => True
                      end) (Crawler.crawledPagesWithContent st).

(** What [byName] is at every turn of the loop of [cleanServices]: no key
    twice, and under its key a named, priced service marked core. *)
Definition cleaned_index {P : Platform} (byName : list (jsstr * ImportFromWeb.ImportedService))
  : Prop :=
  NoDup (map fst byName)
  /\ Forall (fun kv =>
               truthy (ImportFromWeb.s_name (snd kv)) = true
               /\ Assembly.hasNumeric (snd kv) = true
               /\ ImportFromWeb.isCore (snd kv) = true
               /\ Assembly.normalizeServiceNameForComparison (ImportFromWeb.s_name (snd kv))
                  = fst kv) byName.




(** Case analysis on the first [match] of a hypothesis. *)
Ltac split_match H :=
  match type of H with
  | context [match ?X with _ => _ end] => destruct X eqn:?
  end.

End Notions.

(** * Properties *)

(** ** Strings, sets and sorting *)

Lemma str_eqb_eq (a b : jsstr) : str_eqb a b = true <-> a = b.
Proof.
  revert b; induction a as [|x a IH]; intros [|y b]; simpl; split; intros H;
    try discriminate; try reflexivity.
  - apply andb_true_iff in H as [Hx Hab]. apply Z.eqb_eq in Hx. apply IH in Hab.
    congruence.
  - injection H as -> ->. rewrite Z.eqb_refl. simpl. apply IH. reflexivity.
Qed.

Lemma str_eqb_refl (a : jsstr) : str_eqb a a = true.
Proof. apply str_eqb_eq. reflexivity. Qed.

Lemma str_eqb_neq (a b : jsstr) : str_eqb a b = false <-> a <> b.
Proof.
  split.
  - intros H Hab. apply str_eqb_eq in Hab. congruence.
  - intros H. destruct (str_eqb a b) eqn:E; [|reflexivity].
    apply str_eqb_eq in E. contradiction.
Qed.

Lemma set_has_In (s : list jsstr) (x : jsstr) : set_has s x = true <-> In x s.
Proof.
  unfold set_has. rewrite existsb_exists. split.
  - intros (y & Hy & E). apply str_eqb_eq in E. subst. exact Hy.
  - intros H. exists x. split; [exact H | apply str_eqb_refl].
Qed.

Lemma set_has_not_In (s : list jsstr) (x : jsstr) : set_has s x = false <-> ~ In x s.
Proof.
  rewrite <- set_has_In. destruct (set_has s x); split; intros H; congruence.
Qed.

Lemma set_add_In (s : list jsstr) (x y : jsstr) : In y (set_add s x) <-> In y s \/ y = x.
Proof.
  unfold set_add. destruct (set_has s x) eqn:E.
  - apply set_has_In in E. split; [tauto | intros [H | ->]; assumption].
  - rewrite in_app_iff. simpl. split; intros [H | H]; auto; try tauto.
    destruct H as [-> | []]. auto.
Qed.

Lemma set_add_NoDup (s : list jsstr) (x : jsstr) : NoDup s -> NoDup (set_add s x).
Proof.
  intros H. unfold set_add. destruct (set_has s x) eqn:E; [exact H |].
  apply set_has_not_In in E. apply NoDup_app; repeat split.
  - exact H.
  - intros y Hy Hx. apply list_elem_of_In in Hy, Hx. destruct Hx as [-> | []].
    contradiction.
  - apply NoDup_singleton.
Qed.

Lemma sort_insert_In {A : Type} (cmp : A -> A -> Z) (x y : A) (l : list A) :
  In y (Sort.insert cmp x l) <-> y = x \/ In y l.
Proof.
  induction l as [|z l IH]; simpl.
  - split; intros [H | H]; auto.
  - destruct (cmp z x <=? 0); simpl; rewrite ?IH; split; intros H;
      repeat destruct H as [H | H]; auto.
Qed.

Lemma sort_In {A : Type} (cmp : A -> A -> Z) (l : list A) (y : A) :
  In y (Sort.sort cmp l) <-> In y l.
Proof.
  unfold Sort.sort.
  assert (G : forall acc, In y (fold_left (fun acc x => Sort.insert cmp x acc) l acc)
                          <-> In y l \/ In y acc).
  { induction l as [|x l IH]; intros acc; simpl.
    - tauto.
    - rewrite IH, sort_insert_In. split; intros H; repeat destruct H as [H | H]; auto. }
  rewrite G. simpl. tauto.
Qed.

(** ** Phone numbers on the scenario *)

(** Scenario 2 of the specification, by evaluation.  The bare nine-digit
    form ["608 744 774"] and the country-code forms of the same number all
    normalise to ["+420608744774"], so the candidate extracted from a text
    that holds the bare form is the value already stored in a profile with
    that phone, and reconciling it leaves the stored phone as it is. *)
Theorem phone_forms_normalize_to_one_e164 :
  Contact.extractPhonesFromText (js "608 744 774") = [js "+420608744774"]
  /\ Contact.extractPhonesFromText (js "Volejte 608 744 774, Praha") = [js "+420608744774"]
  /\ Contact.extractPhonesFromText (js "+420 608 744 774") = [js "+420608744774"]
  /\ Contact.extractPhonesFromText (js "+420608744774") = [js "+420608744774"]
  /\ Contact.normalizePhoneToE164 (Some (js "608 744 774")) = Some (js "+420608744774")
  /\ Contact.normalizePhoneToE164 (Some (js "420 608 744 774")) = Some (js "+420608744774")
  /\ Contact.normalizePhoneToE164 (Some (js "+420608744774")) = Some (js "+420608744774")
  /\ ImportFromWeb.coalesce
       (head (Contact.extractPhonesFromText (js "608 744 774")))
       (Some (js "+420608744774")) = Some (js "+420608744774").
Proof. repeat split; vm_compute; reflexivity. Qed.

(** ** C7: the two-city summary *)

Section AddressProps.
Context {P : Platform}.
Import Contact.

(** C7, as the code has it.  When the text read from the page (the first
    80,000 code units of its HTML, tags removed) names both Praha and Brno
    and none of the address candidates found in it scores 30 or more, the
    address extracted from the page is the summary ["Praha a Brno"]. *)
Theorem multi_city_summary_without_strong_candidate (html : jsstr) :
  html <> [] ->
  mentionsPrahaAndBrno (textOnly html) = true ->
  (forall c, In c (addressCandidates (textOnly html)) -> cand_score c < 30) ->
  dom_address (extractAddressFromDom html) = Some (js "Praha a Brno")
  /\ dom_reason (extractAddressFromDom html) = js "multi_location_summary".
Proof.
  intros Hne Hboth Hweak. unfold extractAddressFromDom.
  destruct html as [|h html']; [contradiction |].
  rewrite Hboth.
  set (sorted := Sort.sort _ _).
  assert (Hpick : match head sorted with
                  | Some c => 30 <=? cand_score c
                  | None => false
                  end = false).
  { destruct sorted as [|c rest] eqn:E; simpl; [reflexivity |].
    apply Z.leb_gt, Hweak. apply (sort_In (fun a b => cand_score b - cand_score a)).
    fold sorted. rewrite E. left. reflexivity. }
  rewrite Hpick. simpl. split; reflexivity.
Qed.

End AddressProps.

(** C7, as stated, fails on a long page.  Only the first 80,000 code units
    of the HTML are read: the page below names both cities and has no address
    candidate, and no address is extracted from it. *)
Lemma city_beyond_the_html_limit_is_not_seen :
  let found := Contact.extractAddressFromDom (P := latin) long_page in
  (includes long_page (js "Praha"), includes long_page (js "Brno"),
   80000 <? Z.of_nat (length long_page),
   Contact.dom_candidates found, Contact.dom_multiLocation found,
   Contact.dom_address found, Contact.dom_reason found)
  = (true, true, true, [], false, None, js "no_confident_candidate").
Proof. vm_compute. reflexivity. Qed.

Lemma multi_city_summary_witness :
  Contact.mentionsPrahaAndBrno (P := latin) (Contact.textOnly two_city_page) = true
  /\ map Contact.cand_address
         (Contact.addressCandidates (P := latin) (Contact.textOnly two_city_page))
     = [js "Dlouhá 12, Praha"]
  /\ Contact.dom_address (Contact.extractAddressFromDom (P := latin) two_city_page)
     = Some (js "Praha a Brno").
Proof.
  split; [vm_compute; reflexivity |].
  split; [vm_compute; reflexivity |].
  apply (multi_city_summary_without_strong_candidate (P := latin) two_city_page).
  - discriminate.
  - vm_compute; reflexivity.
  - intros c Hc. vm_compute in Hc. destruct Hc as [<- | []]. vm_compute. reflexivity.
Defined.

(** ** C10: the base location of the profile address *)

Section LocationProps.
Context {P : Platform}.
Import Locations.

Lemma canonical_fold_keeps_head (base : location) (byCity : list (jsstr * list location))
    (acc : list location) :
  fold_left
    (fun results '(city, locs) =>
       if str_eqb city (js "unknown") then results
       else match Sort.sort compare_candidates locs with
            | best :: _ => results ++ [best]
            | [] => results
            end)
    byCity (base :: acc)
  = base ::
    fold_left
      (fun results '(city, locs) =>
         if str_eqb city (js "unknown") then results
         else match Sort.sort compare_candidates locs with
              | best :: _ => results ++ [best]
              | [] => results
              end)
      byCity acc.
Proof.
  revert acc. induction byCity as [|[city locs] byCity IH]; intros acc; simpl.
  - reflexivity.
  - destruct (str_eqb city (js "unknown")); [apply IH |].
    destruct (Sort.sort compare_candidates locs); [apply IH |].
    rewrite <- IH. reflexivity.
Qed.

(** The base location is the first canonical location. *)
Lemma selectCanonicalPerCity_base_first (base : location) (candidates : list location) :
  head (selectCanonicalPerCity (Some base) candidates) = Some base.
Proof.
  unfold selectCanonicalPerCity. simpl.
  rewrite canonical_fold_keeps_head. reflexivity.
Qed.

(** Attaching booking providers changes neither names nor addresses. *)
Lemma mapBookingProviders_head (locs : list location) (chunks : list chunk)
    (providers : list jsstr) (loc : location) :
  head locs = Some loc ->
  exists loc', head (mapBookingProvidersToLocations locs chunks providers) = Some loc'
               /\ address loc' = address loc /\ name loc' = name loc.
Proof.
  intros H. destruct locs as [|l locs]; [discriminate |]. injection H as ->.
  unfold mapBookingProvidersToLocations.
  destruct providers as [|p providers]; [exists loc; auto |].
  cbv zeta. simpl map.
  match goal with |- context [if ?c then _ else _] => destruct c end;
    eexists; split; try reflexivity; auto.
Qed.

Lemma seed_address (addr : jsstr) (providers : list jsstr) (base : location) :
  seedBaseLocationFromProfile (Some addr) providers = Some base ->
  address base = normalizeAddress addr.
Proof.
  unfold seedBaseLocationFromProfile. destruct addr as [|a addr]; [discriminate |].
  match goal with |- context [if ?c then _ else _] => destruct c end;
    [discriminate |].
  intros H. injection H as <-. reflexivity.
Qed.

Lemma head_In {A : Type} (l : list A) (x : A) : head l = Some x -> In x l.
Proof. destruct l; [discriminate |]. intros H. injection H as ->. left. reflexivity. Qed.

(** Whenever the profile address seeds a base location, that location heads
    the result, whatever the chunks hold. *)
Lemma detectLocations_base_first (chunks : list chunk) (addr : jsstr)
    (providers : list jsstr) (base : location) :
  chunks <> [] ->
  seedBaseLocationFromProfile (Some addr) providers = Some base ->
  exists loc, In loc (detectLocationsFromChunks chunks (Some addr) providers)
              /\ address loc = normalizeAddress addr.
Proof.
  intros Hne Hseed. unfold detectLocationsFromChunks.
  destruct chunks as [|c chunks]; [contradiction |].
  cbv zeta. rewrite Hseed.
  match goal with
  | |- context [selectCanonicalPerCity (Some base) ?cl] =>
    destruct (mapBookingProviders_head (selectCanonicalPerCity (Some base) cl)
                (c :: chunks) providers base
                (selectCanonicalPerCity_base_first base cl)) as (loc' & Hh & Ha & Hn);
    set (final := mapBookingProvidersToLocations (selectCanonicalPerCity (Some base) cl)
                    (c :: chunks) providers) in *
  end.
  destruct final as [|l final]; [discriminate |].
  exists loc'. split.
  - apply head_In. exact Hh.
  - rewrite Ha. apply (seed_address _ _ _ Hseed).
Qed.

End LocationProps.

Lemma junk_profile_address_seeds (providers : list jsstr) :
  Locations.seedBaseLocationFromProfile (P := latin) (Some junk_profile_address) providers
  = Some {| Locations.name := Some (js "Praha");
            Locations.address := junk_profile_address;
            Locations.booking_providers := providers |}.
Proof. vm_compute. reflexivity. Qed.

Lemma junk_profile_address_normal :
  Locations.normalizeAddress junk_profile_address = junk_profile_address.
Proof. vm_compute. reflexivity. Qed.

(** C10.  A profile address with a digit and a city keyword seeds the base
    location even when the filter of the other candidates rejects it: the
    address below holds the junk token ["kč"], [isProbablyAddress] refuses it,
    and for every non-empty list of chunks [detectLocationsFromChunks] returns
    a location with exactly that address. *)
Theorem base_location_bypasses_candidate_filter :
  exists addr : jsstr,
    existsb (fun junk => includes (toLowerCase (Platform := latin) addr) junk)
            Locations.JUNK_TOKENS = true
    /\ Locations.has_digit addr = true
    /\ Locations.containsCityKeyword (P := latin) addr = Some (js "praha")
    /\ Locations.isProbablyAddress (P := latin) addr = false
    /\ Locations.normalizeAndFilterLocations (P := latin)
         [ {| Locations.r_name := None; Locations.r_address := Some addr;
              Locations.r_booking_providers := [] |} ] = []
    /\ forall chunks providers,
         chunks <> [] ->
         exists loc,
           In loc (Locations.detectLocationsFromChunks (P := latin) chunks (Some addr) providers)
           /\ Locations.address loc = addr.
Proof.
  exists junk_profile_address.
  do 5 (split; [vm_compute; reflexivity |]).
  intros chunks providers Hne.
  destruct (detectLocations_base_first (P := latin) chunks junk_profile_address providers _
              Hne (junk_profile_address_seeds providers)) as (loc & Hin & Ha).
  exists loc. split; [exact Hin |].
  rewrite Ha. apply junk_profile_address_normal.
Qed.

Lemma str_eqb_sym (a b : jsstr) : str_eqb a b = str_eqb b a.
Proof.
  destruct (str_eqb a b) eqn:E1, (str_eqb b a) eqn:E2; try reflexivity.
  - apply str_eqb_eq in E1. subst. rewrite str_eqb_refl in E2. discriminate.
  - apply str_eqb_eq in E2. subst. rewrite str_eqb_refl in E1. discriminate.
Qed.

(** ** The record store *)

Section UpsertProps.
Context {R : Type} (key : R -> jsstr).
Import ImportFromWeb.

(** After the rows of a payload are written, a key holds the last row of the
    payload with that key, or what it held before. *)
Lemma put_rows_lookup (payload : list R) (t : gmap jsstr R) (k : jsstr) :
  fold_left (fun t r => <[key r := r]> t) payload t !! k
  = match find (fun r => str_eqb (key r) k) (rev payload) with
    | Some r => Some r
    | None => t !! k
    end.
Proof.
  revert t. induction payload as [|x payload IH] using rev_ind; intros t.
  - reflexivity.
  - rewrite fold_left_app, rev_app_distr. simpl.
    destruct (str_eqb (key x) k) eqn:E.
    + apply str_eqb_eq in E. subst k. apply lookup_insert_eq.
    + apply str_eqb_neq in E. rewrite lookup_insert_ne by exact E. apply IH.
Qed.

Lemma put_rows_idempotent (payload : list R) (t : gmap jsstr R) :
  fold_left (fun t r => <[key r := r]> t) payload
    (fold_left (fun t r => <[key r := r]> t) payload t)
  = fold_left (fun t r => <[key r := r]> t) payload t.
Proof.
  apply map_eq. intros k. rewrite !put_rows_lookup.
  destruct (find _ _); reflexivity.
Qed.

Lemma has_duplicate_NoDup (keys : list jsstr) : NoDup keys -> has_duplicate keys = false.
Proof.
  induction 1 as [|k keys Hk _ IH]; simpl; [reflexivity |].
  rewrite IH, orb_false_r. apply set_has_not_In. rewrite <- list_elem_of_In. exact Hk.
Qed.

Lemma upsert_twice (payload : list R) (t t' : gmap jsstr R) :
  upsert key payload t = Some t' -> upsert key payload t' = Some t'.
Proof.
  unfold upsert. destruct (has_duplicate _); [discriminate |].
  intros H. injection H as <-. rewrite put_rows_idempotent. reflexivity.
Qed.

Lemma upsert_refused (payload : list R) (t t' : gmap jsstr R) :
  upsert key payload t = None -> upsert key payload t' = None.
Proof. unfold upsert. destruct (has_duplicate _); [reflexivity | discriminate]. Qed.

End UpsertProps.

(** ** Deduplication of the services payload *)

Section DedupProps.
Import ImportFromWeb.

Lemma map_set_In {V : Type} (k : jsstr) (v : V) (mp : list (jsstr * V)) (kv : jsstr * V) :
  In kv (map_set k v mp) -> kv = (k, v) \/ In kv mp.
Proof.
  induction mp as [|[k' v'] mp IH]; simpl.
  - intros [<- | []]. left. reflexivity.
  - destruct (str_eqb k' k); simpl; intros [H | H]; auto.
    destruct (IH H); auto.
Qed.

Lemma map_set_keys {V : Type} (k : jsstr) (v : V) (mp : list (jsstr * V)) :
  map fst (map_set k v mp) = set_add (map fst mp) k.
Proof.
  unfold set_add. induction mp as [|[k' v'] mp IH]; simpl.
  - reflexivity.
  - unfold set_has in *. simpl. rewrite (str_eqb_sym k k').
    destruct (str_eqb k' k) eqn:E; simpl.
    + apply str_eqb_eq in E. subst. reflexivity.
    + rewrite IH. destruct (existsb (str_eqb k) (map fst mp)); reflexivity.
Qed.

Lemma map_set_has {V : Type} (k : jsstr) (v : V) (mp : list (jsstr * V)) :
  In (k, v) (map_set k v mp).
Proof.
  induction mp as [|[k' v'] mp IH]; simpl; [auto |].
  destruct (str_eqb k' k); simpl; auto.
Qed.

Lemma map_set_other {V : Type} (k : jsstr) (v : V) (mp : list (jsstr * V)) (k' : jsstr) :
  In k' (map fst mp) -> In k' (map fst (map_set k v mp)).
Proof. rewrite map_set_keys, set_add_In. auto. Qed.

(** The payload has one row per slug, every row is a raw row, and every slug
    of a raw row is there. *)
Lemma servicesPayload_spec (raw : list service_row) :
  NoDup (map sv_slug (servicesPayload raw))
  /\ (forall r, In r (servicesPayload raw) -> In r raw)
  /\ (forall r, In r raw -> In (sv_slug r) (map sv_slug (servicesPayload raw))).
Proof.
  unfold servicesPayload.
  assert (G : forall (mp : list (jsstr * service_row)) (done : list service_row),
             NoDup (map fst mp) ->
             (forall kv, In kv mp -> sv_slug (snd kv) = fst kv /\ In (snd kv) done) ->
             (forall r, In r done -> In (sv_slug r) (map fst mp)) ->
             let mp' := fold_left (fun mp svc => map_set (sv_slug svc) svc mp) raw mp in
             NoDup (map fst mp')
             /\ (forall kv, In kv mp' -> sv_slug (snd kv) = fst kv /\ In (snd kv) (done ++ raw))
             /\ (forall r, In r (done ++ raw) -> In (sv_slug r) (map fst mp'))).
  { induction raw as [|x raw IH]; intros mp done Hnd Hkv Hcov; simpl.
    - rewrite app_nil_r. auto.
    - specialize (IH (map_set (sv_slug x) x mp) (done ++ [x])).
      rewrite <- app_assoc in IH. simpl in IH. apply IH.
      + rewrite map_set_keys. apply set_add_NoDup. exact Hnd.
      + intros kv Hin. apply map_set_In in Hin as [-> | Hin]; simpl.
        * split; [reflexivity |]. apply in_app_iff. right. left. reflexivity.
        * destruct (Hkv kv Hin) as [E Hd]. split; [exact E |].
          apply in_app_iff. left. exact Hd.
      + intros r Hin. apply in_app_iff in Hin as [Hin | [<- | []]].
        * apply map_set_other. apply Hcov. exact Hin.
        * apply (in_map fst _ _ (map_set_has (sv_slug x) x mp)). }
  specialize (G [] [] (NoDup_nil_2) (fun kv (H : In kv []) => match H with end)
                (fun r (H : In r []) => match H with end)).
  simpl in G. destruct G as (Hnd & Hkv & Hcov).
  set (mp' := fold_left _ raw []) in *.
  assert (Hkeys : map sv_slug (map snd mp') = map fst mp').
  { rewrite map_map. apply map_ext_in. intros kv Hin. apply (Hkv kv Hin). }
  rewrite Hkeys. repeat split.
  - exact Hnd.
  - intros r Hin. apply in_map_iff in Hin as (kv & <- & Hin). apply (Hkv kv Hin).
  - exact Hcov.
Qed.

End DedupProps.

(** ** Trimming *)

Lemma trimStart_suffix (s : jsstr) : exists p, s = p ++ trimStart s.
Proof.
  induction s as [|c s [p IH]]; simpl.
  - exists []. reflexivity.
  - destruct (is_space c).
    + exists (c :: p). simpl. rewrite <- IH. reflexivity.
    + exists []. reflexivity.
Qed.

Lemma trimStart_head (s : jsstr) :
  match trimStart s with c :: _ => is_space c = false | [] => True end.
Proof.
  induction s as [|c s IH]; simpl; [exact I |].
  destruct (is_space c) eqn:E; [exact IH | exact E].
Qed.

Lemma trimStart_fixed (s : jsstr) :
  match s with c :: _ => is_space c = false | [] => True end -> trimStart s = s.
Proof. destruct s as [|c s]; simpl; [reflexivity |]. intros ->. reflexivity. Qed.

Lemma trim_idempotent (s : jsstr) : trim (trim s) = trim s.
Proof.
  unfold trim. rewrite <- !rev_alt.
  pose proof (trimStart_head s) as Hs.
  set (t := trimStart s) in *.
  destruct (trimStart_suffix (rev t)) as [p Hp].
  pose proof (trimStart_head (rev t)) as Hu.
  set (u := trimStart (rev t)) in *.
  assert (Ht : t = rev u ++ rev p).
  { rewrite <- rev_app_distr, <- Hp, rev_involutive. reflexivity. }
  assert (E : trimStart (rev u) = rev u).
  { apply trimStart_fixed. destruct (rev u) as [|c r]; [exact I |].
    rewrite Ht in Hs. exact Hs. }
  rewrite E, rev_involutive. rewrite (trimStart_fixed u Hu). reflexivity.
Qed.

(** ** The reconciler *)

Section ReconcilerProps.
Context {P : Platform}.
Variable urlHostname : jsstr -> option jsstr.
Import ImportFromWeb.

Lemma store_eq (a b : store) :
  businesses a = businesses b -> business_profile a = business_profile b ->
  services_table a = services_table b -> opening_hours a = opening_hours b -> a = b.
Proof. destruct a, b; simpl; intros -> -> -> ->; reflexivity. Qed.

Lemma updateBusinessName_frame (data : ImportedBusinessData) (st : store) :
  business_profile (updateBusinessName urlHostname data st) = business_profile st
  /\ services_table (updateBusinessName urlHostname data st) = services_table st
  /\ opening_hours (updateBusinessName urlHostname data st) = opening_hours st.
Proof.
  unfold updateBusinessName. cbv zeta.
  match goal with |- context [if ?c then _ else _] => destruct c end; auto.
Qed.

Lemma updateBusinessName_reads (data : ImportedBusinessData) (st st' : store) :
  businesses st = businesses st' ->
  businesses (updateBusinessName urlHostname data st)
  = businesses (updateBusinessName urlHostname data st').
Proof.
  intros E. unfold updateBusinessName. cbv zeta. rewrite E.
  match goal with |- context [if ?c then _ else _] => destruct c end; simpl; congruence.
Qed.

Lemma truthy_fmap_trim (v : option jsstr) :
  truthy (trim <$> v) = true -> trim <$> (trim <$> v) = trim <$> v.
Proof. destruct v as [s|]; simpl; [| discriminate]. rewrite trim_idempotent. reflexivity. Qed.

Lemma updateBusinessName_businesses (data : ImportedBusinessData) (st : store) :
  businesses (updateBusinessName urlHostname data st) = businesses st
  \/ (truthy (trim <$> name (profile data)) = true
      /\ businesses (updateBusinessName urlHostname data st)
         = (fun _ => trim <$> name (profile data)) <$> businesses st).
Proof.
  unfold updateBusinessName. cbv zeta.
  match goal with |- context [if ?c then _ else _] => destruct c eqn:Hc end.
  - right. apply andb_true_iff in Hc as [Hc _]. apply andb_true_iff in Hc as [Htr _].
    split; [exact Htr | reflexivity].
  - left. reflexivity.
Qed.

Lemma updateBusinessName_same_name (data : ImportedBusinessData) (st : store) :
  truthy (trim <$> name (profile data)) = true ->
  businesses st = Some (trim <$> name (profile data)) ->
  updateBusinessName urlHostname data st = st.
Proof.
  intros Htr Hb. unfold updateBusinessName. cbv zeta. rewrite Hb. simpl mjoin.
  rewrite (truthy_fmap_trim _ Htr).
  rewrite bool_decide_eq_true_2 by reflexivity.
  rewrite andb_false_r. reflexivity.
Qed.

Lemma updateBusinessName_idempotent (data : ImportedBusinessData) (st : store) :
  businesses (updateBusinessName urlHostname data (updateBusinessName urlHostname data st))
  = businesses (updateBusinessName urlHostname data st).
Proof.
  destruct (updateBusinessName_businesses data st) as [E | [Htr E]].
  - apply updateBusinessName_reads. exact E.
  - destruct (businesses st) as [row|] eqn:Hb; simpl in E.
    + rewrite (updateBusinessName_same_name data _ Htr E). reflexivity.
    + destruct (updateBusinessName_businesses data (updateBusinessName urlHostname data st))
        as [E' | [_ E']]; [exact E' |].
      rewrite E', E. reflexivity.
Qed.

Lemma or_else_normal (v : option jsstr) : or_else (or_else v None) None = or_else v None.
Proof. destruct v as [[|c s]|]; reflexivity. Qed.

Lemma or_else_truthy (v : option jsstr) : truthy v = true -> or_else v None = v.
Proof. unfold or_else. intros ->. reflexivity. Qed.

Lemma truthy_or_else (v : option jsstr) : truthy (or_else v None) = truthy v.
Proof. destruct v as [[|c s]|]; reflexivity. Qed.

Lemma coalesce_idempotent (n e : option jsstr) : coalesce n (coalesce n e) = coalesce n e.
Proof. unfold coalesce. destruct (truthy (trim <$> n)); reflexivity. Qed.

Lemma betterName_irreflexive (n : option jsstr) (w : jsstr) :
  betterName urlHostname n n w = false.
Proof. unfold betterName. rewrite Z.ltb_irrefl. apply andb_false_r. Qed.

(** The second upsert of the profile row rewrites the values of the first. *)
Lemma profileData_idempotent (t1 t2 : jsstr) (data : ImportedBusinessData)
    (existing : option profile_row) :
  profileData urlHostname t2 data (Some (profileData urlHostname t1 data existing))
  = profileData urlHostname t2 data existing.
Proof.
  unfold profileData. cbv zeta. simpl mbind. cbn [pr_name pr_address pr_phone pr_email pr_website_url].
  rewrite !coalesce_idempotent.
  f_equal.
  set (w := or_else (website (profile data)) None).
  set (imp := or_else (name (profile data)) None).
  set (e := or_else (existing ≫= pr_name) None).
  assert (Himp : or_else imp None = imp) by apply or_else_normal.
  assert (He : or_else e None = e) by apply or_else_normal.
  destruct w as [w|].
  - destruct imp as [i|] eqn:Ei.
    + destruct (truthy e) eqn:Te; simpl negb; cbv iota.
      * destruct (betterName urlHostname (Some i) e w) eqn:Hb.
        -- rewrite Himp. rewrite <- Himp at 1. rewrite truthy_or_else.
           assert (Ti : truthy (Some i) = true).
           { subst imp. rewrite <- Ei. rewrite truthy_or_else.
             destruct (name (profile data)) as [[|c s]|]; try discriminate; reflexivity. }
           rewrite Ti. simpl negb. cbv iota. rewrite betterName_irreflexive. reflexivity.
        -- rewrite He, Te. simpl negb. cbv iota. rewrite Hb. reflexivity.
      * assert (Ti : truthy (Some i) = true).
        { subst imp. rewrite <- Ei. rewrite truthy_or_else.
          destruct (name (profile data)) as [[|c s]|]; try discriminate; reflexivity. }
        rewrite Himp, Ti. simpl negb. cbv iota. rewrite betterName_irreflexive. reflexivity.
    + unfold coalesce. simpl. rewrite He. reflexivity.
  - unfold coalesce. destruct (truthy (trim <$> imp)) eqn:Ti.
    + reflexivity.
    + rewrite He. reflexivity.
Qed.

End ReconcilerProps.

Section ServicesProps.
Context {P : Platform}.
Variable supabase : ImportFromWeb.client.
Import ImportFromWeb.

Lemma serviceSlug_nonempty (i : nat) (s : ImportedService) : serviceSlug i s <> [].
Proof.
  unfold serviceSlug. destruct (makeSlugFromName _); [| discriminate].
  intros H. apply (f_equal (@length Z)) in H. rewrite length_app in H.
  change (length (js "service-")) with 8%nat in H. simpl in H. lia.
Qed.

Lemma existingBySlug_lookup (table : gmap jsstr service_row) (k : jsstr) :
  k <> [] -> existingBySlug (Some table) !! k = table !! k.
Proof.
  intros Hk. unfold existingBySlug. destruct (table !! k) as [r|] eqn:E.
  - apply map_lookup_filter_Some_2; [exact E |]. simpl.
    rewrite (proj2 (str_eqb_neq k []) Hk). exact I.
  - apply map_lookup_filter_None_2. left. exact E.
Qed.

Lemma rawServices_In (data : ImportedBusinessData) (ebs : gmap jsstr service_row)
    (r : service_row) :
  In r (rawServices data ebs)
  <-> exists i s, services data !! i = Some s /\ r = serviceRow ebs i s.
Proof.
  unfold rawServices. rewrite <- list_elem_of_In, elem_of_lookup_imap.
  split; intros (i & s & H1 & H2); exists i, s; auto.
Qed.

(** After the upsert, the slug of an imported service holds the payload row
    of an imported service with that slug. *)
Lemma services_upsert_lookup (data : ImportedBusinessData) (table : gmap jsstr service_row)
    (i : nat) (s : ImportedService) :
  services data !! i = Some s ->
  exists t,
    servicesAfter supabase data table = Some t
    /\ exists j s', services data !! j = Some s'
                    /\ serviceSlug j s' = serviceSlug i s
                    /\ t !! serviceSlug i s
                       = Some (serviceRow (existingBySlug (existingServices supabase table))
                                 j s').
Proof.
  intros Hi. unfold servicesAfter.
  destruct (services data) as [|s0 rest] eqn:Es; [destruct i; discriminate |].
  rewrite <- Es in *. clear Es s0 rest.
  set (ebs := existingBySlug (existingServices supabase table)).
  destruct (servicesPayload_spec (rawServices data ebs)) as (Hnd & Hsub & Hcov).
  unfold upsert. rewrite (has_duplicate_NoDup _ Hnd).
  eexists. split; [reflexivity |].
  rewrite put_rows_lookup.
  assert (Hraw : In (serviceRow ebs i s) (rawServices data ebs)).
  { apply rawServices_In. exists i, s. auto. }
  apply Hcov in Hraw. apply in_map_iff in Hraw as (r' & Hslug & Hin').
  destruct (find _ _) as [r|] eqn:Ef.
  - apply find_some in Ef as [Hin Hk]. apply str_eqb_eq in Hk.
    apply in_rev in Hin. apply Hsub in Hin. apply rawServices_In in Hin as (j & s' & Hj & ->).
    exists j, s'. repeat split; [exact Hj | exact Hk].
  - exfalso. assert (Hf := find_none _ _ Ef r').
    simpl in Hf. rewrite Hslug in Hf. cbn [sv_slug serviceRow] in Hf.
    rewrite str_eqb_refl in Hf. assert (false = true -> False) by discriminate.
    apply H. symmetry. apply Hf. apply in_rev. rewrite rev_involutive. exact Hin'.
Qed.

Lemma serviceRow_same_flag (ebs ebs' : gmap jsstr service_row) (i : nat) (s : ImportedService) :
  sv_is_bookable <$> ebs !! serviceSlug i s = sv_is_bookable <$> ebs' !! serviceSlug i s
  \/ (ebs !! serviceSlug i s = None
      /\ sv_is_bookable <$> ebs' !! serviceSlug i s = Some false) ->
  serviceRow ebs' i s = serviceRow ebs i s.
Proof.
  unfold serviceRow. cbv zeta. intros [H | [H1 H2]].
  - destruct (ebs !! serviceSlug i s), (ebs' !! serviceSlug i s); simpl in H;
      try discriminate; try reflexivity.
    injection H as ->. reflexivity.
  - rewrite H1. destruct (ebs' !! serviceSlug i s); simpl in H2; [| discriminate].
    injection H2 as ->. reflexivity.
Qed.

(** Services: a second upsert of the same import writes the same rows. *)
Lemma servicesAfter_idempotent (data : ImportedBusinessData)
    (table t : gmap jsstr service_row) :
  servicesAfter supabase data table = Some t -> servicesAfter supabase data t = Some t.
Proof.
  intros H. unfold servicesAfter in *.
  destruct (services data) as [|s0 rest] eqn:Es; [reflexivity |].
  assert (Eraw : rawServices data (existingBySlug (existingServices supabase t))
                 = rawServices data (existingBySlug (existingServices supabase table))).
  { unfold rawServices. apply imap_ext. intros i s Hi.
    apply serviceRow_same_flag.
    destruct (services_upsert_lookup data table i s Hi) as (t' & Ht' & j & s' & Hj & Hslug & Hl).
    unfold servicesAfter in Ht'. rewrite Es in Ht'.
    rewrite H in Ht'. injection Ht' as <-.
    pose proof (serviceSlug_nonempty i s) as Hne.
    unfold existingServices in *. destruct (existingError supabase); [left; reflexivity |].
    rewrite (existingBySlug_lookup t _ Hne), Hl.
    set (ebs := existingBySlug (Some table)) in *. simpl.
    rewrite Hslug.
    destruct (ebs !! serviceSlug i s) eqn:El.
    - left. reflexivity.
    - right. auto. }
  rewrite Eraw. apply (upsert_twice _ _ _ _ H).
Qed.

Lemma servicesAfter_total (data : ImportedBusinessData) (table : gmap jsstr service_row) :
  exists t, servicesAfter supabase data table = Some t.
Proof.
  destruct (services data) as [|s0 rest] eqn:Es.
  - exists table. unfold servicesAfter. rewrite Es. reflexivity.
  - destruct (services_upsert_lookup data table 0 s0) as (t & Ht & _).
    + rewrite Es. reflexivity.
    + exists t. exact Ht.
Qed.

Lemma hoursAfter_idempotent (data : ImportedBusinessData) (table t : gmap jsstr hours_row)
    (c : completion) :
  hoursAfter supabase data table = (t, c) -> hoursAfter supabase data t = (t, c).
Proof.
  unfold hoursAfter. destruct (openingPayload data) as [|h payload] eqn:Ep.
  - intros H. injection H as <- <-. reflexivity.
  - destruct (upsert h_weekday (h :: payload) table) as [t'|] eqn:Eu; intros H;
      injection H as <- <-.
    + rewrite (upsert_twice _ _ _ _ Eu). reflexivity.
    + rewrite Eu. reflexivity.
Qed.

End ServicesProps.

Section ReconcilerTheorems.
Context {P : Platform}.
Variable urlHostname : jsstr -> option jsstr.
Variable supabase : ImportFromWeb.client.
Import ImportFromWeb.

(** What one application writes, table by table. *)
Lemma apply_result (now : jsstr) (data : ImportedBusinessData) (st : store) :
  exists T H c,
    servicesAfter supabase data (services_table st) = Some T
    /\ hoursAfter supabase data (opening_hours st) = (H, c)
    /\ applyImportedBusinessData urlHostname supabase now data st
       = ({| businesses := businesses (updateBusinessName urlHostname data st);
             business_profile :=
               Some (profileData urlHostname now data (business_profile st));
             services_table := T;
             opening_hours := H |}, c).
Proof.
  destruct (servicesAfter_total supabase data (services_table st)) as [T HT].
  destruct (hoursAfter supabase data (opening_hours st)) as [H c] eqn:HH.
  exists T, H, c. split; [exact HT |]. split; [reflexivity |].
  destruct (updateBusinessName_frame urlHostname data st) as (_ & Es & Eh).
  unfold applyImportedBusinessData, saveServices, saveOpeningHours, saveProfile.
  cbv zeta. cbn [services_table opening_hours businesses business_profile].
  rewrite Es, HT. simpl fmap. cbn [services_table opening_hours businesses business_profile].
  rewrite Eh, HH. reflexivity.
Qed.

(** C6.  Reconciliation is idempotent.  Applying the same imported data a
    second time, at any later clock reading [t2], gives exactly the store
    (and the outcome) that one application at [t2] gives; against the store
    left by the first application it changes nothing but the time stamp
    [updated_at] of the profile row. *)
Theorem reconciliation_is_idempotent (t1 t2 : jsstr) (data : ImportedBusinessData)
    (st : store) :
  let once := applyImportedBusinessData urlHostname supabase t1 data st in
  let twice := applyImportedBusinessData urlHostname supabase t2 data (fst once) in
  twice = applyImportedBusinessData urlHostname supabase t2 data st
  /\ snd twice = snd once
  /\ businesses (fst twice) = businesses (fst once)
  /\ services_table (fst twice) = services_table (fst once)
  /\ opening_hours (fst twice) = opening_hours (fst once)
  /\ business_profile (fst twice)
     = (fun row => {| pr_name := pr_name row; pr_address := pr_address row;
                      pr_phone := pr_phone row; pr_email := pr_email row;
                      pr_website_url := pr_website_url row;
                      pr_updated_at := t2 |}) <$> business_profile (fst once).
Proof.
  cbv zeta.
  destruct (apply_result t1 data st) as (T & H & c & HT & HH & E1).
  destruct (apply_result t2 data st) as (T' & H' & c' & HT' & HH' & E2).
  rewrite HT in HT'. injection HT' as <-. rewrite HH in HH'. injection HH' as <- <-.
  rewrite E1. cbn [fst snd].
  set (st1 := {| businesses := _; business_profile := _; services_table := T;
                 opening_hours := H |}).
  destruct (apply_result t2 data st1) as (T2 & H2 & c2 & HT2 & HH2 & E3).
  cbn [services_table opening_hours st1] in HT2, HH2.
  rewrite (servicesAfter_idempotent supabase data _ _ HT) in HT2. injection HT2 as <-.
  rewrite (hoursAfter_idempotent supabase data _ _ _ HH) in HH2. injection HH2 as <- <-.
  assert (Eb : businesses (updateBusinessName urlHostname data st1)
               = businesses (updateBusinessName urlHostname data st)).
  { rewrite <- (updateBusinessName_idempotent urlHostname data st).
    apply updateBusinessName_reads. reflexivity. }
  assert (Ep : profileData urlHostname t2 data (business_profile st1)
               = profileData urlHostname t2 data (business_profile st)).
  { apply profileData_idempotent. }
  rewrite E3, E2, Eb, Ep. cbn [fst snd businesses services_table opening_hours business_profile st1].
  repeat split.
Qed.

(** C9, as the code has it.  When the select of the existing services
    answers, a stored service that is marked bookable keeps the mark when an
    import brings a service with its slug: after the upsert the slug holds
    the row built from an imported service with that slug (its description,
    duration and prices are the imported ones) with [is_bookable] true. *)
Theorem bookable_flag_survives_reimport (now : jsstr) (data : ImportedBusinessData)
    (st : store) (i : nat) (s : ImportedService) (existing : service_row) :
  existingError supabase = false ->
  services data !! i = Some s ->
  services_table st !! serviceSlug i s = Some existing ->
  sv_is_bookable existing = true ->
  exists j s',
    services data !! j = Some s'
    /\ serviceSlug j s' = serviceSlug i s
    /\ services_table (fst (applyImportedBusinessData urlHostname supabase now data st))
         !! serviceSlug i s
       = Some {| sv_name := serviceBaseName j s';
                 sv_slug := serviceSlug i s;
                 sv_description := description s';
                 sv_duration_minutes := durationMinutes s';
                 sv_price_from := priceFrom s';
                 sv_price_to := priceTo s';
                 sv_is_active := true;
                 sv_is_bookable := true |}.
Proof.
  intros Hsel Hi Hex Hb.
  destruct (apply_result now data st) as (T & H & c & HT & _ & E).
  destruct (services_upsert_lookup supabase data (services_table st) i s Hi)
    as (T' & HT' & j & s' & Hj & Hslug & Hl).
  rewrite HT in HT'. injection HT' as <-.
  exists j, s'. split; [exact Hj |]. split; [exact Hslug |].
  rewrite E. cbn [fst services_table]. rewrite Hl. f_equal.
  unfold serviceRow, existingServices. cbv zeta. rewrite Hslug, Hsel.
  rewrite (existingBySlug_lookup _ _ (serviceSlug_nonempty i s)), Hex, Hb. reflexivity.
Qed.

(** C1, as the code has it.  The profile is coalesced: in the profile row a
    stored address, phone, e-mail or website survives an import whose value
    for it is null, empty or blank, and a stored non-empty name survives an
    import without a name; the name in [businesses] is left as it is by an
    import whose name is null, empty or blank. *)
Theorem coalesce_keeps_stored_profile_values (now : jsstr) (data : ImportedBusinessData)
    (st : store) (row : profile_row) :
  business_profile st = Some row ->
  exists row',
    business_profile (fst (applyImportedBusinessData urlHostname supabase now data st)) = Some row'
    /\ (truthy (trim <$> address (profile data)) = false -> pr_address row' = pr_address row)
    /\ (truthy (trim <$> phone (profile data)) = false -> pr_phone row' = pr_phone row)
    /\ (truthy (trim <$> email (profile data)) = false -> pr_email row' = pr_email row)
    /\ (truthy (trim <$> website (profile data)) = false ->
        pr_website_url row' = pr_website_url row)
    /\ (truthy (name (profile data)) = false -> truthy (pr_name row) = true ->
        pr_name row' = pr_name row)
    /\ (truthy (trim <$> name (profile data)) = false ->
        businesses (fst (applyImportedBusinessData urlHostname supabase now data st))
        = businesses st).
Proof.
  intros Hrow.
  destruct (apply_result now data st) as (T & H & c & _ & _ & E).
  rewrite E. cbn [fst business_profile businesses]. rewrite Hrow.
  eexists. split; [reflexivity |].
  unfold profileData. cbv zeta. simpl mbind.
  cbn [pr_name pr_address pr_phone pr_email pr_website_url].
  unfold coalesce.
  split; [intros ->; reflexivity |]. split; [intros ->; reflexivity |].
  split; [intros ->; reflexivity |]. split; [intros ->; reflexivity |].
  split.
  - intros Hn Hr.
    assert (Hi : or_else (name (profile data)) None = None)
      by (unfold or_else; rewrite Hn; reflexivity).
    rewrite Hi, (or_else_truthy _ Hr).
    destruct (or_else (website (profile data)) None); reflexivity.
  - intros Hn. unfold updateBusinessName. cbv zeta. rewrite Hn. reflexivity.
Qed.

End ReconcilerTheorems.

(** ** The reconciler on the scenarios *)

Lemma bookable_flag_survives_reimport_witness :
  ImportFromWeb.services_table stored !! js "pansky_strih" = Some stored_service
  /\ ImportFromWeb.sv_is_bookable stored_service = true
  /\ exists row,
       ImportFromWeb.services_table
         (fst (ImportFromWeb.applyImportedBusinessData (P := latin) site_hostname answering
                 (js "2025-02-01T08:00:00.000Z") second_import stored))
         !! js "pansky_strih" = Some row
       /\ ImportFromWeb.sv_description row = Some (js "Střih strojkem i nůžkami")
       /\ ImportFromWeb.sv_is_bookable row = true.
Proof.
  split; [vm_compute; reflexivity |]. split; [reflexivity |].
  destruct (bookable_flag_survives_reimport (P := latin) site_hostname answering
              (js "2025-02-01T08:00:00.000Z") second_import stored
              0%nat redescribed_service stored_service)
    as (j & s' & Hj & Hslug & Hrow).
  - reflexivity.
  - reflexivity.
  - vm_compute. reflexivity.
  - reflexivity.
  - destruct j as [|j]; [| destruct j; discriminate Hj].
    injection Hj as <-. eexists. split.
    + change (js "pansky_strih")
        with (ImportFromWeb.serviceSlug (P := latin) 0 redescribed_service).
      exact Hrow.
    + split; reflexivity.
Defined.

Lemma coalesce_keeps_stored_profile_values_witness :
  exists row',
    ImportFromWeb.business_profile
      (fst (ImportFromWeb.applyImportedBusinessData (P := latin) site_hostname answering
              (js "2025-02-01T08:00:00.000Z") partial_import stored)) = Some row'
    /\ ImportFromWeb.pr_name row' = Some (js "Salon Petra")
    /\ ImportFromWeb.pr_address row' = Some (js "Národní 28, Praha 1")
    /\ ImportFromWeb.pr_phone row' = Some (js "+420608744774")
    /\ ImportFromWeb.pr_email row' = Some (js "info@salon-petra.cz")
    /\ ImportFromWeb.pr_website_url row' = Some (js "https://www.salon-petra.cz").
Proof.
  destruct (coalesce_keeps_stored_profile_values (P := latin) site_hostname answering
              (js "2025-02-01T08:00:00.000Z") partial_import stored stored_row eq_refl)
    as (row' & E & Ha & Hp & He & Hw & Hn & _).
  exists row'. split; [exact E |].
  rewrite Hn, Ha, Hp, He, Hw by (vm_compute; reflexivity).
  repeat split.
Defined.

(** C9, as stated, fails when the select of the existing services fails: the
    source warns and goes on, the lookup map stays empty, and the upsert
    writes [is_bookable] false over the stored row that was marked
    bookable. *)
Lemma failed_select_clears_bookable_flag :
  ImportFromWeb.sv_is_bookable
    <$> ImportFromWeb.services_table stored !! js "pansky_strih" = Some true
  /\ ImportFromWeb.serviceSlug (P := latin) 0 redescribed_service = js "pansky_strih"
  /\ ImportFromWeb.sv_is_bookable
       <$> ImportFromWeb.services_table
             (fst (ImportFromWeb.applyImportedBusinessData (P := latin) site_hostname
                     failing_select (js "2025-02-01T08:00:00.000Z") second_import stored))
           !! js "pansky_strih"
     = Some false
  /\ snd (ImportFromWeb.applyImportedBusinessData (P := latin) site_hostname
            failing_select (js "2025-02-01T08:00:00.000Z") second_import stored)
     = ImportFromWeb.Returned.
Proof. repeat split; vm_compute; reflexivity. Qed.

(** C1, as stated, fails for the service rows.  The stored service has a
    description and a duration; the crawl that comes without them writes
    [null] over both. *)
Lemma service_fields_are_overwritten_by_null :
  ImportFromWeb.sv_description <$> ImportFromWeb.services_table stored !! js "pansky_strih"
    = Some (Some (js "Klasický střih nůžkami"))
  /\ ImportFromWeb.description recrawled_service = None
  /\ ImportFromWeb.sv_description
       <$> ImportFromWeb.services_table
             (fst (ImportFromWeb.applyImportedBusinessData (P := latin) site_hostname answering
                     (js "2025-02-01T08:00:00.000Z") partial_import stored))
           !! js "pansky_strih"
     = Some None
  /\ ImportFromWeb.sv_duration_minutes
       <$> ImportFromWeb.services_table
             (fst (ImportFromWeb.applyImportedBusinessData (P := latin) site_hostname answering
                     (js "2025-02-01T08:00:00.000Z") partial_import stored))
           !! js "pansky_strih"
     = Some None.
Proof. repeat split; vm_compute; reflexivity. Qed.

(** ** C2: opening hours *)

(** C2, at the input where the code departs from it.  Structured data gives
    Monday 09:00 to 17:00, the text heuristic gives Monday 08:00 to 20:00:
    the hours of the import are those of the heuristic. *)
Theorem heuristic_hours_replace_structured_hours :
  ImportFromWeb.validDays structured_hours = 1%nat
  /\ ImportFromWeb.hoursOf structured_hours
     = [ {| ImportFromWeb.weekday := js "mon"; ImportFromWeb.opensAt := Some (js "09:00");
            ImportFromWeb.closesAt := Some (js "17:00"); ImportFromWeb.closed := false |} ]
  /\ ImportFromWeb.finalOpeningHoursArray None structured_hours (Some heuristic_hours) [] None
     = [ {| ImportFromWeb.weekday := js "mon"; ImportFromWeb.opensAt := Some (js "08:00");
            ImportFromWeb.closesAt := Some (js "20:00"); ImportFromWeb.closed := false |} ].
Proof. repeat split; vm_compute; reflexivity. Qed.

Section HoursProps.
Import ImportFromWeb.

Lemma hoursOf_valid (hours : gmap jsstr hours_entry) : Forall (fun oh => validHour oh = true) (hoursOf hours).
Proof.
  unfold hoursOf. apply Forall_forall. intros oh Hin.
  apply list_elem_of_In, in_flat_map in Hin as ([k v] & _ & Hin).
  destruct (hours !! k) as [h|]; [| destruct Hin].
  destruct (truthy (opens h) && truthy (closes h)) eqn:E; [| destruct Hin].
  destruct Hin as [<- | []]. exact E.
Qed.

(** The text heuristic, when it finds hours, decides the hours of the
    import, whatever structured data and the oracle say. *)
Lemma heuristic_hours_decide (oracle : option (gmap jsstr hours_entry))
    (jsonLdHours h : gmap jsstr hours_entry) (providers : list jsstr)
    (fresha : option (gmap jsstr hours_entry)) :
  hoursOf h <> [] ->
  finalOpeningHoursArray oracle jsonLdHours (Some h) providers fresha = hoursOf h.
Proof.
  intros Hne. unfold finalOpeningHoursArray. cbv zeta.
  destruct (hoursOf h) as [|oh rest] eqn:E; [contradiction |].
  pose proof (hoursOf_valid h) as Hv. rewrite E in Hv.
  apply Forall_cons_1 in Hv as [Hv _].
  cbn [filter]. unfold filter, list_filter. simpl.
  destruct (decide (validHour oh)) as [_ | Hn]; [reflexivity |].
  rewrite Hv in Hn. exfalso. apply Hn. exact I.
Qed.

(** Without the heuristic, structured data comes before the oracle. *)
Lemma structured_hours_before_oracle (oracle : option (gmap jsstr hours_entry))
    (jsonLdHours : gmap jsstr hours_entry) (providers : list jsstr)
    (fresha : option (gmap jsstr hours_entry)) :
  hoursOf jsonLdHours <> [] ->
  finalOpeningHoursArray oracle jsonLdHours None providers fresha = hoursOf jsonLdHours.
Proof.
  intros Hne. unfold finalOpeningHoursArray. cbv zeta.
  assert (Hd : (0 <? validDays jsonLdHours)%nat = true).
  { apply Nat.ltb_lt. unfold validDays.
    destruct (hoursOf jsonLdHours) as [|oh rest] eqn:E; [contradiction |].
    assert (Hin : In oh (hoursOf jsonLdHours)) by (rewrite E; left; reflexivity).
    unfold hoursOf in Hin. apply in_flat_map in Hin as ([k v] & _ & Hin).
    destruct (jsonLdHours !! k) as [e|] eqn:El; [| destruct Hin].
    destruct (truthy (opens e) && truthy (closes e)) eqn:Et; [| destruct Hin].
    assert (Hm : (k, e) ∈ filter (fun kv => truthy (opens (snd kv)) && truthy (closes (snd kv)))
                            (map_to_list jsonLdHours)).
    { apply list_elem_of_filter. split; [simpl; rewrite Et; exact I |].
      apply elem_of_map_to_list. exact El. }
    destruct (filter _ (map_to_list jsonLdHours)); [inversion Hm | simpl; lia]. }
  rewrite Hd.
  destruct (hoursOf jsonLdHours) as [|oh rest] eqn:E; [contradiction |].
  pose proof (hoursOf_valid jsonLdHours) as Hv. rewrite E in Hv.
  apply Forall_cons_1 in Hv as [Hv _].
  unfold filter, list_filter. simpl.
  destruct (decide (validHour oh)) as [_ | Hn]; [reflexivity |].
  rewrite Hv in Hn. exfalso. apply Hn. exact I.
Qed.

End HoursProps.

Section HoursStoreProps.
Context {P : Platform}.
Variable urlHostname : jsstr -> option jsstr.
Variable supabase : ImportFromWeb.client.
Import ImportFromWeb.

(** A weekday row is written only with both times, and an import without a
    complete day leaves the stored hours as they are. *)
Theorem hours_written_only_when_complete (now : jsstr) (data : ImportedBusinessData)
    (st : store) :
  (forall k row,
      opening_hours (fst (applyImportedBusinessData urlHostname supabase now data st)) !! k = Some row ->
      opening_hours st !! k = Some row
      \/ (truthy (h_opens_at row) = true /\ truthy (h_closes_at row) = true))
  /\ (filter validHour (openingHours data) = [] ->
      opening_hours (fst (applyImportedBusinessData urlHostname supabase now data st))
      = opening_hours st).
Proof.
  destruct (apply_result urlHostname supabase now data st) as (T & H & c & _ & HH & E).
  rewrite E. cbn [fst opening_hours]. unfold hoursAfter, openingPayload in HH.
  split.
  - intros k row Hl.
    destruct (map _ (filter validHour (openingHours data))) as [|h payload] eqn:Ep.
    + injection HH as <- <-. left. exact Hl.
    + remember (h :: payload) as pl eqn:Epl in HH.
      unfold upsert in HH. destruct (has_duplicate _).
      * injection HH as <- <-. left. exact Hl.
      * injection HH as <- <-. rewrite put_rows_lookup in Hl.
        destruct (find _ _) as [r|] eqn:Ef; [| left; exact Hl].
        injection Hl as ->. apply find_some in Ef as [Hin _].
        apply in_rev in Hin. rewrite Epl, <- Ep in Hin.
        apply in_map_iff in Hin as (oh & <- & Hin).
        apply list_elem_of_In, list_elem_of_filter in Hin as [Hv _].
        right. unfold validHour in Hv. simpl.
        apply Is_true_true, andb_true_iff in Hv. exact Hv.
  - intros Hnone. rewrite Hnone in HH. simpl in HH. injection HH as <- <-. reflexivity.
Qed.

End HoursStoreProps.

(** ** The crawl frontier *)

Section CrawlProps.
Context {P : Platform}.
Variable normalizeUrl : jsstr -> jsstr.
Variable shouldExclude : jsstr -> bool.
Variable resolveUrl : jsstr -> jsstr -> option jsstr.
Variable web : nat -> jsstr -> Crawler.outcome.
Variables maxDepth maxPages : Z.
Import Crawler.

Abbreviation step := (Crawler.step normalizeUrl shouldExclude web maxDepth maxPages).
Abbreviation run := (Crawler.run normalizeUrl shouldExclude web maxDepth maxPages).
Abbreviation initial_state := (Crawler.initial_state normalizeUrl shouldExclude resolveUrl).

(** What a loop that adds links does to the queue and to the seen set: the
    new tasks go to the front (last added first) or to the back, their URLs
    were not seen before and are pairwise distinct. *)
Lemma addLinks_spec (priority : bool) (visited : list jsstr) (depth : Z)
    (links : list jsstr) (q : list task) (sn : list jsstr) (added : Z) :
  exists new : list task,
    addLinks maxDepth priority visited depth links (q, sn, added)
    = (if priority then rev new ++ q else q ++ new,
       fold_left set_add (map url new) sn,
       added + Z.of_nat (length new))
    /\ Forall (fun t => fromPriority t = priority /\ ~ In (url t) sn) new
    /\ NoDup (map url new)
    /\ (added <= maxLinksPerPage -> added + Z.of_nat (length new) <= maxLinksPerPage).
Proof.
  unfold addLinks. revert q sn added.
  induction links as [|l links IH]; intros q sn added.
  - exists []. simpl. rewrite Z.add_0_r. destruct priority; simpl; rewrite ?app_nil_r;
      repeat split; auto using NoDup_nil_2.
  - cbn [fold_left].
    destruct ((length q <? maxQueueSize)%nat && (added <? maxLinksPerPage)
              && (depth + 1 <=? maxDepth)) eqn:Hcap;
      [destruct (negb (set_has visited l) && negb (set_has sn l)) eqn:Hnew |].
    + set (t := {| url := l; depth := depth + 1; fromPriority := priority |}).
      destruct (IH (if priority then t :: q else q ++ [t]) (set_add sn l) (added + 1))
        as (new & E & Hall & Hnd & Hcnt).
      exists (t :: new). rewrite E. split; [| split; [| split]].
      * f_equal; [f_equal |].
        -- destruct priority; simpl; rewrite <- app_assoc; reflexivity.
        -- simpl. lia.
      * constructor.
        -- split; [reflexivity |]. simpl.
           apply andb_true_iff in Hnew as [_ Hs]. apply negb_true_iff in Hs.
           apply set_has_not_In. exact Hs.
        -- eapply Forall_impl; [exact Hall |]. intros a [Ha Hn]. split; [exact Ha |].
           intros Hin. apply Hn. apply set_add_In. left. exact Hin.
      * simpl. apply NoDup_cons. split; [| exact Hnd].
        rewrite list_elem_of_In. intros Hin. apply in_map_iff in Hin as (a & Ea & Hin).
        rewrite Forall_forall in Hall. destruct (Hall a (proj2 (list_elem_of_In _ _) Hin)) as [_ Hn].
        apply Hn. apply set_add_In. right. exact Ea.
      * intros Hle. simpl length.
        apply andb_true_iff in Hcap as [Hcap _]. apply andb_true_iff in Hcap as [_ Hlt].
        apply Z.ltb_lt in Hlt. specialize (Hcnt ltac:(lia)). lia.
    + apply IH.
    + apply IH.
Qed.


Lemma fold_set_add_In (l s : list jsstr) (u : jsstr) :
  In u (fold_left set_add l s) <-> In u s \/ In u l.
Proof.
  revert s. induction l as [|x l IH]; intros s; simpl.
  - tauto.
  - rewrite IH, set_add_In. split; intros H; repeat destruct H as [H | H]; auto.
Qed.

(** One turn of the loop, read off the state before and after it. *)
Lemma step_spec (st st' : state) :
  step st = Some st' ->
  exists t rest newP newN,
    queue st = t :: rest
    /\ pagesCrawled st < maxPages
    /\ dequeued st' = dequeued st ++ [url t]
    /\ queue st' = rev newP ++ rest ++ newN
    /\ seen st' = fold_left set_add (map url newN)
                    (fold_left set_add (map url newP) (seen st))
    /\ Forall (fun t => fromPriority t = true /\ ~ In (url t) (seen st)) newP
    /\ Forall (fun t => fromPriority t = false /\ ~ In (url t) (seen st)
                        /\ ~ In (url t) (map url newP)) newN
    /\ Z.of_nat (length newP) + Z.of_nat (length newN) <= maxLinksPerPage
    /\ ((visited st' = visited st /\ attempts st' = attempts st
         /\ crawledPagesWithContent st' = crawledPagesWithContent st
         /\ pagesCrawled st' = pagesCrawled st /\ failures st' = failures st
         /\ newP = [] /\ newN = [])
        \/ (~ In (normalizeUrl (url t)) (visited st)
            /\ visited st' = visited st ++ [normalizeUrl (url t)]
            /\ attempts st' = attempts st ++ [normalizeUrl (url t)]
            /\ (crawledPagesWithContent st' = crawledPagesWithContent st
                \/ exists p, crawledPagesWithContent st' = crawledPagesWithContent st ++ [p]
                             /\ page_url p = normalizeUrl (url t))
            /\ ((pagesCrawled st' = pagesCrawled st /\ failures st' = failures st + 1
                 /\ newP = [] /\ newN = [])
                \/ (pagesCrawled st' = pagesCrawled st + 1 /\ failures st' = failures st)))).
Proof.
  unfold Crawler.step. destruct (queue st) as [|t rest] eqn:Eq; [discriminate |].
  destruct (pagesCrawled st <? maxPages) eqn:Hbudget; simpl negb; cbv iota;
    [| discriminate].
  apply Z.ltb_lt in Hbudget. cbv zeta.
  destruct (set_has (visited st) (normalizeUrl (url t)) || (maxDepth <? depth t)) eqn:Hskip.
  { intros H. injection H as <-. exists t, rest, [], []. simpl. rewrite app_nil_r.
    repeat split; auto using Forall_nil_2; try (unfold maxLinksPerPage; lia).
    left. repeat split. }
  apply orb_false_iff in Hskip as [Hvis _]. apply set_has_not_In in Hvis.
  assert (Hadd : set_add (visited st) (normalizeUrl (url t))
                 = visited st ++ [normalizeUrl (url t)]).
  { unfold set_add. rewrite (proj2 (set_has_not_In _ _) Hvis). reflexivity. }
  rewrite !Hadd.
  destruct (web (length (attempts st)) (normalizeUrl (url t))) as [| |[h|]|r|r|r links].
  1-6: intros H; cbv beta iota in H; injection H as <-; exists t, rest, [], []; simpl;
    rewrite app_nil_r;
    (do 8 (split; [first [reflexivity | assumption | apply Forall_nil_2
                         | unfold maxLinksPerPage; lia] |]));
    right; (do 3 (split; [first [reflexivity | assumption] |])).
  - split; [left; reflexivity | left; repeat split].
  - split; [left; reflexivity | left; repeat split].
  - split; [left; reflexivity | left; repeat split].
  - split; [left; reflexivity | left; repeat split].
  - split; [right; eexists; split; reflexivity | left; repeat split].
  - split; [right; eexists; split; reflexivity | right; repeat split].
  - destruct ((depth t <? maxDepth) && (pagesCrawled st + 1 <? maxPages)).
    + destruct (classifyLinks shouldExclude (visited st ++ [normalizeUrl (url t)]) links)
        as [priorityLinks normalLinks].
      destruct (addLinks_spec true (visited st ++ [normalizeUrl (url t)]) (depth t)
                  priorityLinks rest (seen st) 0) as (newP & EP & HallP & _ & HcntP).
      rewrite EP.
      destruct (addLinks_spec false (visited st ++ [normalizeUrl (url t)]) (depth t)
                  normalLinks (rev newP ++ rest) (fold_left set_add (map url newP) (seen st))
                  (0 + Z.of_nat (length newP))) as (newN & EN & HallN & _ & HcntN).
      rewrite EN.
      intros H. cbv beta iota in H. injection H as <-. exists t, rest, newP, newN. simpl.
      rewrite <- app_assoc.
      do 5 (split; [first [reflexivity | assumption] |]).
      split; [exact HallP |]. split.
      * eapply Forall_impl; [exact HallN |]. intros a [Ha Hn]. split; [exact Ha |].
        split; intros Hin; apply Hn; apply fold_set_add_In; auto.
      * split.
        -- specialize (HcntP ltac:(unfold maxLinksPerPage; lia)).
           specialize (HcntN HcntP). lia.
        -- right. do 3 (split; [first [reflexivity | assumption] |]).
           split; [right; eexists; split; reflexivity | right; repeat split].
    + intros H. cbv beta iota in H. injection H as <-. exists t, rest, [], []. simpl.
      rewrite app_nil_r.
      do 8 (split; [first [reflexivity | assumption | apply Forall_nil_2
                          | unfold maxLinksPerPage; lia] |]).
      right. do 3 (split; [first [reflexivity | assumption] |]).
      split; [right; eexists; split; reflexivity | right; repeat split].
Qed.


(** *** The state before the loop *)

Lemma enqueue_spec (u : jsstr) (d : Z) (p : bool) (st : state) :
  let st' := enqueue normalizeUrl shouldExclude u d p st in
  (frontier_seen st -> frontier_seen st')
  /\ visited st' = visited st /\ attempts st' = attempts st
  /\ crawledPagesWithContent st' = crawledPagesWithContent st
  /\ pagesCrawled st' = pagesCrawled st /\ failures st' = failures st.
Proof.
  unfold enqueue. destruct u as [|c u]; [cbv zeta; auto 10 |].
  cbv zeta. destruct (set_has (seen st) _); [auto 10 |].
  destruct (shouldExclude _); [auto 10 |].
  simpl. repeat split.
  intros Hf v Hv. unfold timeline in Hv. simpl in Hv.
  rewrite map_app, app_assoc in Hv. apply in_app_iff in Hv as [Hv | Hv].
  - apply set_add_In. left. apply Hf. exact Hv.
  - apply set_add_In. right. destruct Hv as [<- | []]. reflexivity.
Qed.

Lemma initial_state_spec (baseUrl : jsstr) (forcedUrls sitemapUrls : list jsstr) :
  let st := initial_state baseUrl forcedUrls sitemapUrls in
  frontier_seen st
  /\ visited st = [] /\ attempts st = [] /\ crawledPagesWithContent st = []
  /\ pagesCrawled st = 0 /\ failures st = 0.
Proof.
  unfold Crawler.initial_state.
  set (good := fun st : state =>
         frontier_seen st
         /\ visited st = [] /\ attempts st = [] /\ crawledPagesWithContent st = []
         /\ pagesCrawled st = 0 /\ failures st = 0).
  assert (Henq : forall u d p st, good st -> good (enqueue normalizeUrl shouldExclude u d p st)).
  { intros u d p st (Hf & Hv & Ha & Hp & Hc & Hfl).
    destruct (enqueue_spec u d p st) as (Hf' & Hv' & Ha' & Hp' & Hc' & Hfl').
    unfold good. rewrite Hv', Ha', Hp', Hc', Hfl'. auto 10. }
  assert (H0 : good empty_state).
  { unfold good, frontier_seen, timeline. simpl. repeat split. intros u []. }
  assert (Hfold1 : forall (f : state -> jsstr -> state) l st,
             (forall st x, good st -> good (f st x)) -> good st -> good (fold_left f l st)).
  { intros f l. induction l as [|x l IH]; intros st Hf Hg; simpl; [exact Hg |].
    apply IH; [exact Hf |]. apply Hf. exact Hg. }
  cbv zeta. apply Hfold1; [intros; apply Henq; assumption |].
  apply Hfold1.
  - intros st x Hg. destruct (resolveUrl x baseUrl); [apply Henq |]; exact Hg.
  - apply Henq. exact H0.
Qed.

(** *** What a turn of the loop keeps *)

Lemma step_frontier_seen (st st' : state) :
  step st = Some st' -> frontier_seen st ->
  frontier_seen st' /\ (forall u, In u (seen st) -> In u (seen st')).
Proof.
  intros Hs Hf.
  destruct (step_spec st st' Hs)
    as (t & rest & newP & newN & Eq & _ & Ed & Eq' & Es & _ & _ & _).
  assert (Hmono : forall u, In u (seen st) -> In u (seen st')).
  { intros u Hu. rewrite Es. apply fold_set_add_In. left. apply fold_set_add_In. auto. }
  split; [| exact Hmono].
  intros u Hu. unfold timeline in Hu. rewrite Ed, Eq' in Hu.
  rewrite !map_app, map_rev in Hu.
  rewrite !in_app_iff in Hu. rewrite Es.
  destruct Hu as [[Hu | Hu] | [Hu | [Hu | Hu]]].
  - apply fold_set_add_In. left. apply fold_set_add_In. left. apply Hf.
    unfold timeline. apply in_app_iff. auto.
  - destruct Hu as [<- | []]. apply fold_set_add_In. left. apply fold_set_add_In. left.
    apply Hf. unfold timeline. rewrite Eq. apply in_app_iff. right. left. reflexivity.
  - apply in_rev in Hu. apply fold_set_add_In. left. apply fold_set_add_In. auto.
  - apply fold_set_add_In. left. apply fold_set_add_In. left. apply Hf.
    unfold timeline. rewrite Eq. apply in_app_iff. right. right. exact Hu.
  - apply fold_set_add_In. auto.
Qed.

Lemma step_visits_distinct (st st' : state) :
  step st = Some st' -> visits_distinct st -> visits_distinct st'.
Proof.
  intros Hs (Ha & Hnd & Hpd & Hpv).
  destruct (step_spec st st' Hs)
    as (t & rest & newP & newN & _ & _ & _ & _ & _ & _ & _ & _ & Hcase).
  destruct Hcase as [(Ev & Ea & Ep & _) | (Hnew & Ev & Ea & Hp & _)].
  - unfold visits_distinct. rewrite Ev, Ea, Ep. auto.
  - unfold visits_distinct. rewrite Ev, Ea, Ha. split; [reflexivity |].
    assert (Hnd' : NoDup (visited st ++ [normalizeUrl (url t)])).
    { apply NoDup_app. split; [exact Hnd |]. split; [| apply NoDup_singleton].
      intros x Hx Hy. apply list_elem_of_In in Hx, Hy. destruct Hy as [<- | []].
      contradiction. }
    split; [exact Hnd' |].
    destruct Hp as [-> | (p & -> & Eu)].
    + split; [exact Hpd |]. intros u Hu. apply in_app_iff. left. apply Hpv. exact Hu.
    + rewrite map_app. simpl. rewrite Eu. split.
      * apply NoDup_app. split; [exact Hpd |]. split; [| apply NoDup_singleton].
        intros x Hx Hy. apply list_elem_of_In in Hx, Hy. destruct Hy as [<- | []].
        apply Hnew. apply Hpv. exact Hx.
      * intros u Hu. apply in_app_iff in Hu as [Hu | Hu]; apply in_app_iff.
        -- left. apply Hpv. exact Hu.
        -- right. exact Hu.
Qed.

Lemma step_budget_kept (st st' : state) :
  step st = Some st' -> budget_kept maxPages st -> budget_kept maxPages st'.
Proof.
  intros Hs (Hc & Hf & Hn).
  destruct (step_spec st st' Hs)
    as (t & rest & newP & newN & _ & Hlt & _ & _ & _ & _ & _ & _ & Hcase).
  unfold budget_kept.
  destruct Hcase as [(_ & Ea & _ & Ec & Ef & _) | (_ & _ & Ea & _ & Hcount)].
  - rewrite Ea, Ec, Ef. auto.
  - rewrite Ea, length_app. simpl length.
    destruct Hcount as [(Ec & Ef & _) | (Ec & Ef)]; rewrite Ec, Ef; lia.
Qed.

Lemma step_turns_left (st st' : state) :
  step st = Some st' -> turns_left maxPages st' < turns_left maxPages st.
Proof.
  intros Hs.
  destruct (step_spec st st' Hs)
    as (t & rest & newP & newN & Eq & Hlt & _ & Eq' & _ & _ & _ & Hcap & Hcase).
  unfold turns_left. rewrite Eq, Eq'. rewrite !length_app, length_rev. simpl length.
  unfold maxLinksPerPage in *.
  destruct Hcase as [(_ & _ & _ & Ec & _ & -> & ->)
                    | (_ & _ & _ & _ & [(Ec & _ & -> & ->) | (Ec & _)])];
    rewrite Ec; simpl length; lia.
Qed.

(** *** Runs *)

Lemma run_invariant (good : state -> Prop) :
  (forall st st', step st = Some st' -> good st -> good st') ->
  forall n st, good st -> good (run n st).
Proof.
  intros Hstep n. induction n as [|n IH]; intros st Hg; simpl; [exact Hg |].
  destruct (step st) as [st'|] eqn:Es; [| exact Hg].
  apply IH. apply (Hstep st st' Es Hg).
Qed.

(** The loop ends: after at most [turns_left] turns no turn is left. *)
Theorem crawl_terminates (st : state) :
  exists n, (Z.of_nat n <= Z.max 0 (turns_left maxPages st))
            /\ step (run n st) = None.
Proof.
  assert (G : forall k st, turns_left maxPages st < Z.of_nat k ->
                exists n, (n < k)%nat /\ step (run n st) = None).
  { induction k as [|k IH]; intros s Hk.
    - unfold turns_left, maxLinksPerPage in Hk. lia.
    - destruct (step s) as [s'|] eqn:Es.
      + destruct (IH s') as (n & Hn & Hend).
        * pose proof (step_turns_left s s' Es). lia.
        * exists (S n). split; [lia |]. simpl. rewrite Es. exact Hend.
      + exists 0%nat. split; [lia |]. exact Es. }
  destruct (G (S (Z.to_nat (Z.max 0 (turns_left maxPages st)))) st ltac:(lia))
    as (n & Hn & Hend).
  exists n. split; [lia | exact Hend].
Qed.

(** C5.  Within a run no URL is visited twice: the visited set has no
    duplicate, the URLs handed to the browser are exactly its members in the
    order of the visits, and no URL is recorded as a crawled page twice. *)
Theorem no_url_is_visited_twice (baseUrl : jsstr) (forcedUrls sitemapUrls : list jsstr)
    (n : nat) :
  let st := run n (initial_state baseUrl forcedUrls sitemapUrls) in
  NoDup (visited st)
  /\ attempts st = visited st
  /\ NoDup (attempts st)
  /\ NoDup (map page_url (crawledPagesWithContent st)).
Proof.
  cbv zeta.
  destruct (initial_state_spec baseUrl forcedUrls sitemapUrls)
    as (_ & Hv & Ha & Hp & _ & _).
  assert (H0 : visits_distinct (initial_state baseUrl forcedUrls sitemapUrls)).
  { unfold visits_distinct. rewrite Hv, Ha, Hp. simpl.
    repeat split; auto using NoDup_nil_2; try (intros u []). }
  destruct (run_invariant visits_distinct step_visits_distinct n _ H0)
    as (Ea & Hnd & Hpd & _).
  rewrite Ea. auto.
Qed.

(** C3, as the code has it.  The pages counted against the budget never
    exceed [maxPages]; a visit that fails is not counted, so the visits are
    the counted pages plus the failed visits. *)
Theorem counted_pages_within_budget (baseUrl : jsstr) (forcedUrls sitemapUrls : list jsstr)
    (n : nat) :
  let st := run n (initial_state baseUrl forcedUrls sitemapUrls) in
  0 <= pagesCrawled st <= Z.max 0 maxPages
  /\ 0 <= failures st
  /\ Z.of_nat (length (attempts st)) = pagesCrawled st + failures st.
Proof.
  cbv zeta.
  destruct (initial_state_spec baseUrl forcedUrls sitemapUrls)
    as (_ & _ & Ha & _ & Hc & Hf).
  apply (run_invariant (budget_kept maxPages) step_budget_kept).
  unfold budget_kept. rewrite Ha, Hc, Hf. simpl. lia.
Qed.


(** *** The order of the queue *)

Lemma filter_unseen (g : jsstr -> bool) (sn : list jsstr) (us : list jsstr) :
  (forall u, g u = true -> In u sn) ->
  (forall u, In u us -> ~ In u sn) ->
  List.filter g us = [].
Proof.
  intros Hg Hus. induction us as [|u us IH]; simpl; [reflexivity |].
  destruct (g u) eqn:E.
  - exfalso. apply (Hus u); [left; reflexivity | apply Hg; exact E].
  - apply IH. intros v Hv. apply Hus. right. exact Hv.
Qed.

(** A turn of the loop moves the head of the queue to the end of the
    dequeued URLs and puts unseen URLs into the queue: among the URLs seen
    before, the order in which they leave the queue stays as it was. *)
Lemma step_keeps_order (st st' : state) (g : jsstr -> bool) :
  step st = Some st' ->
  (forall u, g u = true -> In u (seen st)) ->
  List.filter g (timeline st') = List.filter g (timeline st).
Proof.
  intros Hs Hg.
  destruct (step_spec st st' Hs)
    as (t & rest & newP & newN & Eq & _ & Ed & Eq' & _ & HP & HN & _).
  unfold timeline. rewrite Ed, Eq, Eq'. rewrite !map_app, !List.filter_app.
  rewrite (filter_unseen g (seen st) (map url (rev newP)) Hg).
  - rewrite (filter_unseen g (seen st) (map url newN) Hg).
    + simpl. rewrite app_nil_r, <- app_assoc. destruct (g (url t)); reflexivity.
    + intros u Hu. apply in_map_iff in Hu as (a & <- & Ha).
      rewrite Forall_forall in HN. apply (HN a). apply list_elem_of_In. exact Ha.
  - intros u Hu. apply in_map_iff in Hu as (a & <- & Ha). apply in_rev in Ha.
    rewrite Forall_forall in HP. apply (HP a). apply list_elem_of_In. exact Ha.
Qed.

Lemma run_keeps_order (g : jsstr -> bool) (k : nat) (st : state) :
  frontier_seen st ->
  (forall u, g u = true -> In u (seen st)) ->
  List.filter g (timeline (run k st)) = List.filter g (timeline st).
Proof.
  revert st. induction k as [|k IH]; intros st Hf Hg; simpl; [reflexivity |].
  destruct (step st) as [st'|] eqn:Es; [| reflexivity].
  destruct (step_frontier_seen st st' Es Hf) as [Hf' Hmono].
  rewrite IH; [| exact Hf' | intros u Hu; apply Hmono, Hg, Hu].
  apply step_keeps_order; assumption.
Qed.

(** In a list whose members picked by [g] start with [p], every [n] picked
    by [g] comes after a [p]. *)
Lemma first_picked_precedes (g : jsstr -> bool) (p n : jsstr) (l r tail : list jsstr) (j : nat) :
  g n = true -> p <> n ->
  List.filter g (l ++ r) = p :: tail ->
  nth_error l j = Some n ->
  exists i, (i < j)%nat /\ nth_error l i = Some p.
Proof.
  intros Hgn Hpn. revert j. induction l as [|x l IH]; intros j Hfl Hj.
  - destruct j; discriminate.
  - simpl in Hfl. destruct (g x) eqn:Egx.
    + injection Hfl as -> _. destruct j as [|j].
      * simpl in Hj. injection Hj as ->. contradiction.
      * exists 0%nat. split; [lia | reflexivity].
    + destruct j as [|j].
      * simpl in Hj. injection Hj as ->. congruence.
      * simpl in Hj. destruct (IH j Hfl Hj) as (i & Hi & Ei).
        exists (S i). split; [lia | exact Ei].
Qed.

(** C4.  Of two links that one turn of the loop puts into the queue, one as
    a priority link and one as a normal link, the priority link leaves the
    queue first: wherever the normal link stands among the dequeued URLs, the
    priority link stands before it. *)
Theorem priority_link_dequeued_first (baseUrl : jsstr) (forcedUrls sitemapUrls : list jsstr)
    (n : nat) (st' : state) (tp tn : task) (k j : nat) :
  let st := run n (initial_state baseUrl forcedUrls sitemapUrls) in
  step st = Some st' ->
  In tp (queue st') -> In tn (queue st') ->
  ~ In (url tp) (seen st) -> ~ In (url tn) (seen st) ->
  fromPriority tp = true -> fromPriority tn = false ->
  nth_error (dequeued (run k st')) j = Some (url tn) ->
  exists i, (i < j)%nat /\ nth_error (dequeued (run k st')) i = Some (url tp).
Proof.
  intros st Hs Hp Hn Hpu Hnu Hpp Hnp Hj.
  assert (Hf : frontier_seen st).
  { apply (run_invariant frontier_seen
             (fun a b Hab Ha => proj1 (step_frontier_seen a b Hab Ha))).
    apply initial_state_spec. }
  destruct (step_frontier_seen st st' Hs Hf) as [Hf' Hmono].
  destruct (step_spec st st' Hs)
    as (t & rest & newP & newN & Eq & _ & Ed & Eq' & Es & HP & HN & _).
  rewrite Forall_forall in HP, HN.
  assert (Hrest : forall a, In a rest -> In (url a) (seen st)).
  { intros a Ha. apply Hf. unfold timeline. rewrite Eq. apply in_app_iff. right.
    right. apply in_map. exact Ha. }
  assert (HpP : In tp newP).
  { rewrite Eq' in Hp. rewrite !in_app_iff in Hp. destruct Hp as [Hp | [Hp | Hp]].
    - apply in_rev in Hp. exact Hp.
    - exfalso. apply Hpu, Hrest, Hp.
    - apply list_elem_of_In, HN in Hp as [Hp _]. congruence. }
  assert (HnN : In tn newN).
  { rewrite Eq' in Hn. rewrite !in_app_iff in Hn. destruct Hn as [Hn | [Hn | Hn]].
    - apply in_rev, list_elem_of_In, HP in Hn as [Hn _]. congruence.
    - exfalso. apply Hnu, Hrest, Hn.
    - exact Hn. }
  assert (Hne : url tp <> url tn).
  { intros E. apply list_elem_of_In, HN in HnN as (_ & _ & Hnot). apply Hnot.
    rewrite <- E. apply in_map. exact HpP. }
  set (g := fun u => str_eqb u (url tp) || str_eqb u (url tn)).
  assert (Hg : forall u, g u = true -> u = url tp \/ u = url tn).
  { intros u Hu. apply orb_true_iff in Hu as [Hu | Hu]; apply str_eqb_eq in Hu; auto. }
  assert (Hgseen : forall u, g u = true -> In u (seen st')).
  { intros u Hu. rewrite Es. apply fold_set_add_In.
    destruct (Hg u Hu) as [-> | ->].
    - left. apply fold_set_add_In. right. apply in_map. exact HpP.
    - right. apply in_map. exact HnN. }
  assert (Hhead : exists tail, List.filter g (timeline st') = url tp :: tail).
  { unfold timeline. rewrite Ed, Eq'. rewrite !map_app, !List.filter_app.
    assert (Hold : forall us, (forall u, In u us -> In u (seen st)) -> List.filter g us = []).
    { intros us Hus. induction us as [|u us IH]; simpl; [reflexivity |].
      destruct (g u) eqn:Egu.
      - exfalso. destruct (Hg u Egu) as [-> | ->]; [apply Hpu | apply Hnu];
          apply Hus; left; reflexivity.
      - apply IH. intros v Hv. apply Hus. right. exact Hv. }
    rewrite (Hold (dequeued st)).
    2: { intros u Hu. apply Hf. unfold timeline. apply in_app_iff. auto. }
    rewrite (Hold [url t]).
    2: { intros u [<- | []]. apply Hf. unfold timeline. rewrite Eq. apply in_app_iff.
         right. left. reflexivity. }
    rewrite (Hold (map url rest)).
    2: { intros u Hu. apply in_map_iff in Hu as (a & <- & Ha). apply Hrest, Ha. }
    simpl.
    destruct (List.filter g (map url (rev newP))) as [|x xs] eqn:Ex.
    - exfalso. assert (Hin : In (url tp) (List.filter g (map url (rev newP)))).
      { apply filter_In. split.
        - apply in_map. apply in_rev. rewrite rev_involutive. exact HpP.
        - unfold g. rewrite str_eqb_refl. reflexivity. }
      rewrite Ex in Hin. destruct Hin.
    - assert (Hin : In x (List.filter g (map url (rev newP)))) by (rewrite Ex; left; reflexivity).
      apply filter_In in Hin as [Hin Hgx].
      destruct (Hg x Hgx) as [-> | ->].
      + eexists. reflexivity.
      + exfalso. apply in_map_iff in Hin as (a & Ea & Ha). apply in_rev in Ha.
        apply list_elem_of_In, HN in HnN as (_ & _ & Hnot). apply Hnot.
        rewrite <- Ea. apply in_map. exact Ha. }
  destruct Hhead as [tail Htail].
  pose proof (run_keeps_order g k st' Hf' Hgseen) as Hkeep.
  rewrite Htail in Hkeep. unfold timeline in Hkeep.
  apply (first_picked_precedes g (url tp) (url tn) _ _ _ j) in Hkeep; auto.
  unfold g. rewrite str_eqb_refl. apply orb_true_r.
Qed.

End CrawlProps.

(** ** The crawl on the scenarios *)

(** C3, as stated, fails: with a budget of one page the home page times
    out, is not counted, and the crawler goes on to the page of the sitemap:
    two URLs are handed to the browser. *)
Lemma failed_visits_exceed_page_budget :
  let st := Crawler.run (P := latin) same_url no_exclusion flaky_site 2 1 2
              (Crawler.initial_state same_url no_exclusion no_resolution home [] [contact]) in
  Crawler.attempts st = [home; contact]
  /\ Crawler.pagesCrawled st = 1
  /\ Crawler.failures st = 1
  /\ Crawler.step (P := latin) same_url no_exclusion flaky_site 2 1 st = None
  /\ 1 < Z.of_nat (length (Crawler.attempts st)).
Proof. repeat split; vm_compute; reflexivity. Qed.

Lemma priority_link_dequeued_first_witness :
  Crawler.dequeued
    (Crawler.run (P := latin) same_url no_exclusion small_site 2 10 3
       (Crawler.initial_state same_url no_exclusion no_resolution home [] []))
  = [home; contact; about]
  /\ exists i, (i < 2)%nat
       /\ nth_error
            (Crawler.dequeued
               (Crawler.run (P := latin) same_url no_exclusion small_site 2 10 3
                  (Crawler.initial_state same_url no_exclusion no_resolution home [] [])))
            i = Some contact.
Proof.
  split; [vm_compute; reflexivity |].
  change (Crawler.run (P := latin) same_url no_exclusion small_site 2 10 3
            (Crawler.initial_state same_url no_exclusion no_resolution home [] []))
    with (Crawler.run (P := latin) same_url no_exclusion small_site 2 10 2
            (Crawler.run (P := latin) same_url no_exclusion small_site 2 10 1
               (Crawler.initial_state same_url no_exclusion no_resolution home [] []))).
  eapply (priority_link_dequeued_first (P := latin) same_url no_exclusion no_resolution
            small_site 2 10 home [] [] 0 _
            {| Crawler.url := contact; Crawler.depth := 1; Crawler.fromPriority := true |}
            {| Crawler.url := about; Crawler.depth := 1; Crawler.fromPriority := false |}
            2 2).
  - vm_compute. reflexivity.
  - vm_compute. left. reflexivity.
  - vm_compute. right. left. reflexivity.
  - vm_compute. intros [H | []]. discriminate H.
  - vm_compute. intros [H | []]. discriminate H.
  - reflexivity.
  - reflexivity.
  - vm_compute. reflexivity.
Defined.

(** * Further properties *)

Import Regex Notions.

(** ** The regular-expression engine *)

Lemma reach_refl (c : cursor) : reach c c.
Proof. exists []. split; reflexivity. Qed.

Lemma reach_trans (a b c : cursor) : reach a b -> reach b c -> reach a c.
Proof.
  intros (m1 & H1 & H1') (m2 & H2 & H2'). exists (m1 ++ m2). split.
  - rewrite H1, H2. rewrite <- app_assoc. reflexivity.
  - rewrite H2', H1', rev_app_distr, <- app_assoc. reflexivity.
Qed.

Lemma reach_remaining (c c' : cursor) : reach c c' -> (remaining c' <= remaining c)%nat.
Proof.
  intros (mv & H & _). unfold remaining. rewrite H, length_app. lia.
Qed.

Lemma reach_same (c c' : cursor) :
  reach c c' -> advanced c c' = false -> c' = c.
Proof.
  intros (mv & H & H') Ha. unfold advanced, remaining in Ha.
  apply Nat.ltb_ge in Ha. rewrite H, length_app in Ha.
  destruct mv as [|x mv]; [| simpl in Ha; lia].
  simpl in H, H'. destruct c, c'. simpl in *. congruence.
Qed.

Lemma m_reach {A : Type} (r : re) :
  forall (k : cursor -> option A) (c : cursor) (a : A),
    m r k c = Some a -> exists c', reach c c' /\ k c' = Some a.
Proof.
  induction r as [|p|r1 IH1 r2 IH2|r1 IH1 r2 IH2|g r IH| | |p|p]; intros k c a H; simpl in H.
  - exists c. split; [apply reach_refl | exact H].
  - destruct c as [pre [|x rest]]; simpl in H; [discriminate |].
    destruct (p x); [| discriminate].
    exists (x :: pre, rest). split; [| exact H]. exists [x]. split; reflexivity.
  - apply IH1 in H as (c1 & R1 & H). apply IH2 in H as (c2 & R2 & H).
    exists c2. split; [eapply reach_trans; eassumption | exact H].
  - destruct (m r1 k c) as [a'|] eqn:E.
    + injection H as ->. apply IH1 in E. exact E.
    + apply IH2 in H. exact H.
  - revert H. generalize (remaining c) as n. intros n. revert c a.
    induction n as [|n IHn]; intros c a H.
    + exists c. split; [apply reach_refl | exact H].
    + assert (Hnext : forall c1 b,
                 (if advanced c c1 then
                    (fix loop (n : nat) (c : cursor) {struct n} : option A :=
                       match n with
                       | O => k c
                       | S n' =>
                         if g then
                           match m r (fun c' => if advanced c c' then loop n' c' else None) c with
                           | Some a => Some a
                           | None => k c
                           end
                         else
                           match k c with
                           | Some a => Some a
                           | None => m r (fun c' => if advanced c c' then loop n' c' else None) c
                           end
                       end) n c1 else None) = Some b ->
                 reach c c1 -> exists c', reach c c' /\ k c' = Some b).
      { intros c1 b Hb R1. destruct (advanced c c1); [| discriminate].
        apply IHn in Hb as (c2 & R2 & Hb). exists c2.
        split; [eapply reach_trans; eassumption | exact Hb]. }
      destruct g.
      * match type of H with
        | match ?X with _ => _ end = _ => destruct X as [a'|] eqn:E
        end.
        -- injection H as ->. apply IH in E as (c1 & R1 & E). eapply Hnext; eassumption.
        -- exists c. split; [apply reach_refl | exact H].
      * destruct (k c) as [a'|] eqn:E.
        -- injection H as ->. exists c. split; [apply reach_refl | exact E].
        -- apply IH in H as (c1 & R1 & H). eapply Hnext; eassumption.
  - destruct (fst c); [| discriminate]. exists c. split; [apply reach_refl | exact H].
  - destruct (snd c); [| discriminate]. exists c. split; [apply reach_refl | exact H].
  - exists c. split; [apply reach_refl |].
    destruct (fst c) as [|x ?]; [exact H |]. destruct (p x); [discriminate | exact H].
  - exists c. split; [apply reach_refl |].
    destruct (snd c) as [|x ?]; [exact H |]. destruct (p x); [discriminate | exact H].
Qed.

Lemma match_at_reach (r : re) (c e : cursor) : match_at r c = Some e -> reach c e.
Proof.
  intros H. unfold match_at in H. destruct (m_reach r Some c e H) as (c' & R & E).
  injection E as ->. exact R.
Qed.

Lemma search_eq (r : re) (pre rest : list Z) :
  search r pre rest =
  match match_at r (pre, rest) with
  | Some e => Some ((pre, rest), e)
  | None => match rest with
            | [] => None
            | x :: rest' => search r (x :: pre) rest'
            end
  end.
Proof. destruct rest; reflexivity. Qed.

Lemma search_spec (r : re) (pre rest : list Z) (s e : cursor) :
  search r pre rest = Some (s, e) ->
  reach (pre, rest) s /\ match_at r s = Some e.
Proof.
  revert pre. induction rest as [|x rest IH]; intros pre H; rewrite search_eq in H.
  - split_match H; [| discriminate H].
    injection H as <- <-. split; [apply reach_refl | assumption].
  - split_match H.
    + injection H as <- <-. split; [apply reach_refl | assumption].
    + apply IH in H as [R H]. split; [| exact H].
      eapply reach_trans; [| exact R]. exists [x]. split; reflexivity.
Qed.

Lemma exec_all_fuel (r : re) (n n' : nat) (c : cursor) :
  (remaining c < n)%nat -> (remaining c < n')%nat -> exec_all n r c = exec_all n' r c.
Proof.
  revert n' c. induction n as [|n IH]; intros n' c Hn Hn'; [lia |].
  destruct n' as [|n']; [lia |]. simpl.
  destruct (search r (fst c) (snd c)) as [[s e]|] eqn:Es; [| reflexivity].
  destruct c as [pre rest]. apply search_spec in Es as [Rs He].
  apply match_at_reach in He. apply reach_remaining in Rs.
  pose proof (reach_remaining _ _ He) as Re. simpl in *.
  f_equal. destruct (advanced s e) eqn:Ea.
  - unfold advanced in Ea. apply Nat.ltb_lt in Ea.
    unfold remaining in *. simpl in *. apply IH; unfold remaining; lia.
  - destruct (snd e) as [|x t] eqn:Ee; [reflexivity |].
    unfold remaining in *. rewrite Ee in Re. simpl in *.
    apply IH; unfold remaining; simpl; lia.
Qed.

Lemma replace_all_rest (r : re) (t s : list Z) : replace_all r t s = rest_replaced r t [] s.
Proof. reflexivity. Qed.

Lemma skipn_rev_app (pre rest : list Z) : skipn (length pre) (rev pre ++ rest) = rest.
Proof.
  rewrite <- (length_rev pre). rewrite skipn_app, Nat.sub_diag, skipn_all. reflexivity.
Qed.

Lemma slice_rev_app (pre mv rest : list Z) :
  slice (rev pre ++ mv ++ rest) (length pre) (length (rev mv ++ pre)) = mv.
Proof.
  unfold slice. rewrite skipn_rev_app, length_app, length_rev.
  replace (length mv + length pre - length pre)%nat with (length mv) by lia.
  rewrite firstn_app, Nat.sub_diag, firstn_all. simpl. apply app_nil_r.
Qed.

(** The shape of a non-empty list of matches. *)
Lemma splice_from (r : re) (t : list Z) (n : nat) (pre mv rest : list Z) :
  (length rest < n)%nat ->
  splice t (rev pre ++ mv ++ rest) (length pre) (exec_all n r (rev mv ++ pre, rest))
  = mv ++ splice t (rev (rev mv ++ pre) ++ rest) (length (rev mv ++ pre))
                 (exec_all n r (rev mv ++ pre, rest)).
Proof.
  intros Hn.
  assert (Es : rev (rev mv ++ pre) ++ rest = rev pre ++ mv ++ rest).
  { rewrite rev_app_distr, rev_involutive, <- app_assoc. reflexivity. }
  rewrite Es.
  destruct n as [|n]; [lia |]. simpl.
  destruct (search r (rev mv ++ pre) rest) as [[s e]|] eqn:E.
  - apply search_spec in E as [(sk & H1 & H2) He]. simpl in H1, H2. simpl.
    set (tail := t ++ _).
    assert (Ei : index (s, e) = length (rev sk ++ rev mv ++ pre)).
    { unfold index. simpl. rewrite H2. reflexivity. }
    rewrite Ei. rewrite H1.
    replace (rev sk ++ rev mv ++ pre) with (rev (mv ++ sk) ++ pre)
      by (rewrite rev_app_distr, <- app_assoc; reflexivity).
    replace (rev pre ++ mv ++ sk ++ snd s) with (rev pre ++ (mv ++ sk) ++ snd s)
      by (rewrite <- !app_assoc; reflexivity).
    rewrite slice_rev_app.
    replace (rev pre ++ (mv ++ sk) ++ snd s) with (rev (rev mv ++ pre) ++ sk ++ snd s)
      by (rewrite rev_app_distr, rev_involutive, <- !app_assoc; reflexivity).
    replace (rev (mv ++ sk) ++ pre) with (rev sk ++ (rev mv ++ pre))
      by (rewrite rev_app_distr, <- app_assoc; reflexivity).
    rewrite slice_rev_app. rewrite <- app_assoc. reflexivity.
  - simpl. rewrite skipn_rev_app.
    replace (rev pre ++ mv ++ rest) with (rev (rev mv ++ pre) ++ rest) by exact Es.
    rewrite skipn_rev_app. reflexivity.
Qed.

Lemma rest_replaced_fuel (r : re) (t : list Z) (n : nat) (pre rest : list Z) :
  (length rest < n)%nat ->
  splice t (rev pre ++ rest) (length pre) (exec_all n r (pre, rest)) = rest_replaced r t pre rest.
Proof.
  intros Hn. unfold rest_replaced. f_equal. apply exec_all_fuel; unfold remaining; simpl; lia.
Qed.

Lemma exec_all_here (r : re) (n : nat) (pre rest : list Z) (e : cursor) :
  match_at r (pre, rest) = Some e ->
  exec_all (S n) r (pre, rest)
  = ((pre, rest), e)
    :: (if advanced (pre, rest) e then exec_all n r e
        else match snd e with
             | [] => []
             | x :: t => exec_all n r (x :: fst e, t)
             end).
Proof. intros Hm. cbn [exec_all fst snd]. rewrite search_eq, Hm. reflexivity. Qed.

Lemma exec_all_skip (r : re) (n : nat) (pre : list Z) (x : Z) (rest : list Z) :
  match_at r (pre, x :: rest) = None ->
  exec_all n r (pre, x :: rest) = exec_all n r (x :: pre, rest).
Proof.
  intros Hm. destruct n as [|n]; [reflexivity |].
  cbn [exec_all fst snd]. rewrite (search_eq r pre (x :: rest)), Hm. reflexivity.
Qed.

(** No match at the cursor: the code unit there is kept. *)
Lemma rest_replaced_skip (r : re) (t : list Z) (pre : list Z) (x : Z) (rest : list Z) :
  match_at r (pre, x :: rest) = None ->
  rest_replaced r t pre (x :: rest) = x :: rest_replaced r t (x :: pre) rest.
Proof.
  intros Hm. unfold rest_replaced at 1. rewrite exec_all_skip by exact Hm.
  pose proof (splice_from r t (S (length (x :: rest))) pre [x] rest) as H.
  cbn [rev app] in H. cbn [app]. rewrite H by (simpl; lia).
  cbn [app]. f_equal. apply (rest_replaced_fuel r t _ (x :: pre) rest). simpl. lia.
Qed.

Lemma rest_replaced_end (r : re) (t : list Z) (pre : list Z) :
  match_at r (pre, []) = None -> rest_replaced r t pre [] = [].
Proof.
  intros Hm. unfold rest_replaced. cbn [exec_all fst snd length].
  rewrite search_eq, Hm. simpl. rewrite app_nil_r, <- (length_rev pre). apply skipn_all.
Qed.

Lemma matched_here (pre mv rest : list Z) :
  matched ((pre, mv ++ rest), (rev mv ++ pre, rest)) = mv.
Proof.
  unfold matched, remaining. cbn [fst snd]. rewrite length_app.
  replace (length mv + length rest - length rest)%nat with (length mv) by lia.
  rewrite firstn_app, Nat.sub_diag, firstn_all. simpl. apply app_nil_r.
Qed.

(** A match that consumes something: the replacement, then the rest after
    the match. *)
Lemma rest_replaced_match (r : re) (t : list Z) (pre rest : list Z) (e : cursor) :
  match_at r (pre, rest) = Some e ->
  advanced (pre, rest) e = true ->
  rest_replaced r t pre rest = t ++ rest_replaced r t (fst e) (snd e).
Proof.
  intros Hm Ha. pose proof (match_at_reach _ _ _ Hm) as (mv & H1 & H2).
  destruct e as [epre erest]. cbn [fst snd] in *. subst epre rest.
  unfold rest_replaced at 1. rewrite (exec_all_here r _ _ _ _ Hm), Ha.
  cbn [splice]. rewrite matched_here. unfold index. cbn [fst snd].
  unfold slice. rewrite Nat.sub_diag, firstn_O. cbn [app]. f_equal.
  replace (length pre + length mv)%nat with (length (rev mv ++ pre))
    by (rewrite length_app, length_rev; lia).
  replace (rev pre ++ mv ++ erest) with (rev (rev mv ++ pre) ++ erest)
    by (rewrite rev_app_distr, rev_involutive, <- app_assoc; reflexivity).
  apply rest_replaced_fuel.
  unfold advanced, remaining in Ha. cbn [fst snd] in Ha. apply Nat.ltb_lt in Ha. exact Ha.
Qed.

(** An empty match: the replacement is inserted and the code unit at the
    cursor is kept. *)
Lemma rest_replaced_empty (r : re) (t : list Z) (pre : list Z) (x : Z) (rest : list Z) (e : cursor) :
  match_at r (pre, x :: rest) = Some e ->
  advanced (pre, x :: rest) e = false ->
  rest_replaced r t pre (x :: rest) = t ++ x :: rest_replaced r t (x :: pre) rest.
Proof.
  intros Hm Ha. pose proof (reach_same _ _ (match_at_reach _ _ _ Hm) Ha) as ->.
  unfold rest_replaced at 1. rewrite (exec_all_here r _ _ _ _ Hm), Ha.
  cbn [splice fst snd].
  unfold matched, remaining, index, slice. cbn [fst snd].
  rewrite !Nat.sub_diag, !firstn_O. cbn [length app]. rewrite Nat.add_0_r. f_equal.
  pose proof (splice_from r t (length (x :: rest)) pre [x] rest) as H.
  cbn [rev app length] in H. rewrite H by lia. reflexivity.
Qed.

Lemma rest_replaced_empty_end (r : re) (t : list Z) (pre : list Z) (e : cursor) :
  match_at r (pre, []) = Some e -> rest_replaced r t pre [] = t.
Proof.
  intros Hm.
  assert (Ha : advanced (pre, []) e = false).
  { unfold advanced, remaining. simpl. apply Nat.ltb_ge. lia. }
  pose proof (reach_same _ _ (match_at_reach _ _ _ Hm) Ha) as ->.
  unfold rest_replaced. rewrite (exec_all_here r _ _ _ _ Hm), Ha.
  cbn [splice fst snd].
  unfold matched, remaining, index, slice. cbn [fst snd].
  rewrite !Nat.sub_diag, !firstn_O. cbn [length app]. rewrite Nat.add_0_r, app_nil_r.
  rewrite <- (length_rev pre), skipn_all. apply app_nil_r.
Qed.

(** ** Patterns of one class *)

Section ClassPatterns.
Variable p : Z -> bool.

Lemma replace_class_from (t pre rest : list Z) :
  rest_replaced (Cls p) t pre rest = flat_map (fun c => if p c then t else [c]) rest.
Proof.
  revert pre. induction rest as [|x rest IH]; intros pre.
  - apply rest_replaced_end. reflexivity.
  - cbn [flat_map]. destruct (p x) eqn:E.
    + rewrite (rest_replaced_match (Cls p) t pre (x :: rest) (x :: pre, rest)).
      * cbn [fst snd]. rewrite IH. reflexivity.
      * unfold match_at. cbn. rewrite E. reflexivity.
      * unfold advanced, remaining. cbn [snd length]. apply Nat.ltb_lt. lia.
    + rewrite rest_replaced_skip.
      * rewrite IH. reflexivity.
      * unfold match_at. cbn. rewrite E. reflexivity.
Qed.

(** [s.replace(/[class]/g, t)] replaces each code unit of the class. *)
Lemma replace_class (t s : list Z) :
  replace_all (Cls p) t s = flat_map (fun c => if p c then t else [c]) s.
Proof. rewrite replace_all_rest. apply replace_class_from. Qed.

Lemma remove_class (s : list Z) :
  replace_all (Cls p) [] s = List.filter (fun c => negb (p c)) s.
Proof.
  rewrite replace_class. induction s as [|x s IH]; [reflexivity |].
  cbn [flat_map List.filter]. destruct (p x); simpl; rewrite IH; reflexivity.
Qed.

Lemma skip_while_length (s : list Z) : (length (skip_while p s) <= length s)%nat.
Proof.
  induction s as [|x s IH]; simpl; [lia |]. destruct (p x); simpl; lia.
Qed.

Lemma rep_class_cons {A : Type} (k : cursor -> option A) (pre : list Z) (x : Z) (rest : list Z) :
  m (Rep true (Cls p)) k (pre, x :: rest)
  = if p x then
      match m (Rep true (Cls p)) k (x :: pre, rest) with
      | Some a => Some a
      | None => k (pre, x :: rest)
      end
    else k (pre, x :: rest).
Proof.
  change (m (Rep true (Cls p)) k (pre, x :: rest))
    with (match (if p x then
                   (if advanced (pre, x :: rest) (x :: pre, rest)
                    then m (Rep true (Cls p)) k (x :: pre, rest) else None)
                 else None) with
          | Some a => Some a
          | None => k (pre, x :: rest)
          end).
  assert (Ha : advanced (pre, x :: rest) (x :: pre, rest) = true).
  { unfold advanced, remaining. cbn [snd length]. apply Nat.ltb_lt. lia. }
  rewrite Ha. destruct (p x); reflexivity.
Qed.

Lemma rep_class_run (pre rest : list Z) :
  exists pre', m (Rep true (Cls p)) Some (pre, rest) = Some (pre', skip_while p rest).
Proof.
  revert pre. induction rest as [|x rest IH]; intros pre.
  - exists pre. reflexivity.
  - rewrite rep_class_cons. cbn [skip_while]. destruct (p x).
    + destruct (IH (x :: pre)) as (pre' & ->). exists pre'. reflexivity.
    + exists pre. reflexivity.
Qed.

Lemma plus_class_at (pre : list Z) (x : Z) (rest : list Z) :
  p x = true ->
  exists pre', match_at (plus (Cls p)) (pre, x :: rest) = Some (pre', skip_while p rest).
Proof.
  intros Hp. destruct (rep_class_run (x :: pre) rest) as (pre' & E). exists pre'.
  unfold match_at, plus. cbn [m snd fst]. rewrite Hp. exact E.
Qed.

Lemma plus_class_not_at (pre : list Z) (x : Z) (rest : list Z) :
  p x = false -> match_at (plus (Cls p)) (pre, x :: rest) = None.
Proof. intros Hp. unfold match_at, plus. cbn [m snd fst]. rewrite Hp. reflexivity. Qed.

Lemma squeeze_in_run (t s : list Z) :
  squeeze p t true s = squeeze p t false (skip_while p s).
Proof.
  induction s as [|x s IH]; [reflexivity |]. simpl. destruct (p x) eqn:E.
  - exact IH.
  - simpl. rewrite E. reflexivity.
Qed.

Lemma replace_runs_from (t : list Z) (n : nat) :
  forall pre rest, (length rest <= n)%nat ->
    rest_replaced (plus (Cls p)) t pre rest = squeeze p t false rest.
Proof.
  induction n as [|n IH]; intros pre rest Hn.
  - destruct rest; [| simpl in Hn; lia]. apply rest_replaced_end. reflexivity.
  - destruct rest as [|x rest]; [apply rest_replaced_end; reflexivity |].
    cbn [squeeze]. destruct (p x) eqn:E.
    + destruct (plus_class_at pre x rest E) as (pre' & Hm).
      pose proof (skip_while_length rest) as Hl. simpl in Hn.
      rewrite (rest_replaced_match _ t pre (x :: rest) _ Hm).
      * cbn [fst snd]. rewrite IH by lia. rewrite squeeze_in_run. reflexivity.
      * unfold advanced, remaining. cbn [snd length]. apply Nat.ltb_lt. lia.
    + rewrite rest_replaced_skip by (apply plus_class_not_at; exact E).
      simpl in Hn. rewrite IH by lia. reflexivity.
Qed.

(** [s.replace(/[class]+/g, t)] replaces each maximal run of the class. *)
Lemma replace_runs (t s : list Z) :
  replace_all (plus (Cls p)) t s = squeeze p t false s.
Proof. rewrite replace_all_rest. apply (replace_runs_from t (length s)). lia. Qed.

End ClassPatterns.

(** ** Phone numbers *)

Section PhoneProps.
Import Contact.

Lemma kept_spec (c : Z) : phone_unit c = true <-> is_digit c = true \/ c = 43.
Proof.
  unfold phone_unit, neg, either. rewrite negb_involutive, orb_true_iff, Z.eqb_eq.
  split; intros [H | H]; auto.
Qed.

Lemma cleaned_kept (phone : jsstr) :
  Forall (fun c => is_digit c = true \/ c = 43)
         (replace_all (Cls (neg (either is_digit (Z.eqb 43)))) [] phone).
Proof.
  rewrite remove_class. apply Forall_forall. intros c Hc.
  apply list_elem_of_In, filter_In in Hc as [_ Hc]. apply kept_spec. exact Hc.
Qed.

Lemma cleaned_fixed (q : jsstr) :
  Forall (fun c => is_digit c = true \/ c = 43) q ->
  replace_all (Cls (neg (either is_digit (Z.eqb 43)))) [] q = q.
Proof.
  intros Hq. rewrite remove_class. induction Hq as [|c q Hc Hq IH]; [reflexivity |].
  cbn [List.filter]. apply kept_spec in Hc. unfold phone_unit in Hc. rewrite Hc, IH. reflexivity.
Qed.

Lemma normalize_shape (phone : option jsstr) (q : jsstr) :
  normalizePhoneToE164 phone = Some q ->
  startsWith q (js "+") = true
  /\ Forall (fun c => is_digit c = true \/ c = 43) q
  /\ (10 <= length q <= 15)%nat.
Proof.
  unfold normalizePhoneToE164. destruct phone as [[|c0 l]|]; try discriminate.
  change (js "+420") with [43; 52; 50; 48]. change (js "420") with [52; 50; 48].
  change (js "+") with [43].
  pose proof (cleaned_kept (c0 :: l)) as Hk.
  set (cleaned := replace_all _ [] (c0 :: l)) in *. clearbody cleaned.
  destruct (startsWith cleaned [43]) eqn:Eplus.
  - destruct (startsWith cleaned [43; 52; 50; 48] && (length cleaned =? 13)%nat) eqn:E13.
    + intros [= <-]. apply andb_true_iff in E13 as [_ E13]. apply Nat.eqb_eq in E13.
      repeat split; [exact Eplus | exact Hk | lia | lia].
    + destruct ((10 <=? length cleaned)%nat && (length cleaned <=? 15)%nat) eqn:El;
        [| discriminate].
      intros [= <-]. apply andb_true_iff in El as [El1 El2].
      apply Nat.leb_le in El1, El2. repeat split; [exact Eplus | exact Hk | lia | lia].
  - destruct (startsWith cleaned [52; 50; 48]).
    + destruct (length ([43%Z] ++ cleaned) =? 13)%nat eqn:E13; [| discriminate].
      intros [= <-]. apply Nat.eqb_eq in E13. cbn [app length] in *.
      split; [destruct cleaned; reflexivity |]. split; [| lia].
      constructor; [right; reflexivity | exact Hk].
    + destruct (length cleaned =? 9)%nat eqn:E9; [| discriminate].
      intros [= <-]. apply Nat.eqb_eq in E9. cbn [app length] in *.
      split; [reflexivity |]. split; [| lia].
      repeat (constructor; [first [right; reflexivity | left; reflexivity] |]). exact Hk.
Qed.

Lemma normalize_fixed (phone : option jsstr) (q : jsstr) :
  normalizePhoneToE164 phone = Some q -> normalizePhoneToE164 (Some q) = Some q.
Proof.
  intros H. apply normalize_shape in H as (Hplus & Hk & Hlen).
  unfold normalizePhoneToE164. destruct q as [|c q']; [simpl in Hlen; lia |].
  rewrite (cleaned_fixed _ Hk). rewrite Hplus.
  destruct (startsWith (c :: q') (js "+420") && (length (c :: q') =? 13)%nat);
    [reflexivity |].
  destruct Hlen as [H1 H2]. apply Nat.leb_le in H1, H2. rewrite H1, H2. reflexivity.
Qed.

Lemma normalize_same_units (a b : jsstr) :
  List.filter phone_unit a = List.filter phone_unit b ->
  normalizePhoneToE164 (Some a) = normalizePhoneToE164 (Some b).
Proof.
  intros H. unfold normalizePhoneToE164.
  destruct a as [|x a], b as [|y b]; [reflexivity | | |].
  - rewrite remove_class. fold phone_unit. rewrite <- H. reflexivity.
  - rewrite remove_class. fold phone_unit. rewrite H. reflexivity.
  - rewrite !remove_class. fold phone_unit. rewrite H. reflexivity.
Qed.

(** A normalized phone number starts with the plus sign, holds nothing but
    digits and plus signs, and is 10 to 15 code units long. *)
Theorem normalized_phone_shape (phone : option jsstr) (q : jsstr) :
  normalizePhoneToE164 phone = Some q ->
  startsWith q (js "+") = true
  /\ Forall (fun c => is_digit c = true \/ c = 43) q
  /\ (10 <= length q <= 15)%nat.
Proof. apply normalize_shape. Qed.

(** Normalizing is a projection: a normalized phone number is its own normal
    form. *)
Theorem normalized_phone_is_fixed (phone : option jsstr) (q : jsstr) :
  normalizePhoneToE164 phone = Some q ->
  normalizePhoneToE164 (Some q) = Some q.
Proof. apply normalize_fixed. Qed.

(** Separators do not matter: a code unit that is neither a digit nor the
    plus sign can be put anywhere in a phone number, or taken out of it,
    and the normal form is the same. *)
Theorem phone_separators_are_ignored (a b : jsstr) (sep : Z) :
  is_digit sep = false -> sep <> 43 ->
  normalizePhoneToE164 (Some (a ++ sep :: b)) = normalizePhoneToE164 (Some (a ++ b)).
Proof.
  intros Hd Hp. apply normalize_same_units.
  rewrite !List.filter_app. cbn [List.filter].
  assert (Hs : phone_unit sep = false).
  { destruct (phone_unit sep) eqn:E; [| reflexivity].
    apply kept_spec in E as [E | E]; congruence. }
  rewrite Hs. reflexivity.
Qed.

(** The phone numbers found in a text are normalized and pairwise
    distinct. *)
Theorem extracted_phones_are_normalized (text : jsstr) :
  NoDup (extractPhonesFromText text)
  /\ Forall (fun q => normalizePhoneToE164 (Some q) = Some q
                      /\ startsWith q (js "+") = true
                      /\ (10 <= length q <= 15)%nat)
            (extractPhonesFromText text).
Proof.
  set (good := fun phones : list jsstr =>
         NoDup phones /\ Forall (fun q => exists mt, normalizePhoneToE164 (Some mt) = Some q) phones).
  assert (Hadd : forall ms phones, good phones ->
             good (fold_left
                     (fun phones mt =>
                        match normalizePhoneToE164 (Some mt) with
                        | Some normalized => set_add phones normalized
                        | None => phones
                        end) ms phones)).
  { induction ms as [|mt ms IH]; intros phones Hg; [exact Hg |].
    cbn [fold_left]. apply IH. destruct (normalizePhoneToE164 (Some mt)) as [q|] eqn:E; [| exact Hg].
    destruct Hg as [Hnd Hall]. split; [apply set_add_NoDup; exact Hnd |].
    apply Forall_forall. intros q' Hin. apply list_elem_of_In, set_add_In in Hin as [Hin | ->].
    - rewrite Forall_forall in Hall. apply Hall, list_elem_of_In. exact Hin.
    - exists mt. exact E. }
  assert (Hall : forall ps phones, good phones ->
             good (fold_left
                     (fun phones pattern =>
                        fold_left
                          (fun phones mt =>
                             match normalizePhoneToE164 (Some mt) with
                             | Some normalized => set_add phones normalized
                             | None => phones
                             end) (match_all pattern text) phones) ps phones)).
  { induction ps as [|pt ps IH]; intros phones Hg; [exact Hg |].
    cbn [fold_left]. apply IH, Hadd, Hg. }
  assert (Hg : good (extractPhonesFromText text)).
  { unfold extractPhonesFromText. destruct text as [|c text].
    - split; constructor.
    - apply Hall. split; constructor. }
  destruct Hg as [Hnd Hq]. split; [exact Hnd |].
  eapply Forall_impl; [exact Hq |]. intros q (mt & E). cbv beta.
  pose proof (normalize_shape _ _ E) as (H1 & _ & H3).
  split; [exact (normalize_fixed _ _ E) | split; assumption].
Qed.

End PhoneProps.

(** A local number written with spaces is normalized; so is a number that
    has its country code. *)
Lemma normalized_phone_shape_witness :
  Contact.normalizePhoneToE164 (Some (js "608 744 774")) = Some (js "+420608744774")
  /\ (startsWith (js "+420608744774") (js "+") = true
      /\ Forall (fun c => is_digit c = true \/ c = 43) (js "+420608744774")
      /\ (10 <= length (js "+420608744774") <= 15)%nat).
Proof.
  split; [vm_compute; reflexivity |].
  apply (normalized_phone_shape (Some (js "608 744 774"))). vm_compute. reflexivity.
Defined.

Lemma normalized_phone_is_fixed_witness :
  Contact.normalizePhoneToE164 (Some (js "+420 608-744-774")) = Some (js "+420608744774")
  /\ Contact.normalizePhoneToE164 (Some (js "+420608744774")) = Some (js "+420608744774").
Proof.
  split; [vm_compute; reflexivity |].
  apply (normalized_phone_is_fixed (Some (js "+420 608-744-774"))). vm_compute. reflexivity.
Defined.

Lemma phone_separators_are_ignored_witness :
  Contact.normalizePhoneToE164 (Some (js "608" ++ 32 :: js "744774"))
  = Contact.normalizePhoneToE164 (Some (js "608" ++ js "744774")).
Proof. apply phone_separators_are_ignored; [reflexivity | lia]. Defined.

(** ** Runs, ends and slugs *)

Lemma trim_infix (s : jsstr) : exists a b, s = a ++ trim s ++ b.
Proof.
  unfold trim. rewrite <- !rev_alt.
  destruct (trimStart_suffix s) as [a Ha].
  destruct (trimStart_suffix (rev (trimStart s))) as [b Hb].
  exists a, (rev b). rewrite <- rev_app_distr, <- Hb, rev_involutive. exact Ha.
Qed.

Lemma trim_Forall (P : Z -> Prop) (s : jsstr) : Forall P s -> Forall P (trim s).
Proof.
  intros H. destruct (trim_infix s) as (a & b & E). rewrite E in H.
  apply Forall_app in H as [_ H]. apply Forall_app in H as [H _]. exact H.
Qed.

Lemma trim_ends (s : jsstr) :
  match trim s with c :: _ => is_space c = false | [] => True end
  /\ match rev (trim s) with c :: _ => is_space c = false | [] => True end.
Proof.
  unfold trim. rewrite <- !rev_alt. rewrite rev_involutive.
  split; [| apply trimStart_head].
  pose proof (trimStart_head s) as Hs.
  destruct (trimStart_suffix (rev (trimStart s))) as [p Hp].
  pose proof (trimStart_head (rev (trimStart s))) as Hu.
  set (u := trimStart (rev (trimStart s))) in *.
  assert (Ht : trimStart s = rev u ++ rev p).
  { rewrite <- rev_app_distr, <- Hp, rev_involutive. reflexivity. }
  destruct (rev u) as [|c r] eqn:E; [exact I |].
  rewrite Ht in Hs. exact Hs.
Qed.

Section RunProps.
Variable p : Z -> bool.

Lemma squeeze_Forall (P : Z -> Prop) (t s : list Z) (b : bool) :
  Forall P s -> Forall (fun c => (P c /\ p c = false) \/ In c t) (squeeze p t b s).
Proof.
  intros H. revert b. induction H as [|x s Hx Hs IH]; intros b; cbn [squeeze]; [constructor |].
  destruct (p x) eqn:E.
  - destruct b; [apply IH |]. apply Forall_app. split; [| apply IH].
    apply Forall_forall. intros c Hc. right. apply list_elem_of_In. exact Hc.
  - constructor; [left; split; assumption | apply IH].
Qed.

Lemma no_pair_cons (x : Z) (s : list Z) :
  no_pair p (x :: s)
  <-> match s with y :: _ => p x = true -> p y = false | [] => True end /\ no_pair p s.
Proof. destruct s; simpl; tauto. Qed.

(** Runs replaced by one code unit of the class: no two neighbours of the
    class are left. *)
Lemma squeeze_no_pair (u : Z) (s : list Z) (b : bool) :
  no_pair p (squeeze p [u] b s)
  /\ (b = true -> match squeeze p [u] b s with y :: _ => p y = false | [] => True end).
Proof.
  revert b. induction s as [|x s IH]; intros b; cbn [squeeze]; [simpl; auto |].
  destruct (p x) eqn:E.
  - destruct b.
    + apply IH.
    + split; [| discriminate]. cbn [app]. apply no_pair_cons.
      destruct (IH true) as [H1 H2]. split; [| exact H1].
      specialize (H2 eq_refl). destruct (squeeze p [u] true s); [exact I | intros _; exact H2].
  - split; [| intros _; exact E]. apply no_pair_cons. split; [| apply IH].
    destruct (squeeze p [u] false s); [exact I |]. intros H. congruence.
Qed.

Lemma squeeze_fixed (u : Z) (s : list Z) :
  (forall c, In c s -> p c = true -> c = u) -> no_pair p s -> squeeze p [u] false s = s.
Proof.
  induction s as [|x s IH]; intros Hu Hn; [reflexivity |].
  apply no_pair_cons in Hn as [Hx Hn]. cbn [squeeze].
  assert (IH' : squeeze p [u] false s = s).
  { apply IH; [| exact Hn]. intros c Hc. apply Hu. right. exact Hc. }
  destruct (p x) eqn:E.
  - rewrite (Hu x (or_introl eq_refl) E). cbn [app]. f_equal.
    destruct s as [|y s']; [reflexivity |]. specialize (Hx eq_refl).
    cbn [squeeze]. rewrite Hx. cbn [squeeze] in IH'. rewrite Hx in IH'. exact IH'.
  - rewrite IH'. reflexivity.
Qed.

Lemma no_pair_app_inv (a b : list Z) : no_pair p (a ++ b) -> no_pair p a /\ no_pair p b.
Proof.
  induction a as [|x a IH]; intros H; [split; [exact I | exact H] |].
  cbn [app] in H. apply no_pair_cons in H as [Hx H]. apply IH in H as [Ha Hb].
  split; [| exact Hb]. apply no_pair_cons. split; [| exact Ha].
  destruct a as [|y a]; [exact I | exact Hx].
Qed.

End RunProps.

Section StripProps.
Variable u : Z.

Lemma stripper_inside (pre0 : Z) (pre : list Z) (rest : list Z) :
  rest_replaced (edge_unit u) [] (pre0 :: pre) rest = strip_last u rest.
Proof.
  revert pre0 pre. induction rest as [|x rest IH]; intros pre0 pre.
  - apply rest_replaced_end. reflexivity.
  - destruct rest as [|y rest].
    + cbn [strip_last]. destruct (u =? x) eqn:E.
      * rewrite (rest_replaced_match (edge_unit u) [] (pre0 :: pre) [x] (x :: pre0 :: pre, [])).
        -- cbn [fst snd app]. apply rest_replaced_end. reflexivity.
        -- unfold match_at, edge_unit, chr. cbn. rewrite E. reflexivity.
        -- reflexivity.
      * rewrite rest_replaced_skip.
        -- f_equal. apply rest_replaced_end. reflexivity.
        -- unfold match_at, edge_unit, chr. cbn. rewrite E. reflexivity.
    + rewrite rest_replaced_skip.
      * rewrite IH. reflexivity.
      * unfold match_at, edge_unit, chr. cbn. destruct (u =? x); reflexivity.
Qed.

(** [s.replace(/^u|u$/g, '')] *)
Lemma replace_stripper (s : list Z) :
  replace_all (edge_unit u) [] s
  = match s with
    | x :: s' => if u =? x then strip_last u s' else strip_last u s
    | [] => []
    end.
Proof.
  rewrite replace_all_rest. destruct s as [|x s].
  - apply rest_replaced_end. reflexivity.
  - destruct (u =? x) eqn:E.
    + rewrite (rest_replaced_match (edge_unit u) [] [] (x :: s) ([x], s)).
      * cbn [fst snd app]. apply stripper_inside.
      * unfold match_at, edge_unit, chr. cbn. rewrite E. reflexivity.
      * unfold advanced, remaining. cbn [snd length]. apply Nat.ltb_lt. lia.
    + rewrite rest_replaced_skip.
      * rewrite stripper_inside. destruct s; cbn [strip_last]; [rewrite E |]; reflexivity.
      * unfold match_at, edge_unit, chr. cbn. rewrite E.
        destruct s; reflexivity.
Qed.

Lemma strip_last_prefix (s : list Z) : exists b, s = strip_last u s ++ b.
Proof.
  induction s as [|x s [b IH]]; [exists []; reflexivity |].
  cbn [strip_last]. destruct s as [|y s].
  - destruct (u =? x); [exists [x] | exists []]; reflexivity.
  - exists b. cbn [app]. f_equal. exact IH.
Qed.

Lemma strip_last_end (s : list Z) :
  no_pair (Z.eqb u) s ->
  match rev (strip_last u s) with y :: _ => (u =? y) = false | [] => True end.
Proof.
  induction s as [|x s IH]; intros Hn; [exact I |].
  apply no_pair_cons in Hn as [Hx Hn]. cbn [strip_last].
  destruct s as [|y s].
  - destruct (u =? x) eqn:E; [exact I | exact E].
  - specialize (IH Hn). cbn [rev].
    destruct (rev (strip_last u (y :: s))) as [|z r] eqn:Er; [| exact IH].
    cbn [app].
    (* the rest was a single [u]: then [x] is not one *)
    destruct s as [|y2 s].
    + cbn [strip_last] in Er. destruct (u =? y) eqn:Ey.
      * destruct (u =? x) eqn:E; [| reflexivity]. specialize (Hx eq_refl). congruence.
      * discriminate.
    + cbn [strip_last rev] in Er. destruct (rev _); discriminate.
Qed.

Lemma strip_last_head (s : list Z) :
  match s with y :: _ => (u =? y) = false | [] => True end ->
  match strip_last u s with y :: _ => (u =? y) = false | [] => True end.
Proof.
  destruct s as [|x s]; [intros _; exact I |]. intros Hx. cbn [strip_last].
  destruct s; [rewrite Hx |]; exact Hx.
Qed.

End StripProps.

(** ** String predicates *)

Lemma startsWith_unit (u : Z) (s : jsstr) :
  match s with y :: _ => (u =? y) = false | [] => True end -> startsWith s [u] = false.
Proof.
  destruct s as [|y s]; [reflexivity |]. intros H. cbn [startsWith].
  rewrite H. reflexivity.
Qed.

Lemma endsWith_unit (u : Z) (s : jsstr) :
  match rev s with y :: _ => (u =? y) = false | [] => True end -> endsWith s [u] = false.
Proof.
  intros H. unfold endsWith. rewrite <- !rev_alt. apply startsWith_unit. exact H.
Qed.

Lemma includes_pair (u : Z) (s : jsstr) :
  no_pair (Z.eqb u) s -> includes s [u; u] = false.
Proof.
  induction s as [|x s IH]; intros Hn; [reflexivity |].
  apply no_pair_cons in Hn as [Hx Hn]. cbn [includes]. rewrite (IH Hn), orb_false_r.
  cbn [startsWith]. destruct (u =? x) eqn:E; [| reflexivity].
  cbn [andb]. destruct s as [|y s]; [reflexivity |]. cbn [startsWith].
  rewrite (Hx eq_refl). reflexivity.
Qed.

Section SlugProps.
Context {P : Platform}.
Import ImportFromWeb.

(** A slug is made of lower-case ASCII letters, digits and underscores; it
    neither starts nor ends with an underscore and has no two underscores in
    a row.  It may be empty. *)
Theorem slug_is_well_formed (name : option jsstr) :
  Forall (fun c => in_range 97 122 c = true \/ is_digit c = true \/ c = 95)
         (makeSlugFromName name)
  /\ startsWith (makeSlugFromName name) (js "_") = false
  /\ endsWith (makeSlugFromName name) (js "_") = false
  /\ includes (makeSlugFromName name) (js "__") = false.
Proof.
  change (js "__") with [95; 95]. change (js "_") with [95].
  unfold makeSlugFromName. destruct name as [[|c0 n]|];
    try (split; [constructor | repeat split; reflexivity]).
  change (js "_") with [95]. cbv zeta.
  change (Alt (Cat Bol (chr 95)) (Cat (chr 95) Eol)) with (edge_unit 95).
  rewrite replace_stripper.
  set (s0 := replace_all (Cls (in_range 768 879)) [] _). clearbody s0.
  set (s1 := replace_all (Cls (neg _)) [] s0).
  assert (H1 : Forall (fun c => in_range 97 122 c = true \/ is_digit c = true
                                \/ is_space c = true \/ c = 45) s1).
  { subst s1. rewrite remove_class. apply Forall_forall. intros c Hc.
    apply list_elem_of_In, filter_In in Hc as [_ Hc].
    unfold neg, either in Hc. rewrite negb_involutive in Hc.
    rewrite !orb_true_iff, Z.eqb_eq in Hc. intuition congruence. }
  clearbody s1. apply trim_Forall in H1. set (s2 := trim s1) in *. clearbody s2.
  unfold space, chr. rewrite !replace_runs.
  pose proof (squeeze_Forall is_space _ [95] s2 false H1) as H3.
  set (s3 := squeeze is_space [95] false s2) in *. clearbody s3.
  pose proof (squeeze_Forall (Z.eqb 45) _ [95] s3 false H3) as H4.
  set (s4 := squeeze (Z.eqb 45) [95] false s3) in *. clearbody s4.
  pose proof (squeeze_Forall (Z.eqb 95) _ [95] s4 false H4) as H5.
  destruct (squeeze_no_pair (Z.eqb 95) 95 s4 false) as [Hn _].
  set (s5 := squeeze (Z.eqb 95) [95] false s4) in *. clearbody s5.
  assert (Hu : Forall (fun c => in_range 97 122 c = true \/ is_digit c = true \/ c = 95) s5).
  { eapply Forall_impl; [exact H5 |]. intros c Hc. cbv beta in Hc. cbn [In] in Hc.
    assert (H45 : c = 45 -> (45 =? c) = true) by (intros ->; reflexivity).
    intuition congruence. }
  clear H1 H3 H4 H5.
  assert (G : forall s : list Z,
             Forall (fun c => in_range 97 122 c = true \/ is_digit c = true \/ c = 95) s ->
             no_pair (Z.eqb 95) s ->
             match s with y :: _ => (95 =? y) = false | [] => True end ->
             Forall (fun c => in_range 97 122 c = true \/ is_digit c = true \/ c = 95)
                    (strip_last 95 s)
             /\ startsWith (strip_last 95 s) [95] = false
             /\ endsWith (strip_last 95 s) [95] = false
             /\ includes (strip_last 95 s) [95; 95] = false).
  { intros s Hs Hp Hh. destruct (strip_last_prefix 95 s) as [b Eb].
    split; [| split; [| split]].
    - rewrite Eb in Hs. apply Forall_app in Hs as [Hs _]. exact Hs.
    - apply startsWith_unit, strip_last_head, Hh.
    - apply endsWith_unit, strip_last_end, Hp.
    - apply includes_pair. rewrite Eb in Hp. apply no_pair_app_inv in Hp as [Hp _]. exact Hp. }
  destruct s5 as [|x s5]; [split; [constructor | repeat split; reflexivity] |].
  destruct (95 =? x) eqn:E.
  - apply no_pair_cons in Hn as [Hx Hn]. apply Forall_cons_1 in Hu as [_ Hu].
    apply G; [exact Hu | exact Hn |]. destruct s5; [exact I | exact (Hx E)].
  - apply G; [exact Hu | exact Hn | exact E].
Qed.

End SlugProps.

(** ** Address normalisation *)

Lemma squeeze_single_spaced (s : list Z) : single_spaced (squeeze is_space [32] false s).
Proof.
  split; [apply squeeze_no_pair |].
  pose proof (squeeze_Forall is_space (fun _ => True) [32] s false) as H.
  eapply Forall_impl; [apply H, Forall_forall; auto |].
  intros c [[_ Hc] | [<- | []]]; [congruence | reflexivity].
Qed.

Lemma trim_single_spaced (s : jsstr) : single_spaced s -> single_spaced (trim s).
Proof.
  intros [Hn Hf]. destruct (trim_infix s) as (a & b & E).
  split; [| apply trim_Forall, Hf].
  rewrite E in Hn. apply no_pair_app_inv in Hn as [_ Hn].
  apply no_pair_app_inv in Hn as [Hn _]. exact Hn.
Qed.

Lemma single_spaced_fixed (s : list Z) :
  single_spaced s -> replace_all (plus space) (js " ") s = s.
Proof.
  intros [Hn Hf]. unfold space. rewrite replace_runs. change (js " ") with [32].
  apply squeeze_fixed; [| exact Hn].
  intros c Hc. rewrite Forall_forall in Hf. apply Hf, list_elem_of_In, Hc.
Qed.

(** A normalized address is left as it is by a second normalization; it has
    no space at either end and no two spaces in a row. *)
Theorem normalized_address_is_fixed (s : jsstr) :
  Locations.normalizeAddress (Locations.normalizeAddress s) = Locations.normalizeAddress s
  /\ startsWith (Locations.normalizeAddress s) (js " ") = false
  /\ endsWith (Locations.normalizeAddress s) (js " ") = false
  /\ includes (Locations.normalizeAddress s) (js "  ") = false.
Proof.
  unfold Locations.normalizeAddress.
  assert (Hs : single_spaced (trim (replace_all (plus space) (js " ") s))).
  { apply trim_single_spaced. unfold space. rewrite replace_runs. apply squeeze_single_spaced. }
  split; [rewrite (single_spaced_fixed _ Hs); apply trim_idempotent |].
  change (js "  ") with [32; 32]. change (js " ") with [32].
  destruct (trim_ends (replace_all (plus space) [32] s)) as [Hh Hl].
  destruct Hs as [Hn Hf].
  assert (Hsp : forall y, is_space y = false -> (32 =? y) = false).
  { intros y Hy. destruct (32 =? y) eqn:E; [| reflexivity].
    apply Z.eqb_eq in E. subst y. discriminate. }
  split; [| split].
  - apply startsWith_unit. destruct (trim _) as [|y r]; [exact I | apply Hsp, Hh].
  - apply endsWith_unit. destruct (rev (trim _)) as [|y r]; [exact I | apply Hsp, Hl].
  - apply includes_pair.
    assert (G : forall l, no_pair is_space l -> no_pair (Z.eqb 32) l).
    { induction l as [|x l IH]; intros H; [exact I |].
      apply no_pair_cons in H as [Hx H]. apply no_pair_cons. split; [| apply IH, H].
      destruct l as [|y l]; [exact I |]. intros E. apply Z.eqb_eq in E. subst x.
      apply Hsp, Hx. reflexivity. }
    apply G, Hn.
Qed.

(** ** The frontier *)

Lemma fold_left_set_add_In (l s : list jsstr) (u : jsstr) :
  In u (fold_left set_add l s) <-> In u s \/ In u l.
Proof.
  revert s. induction l as [|x l IH]; intros s; simpl.
  - tauto.
  - rewrite IH, set_add_In. split; intros H; repeat destruct H as [H | H]; auto.
Qed.

Lemma fold_left_set_add_NoDup (l s : list jsstr) : NoDup s -> NoDup (fold_left set_add l s).
Proof.
  revert s. induction l as [|x l IH]; intros s H; simpl; [exact H |].
  apply IH, set_add_NoDup, H.
Qed.

Section FrontierProps.
Context {P : Platform}.
Variable normalizeUrl : jsstr -> jsstr.
Variable shouldExclude : jsstr -> bool.
Variable resolveUrl : jsstr -> jsstr -> option jsstr.
Variable web : nat -> jsstr -> Crawler.outcome.
Variables maxDepth maxPages : Z.
Import Crawler.

(** The tasks a loop that adds links puts on the queue: links of the page,
    one level deeper, within the depth limit; and the queue grows only while
    it is below its cap. *)
Lemma addLinks_tasks (priority : bool) (visited : list jsstr) (depth : Z)
    (links : list jsstr) (q : list task) (sn : list jsstr) (added : Z) :
  let '(q', _, _) := addLinks maxDepth priority visited depth links (q, sn, added) in
  (length q' <= Nat.max (length q) maxQueueSize)%nat
  /\ forall t, In t q' ->
       In t q \/ (In (Crawler.url t) links /\ Crawler.depth t = depth + 1
                  /\ depth + 1 <= maxDepth).
Proof.
  unfold addLinks. revert q sn added.
  induction links as [|l links IH]; intros q sn added.
  - simpl. split; [lia | auto].
  - cbn [fold_left].
    destruct ((length q <? maxQueueSize)%nat && (added <? maxLinksPerPage)
              && (depth + 1 <=? maxDepth)) eqn:Hcap;
      [destruct (negb (set_has visited l) && negb (set_has sn l)) |].
    + set (t := {| url := l; depth := depth + 1; fromPriority := priority |}).
      specialize (IH (if priority then t :: q else q ++ [t]) (set_add sn l) (added + 1)).
      destruct (fold_left _ links _) as [[q' sn'] added'].
      destruct IH as [Hlen Hin].
      apply andb_true_iff in Hcap as [Hcap Hd]. apply andb_true_iff in Hcap as [Hq _].
      apply Nat.ltb_lt in Hq. apply Z.leb_le in Hd.
      split.
      * assert (length (if priority then t :: q else q ++ [t]) = S (length q)) as El
          by (destruct priority; [reflexivity | rewrite length_app; simpl; lia]).
        rewrite El in Hlen. lia.
      * intros a Ha. destruct (Hin a Ha) as [Hq' | (Hl & Hdep & Hmax)].
        -- assert (In a q \/ a = t) as [Hold | ->].
           { destruct priority; [destruct Hq' as [<- | Hq']; auto |].
             apply in_app_iff in Hq' as [Hq' | [<- | []]]; auto. }
           ++ left. exact Hold.
           ++ right. simpl. auto.
        -- right. split; [right; exact Hl | auto].
    + specialize (IH q sn added). destruct (fold_left _ links _) as [[q' sn'] added'].
      destruct IH as [Hlen Hin]. split; [exact Hlen |].
      intros a Ha. destruct (Hin a Ha) as [Hq' | (Hl & Hrest)]; [left; exact Hq' |].
      right. split; [right; exact Hl | exact Hrest].
    + specialize (IH q sn added). destruct (fold_left _ links _) as [[q' sn'] added'].
      destruct IH as [Hlen Hin]. split; [exact Hlen |].
      intros a Ha. destruct (Hin a Ha) as [Hq' | (Hl & Hrest)]; [left; exact Hq' |].
      right. split; [right; exact Hl | exact Hrest].
Qed.

(** No classified link is excluded. *)
Lemma classifyLinks_kept (visited : list jsstr) (links : list link) :
  let '(priorityLinks, normalLinks) := classifyLinks shouldExclude visited links in
  Forall (fun l => shouldExclude l = false) priorityLinks
  /\ Forall (fun l => shouldExclude l = false) normalLinks.
Proof.
  unfold classifyLinks.
  assert (G : forall pl nl,
             Forall (fun l => shouldExclude l = false) pl ->
             Forall (fun l => shouldExclude l = false) nl ->
             let '(pl', nl') :=
               fold_left
                 (fun '(priorityLinks, normalLinks) l =>
                    if shouldExclude (href l) then (priorityLinks, normalLinks)
                    else if set_has visited (href l) then (priorityLinks, normalLinks)
                    else if isPriorityLink l then (priorityLinks ++ [href l], normalLinks)
                    else (priorityLinks, normalLinks ++ [href l]))
                 links (pl, nl) in
             Forall (fun l => shouldExclude l = false) pl'
             /\ Forall (fun l => shouldExclude l = false) nl').
  { induction links as [|l links IH]; intros pl nl Hp Hn; [simpl; auto |].
    cbn [fold_left]. destruct (shouldExclude (href l)) eqn:E; [apply IH; assumption |].
    destruct (set_has visited (href l)); [apply IH; assumption |].
    destruct (isPriorityLink l); apply IH; try assumption;
      apply Forall_app; split; auto. }
  apply G; constructor.
Qed.

(** The pages and queue after one turn of the loop. *)
Lemma step_frame (st st' : state) :
  Crawler.step normalizeUrl shouldExclude web maxDepth maxPages st = Some st' ->
  exists t rest,
    queue st = t :: rest
    /\ dequeued st' = dequeued st ++ [url t]
    /\ (* the queue *)
       ((length (queue st') <= Nat.max (length rest) maxQueueSize)%nat
        /\ forall a, In a (queue st') ->
             In a rest
             \/ (shouldExclude (url a) = false /\ depth a = depth t + 1
                 /\ depth t + 1 <= maxDepth))
    /\ (* the recorded pages *)
       (crawledPagesWithContent st' = crawledPagesWithContent st
        \/ exists p,
             crawledPagesWithContent st' = crawledPagesWithContent st ++ [p]
             /\ page_depth p = depth t /\ depth t <= maxDepth
             /\ forall id, page_bookingProvider p = Some id -> In id (bookingProviders st'))
    /\ (* the providers *)
       (bookingProviders st' = bookingProviders st
        \/ exists h, bookingProviders st'
                     = record_providers (bookingProviders st)
                         (detectBookingProviders (normalizeUrl (url t)) h))
    /\ (* the counter *)
       (pagesCrawled st' = pagesCrawled st
        \/ (pagesCrawled st' = pagesCrawled st + 1
            /\ exists p, crawledPagesWithContent st' = crawledPagesWithContent st ++ [p])).
Proof.
  unfold Crawler.step. destruct (queue st) as [|t rest] eqn:Eq; [discriminate |].
  destruct (pagesCrawled st <? maxPages); simpl negb; cbv iota; [| discriminate].
  cbv zeta.
  assert (Hrest : (length rest <= Nat.max (length rest) maxQueueSize)%nat
                  /\ forall a, In a rest ->
                       In a rest
                       \/ (shouldExclude (url a) = false /\ depth a = depth t + 1
                           /\ depth t + 1 <= maxDepth)).
  { split; [lia | auto]. }
  destruct (set_has (visited st) (normalizeUrl (url t)) || (maxDepth <? depth t)) eqn:Hskip.
  { intros H. injection H as <-. exists t, rest. simpl. auto 10. }
  apply orb_false_iff in Hskip as [_ Hdep]. apply Z.ltb_ge in Hdep.
  assert (Hhead : forall (det : list jsstr) (prov : list jsstr) (id : jsstr),
             head det = Some id -> In id (record_providers prov det)).
  { intros det prov id Hd. unfold record_providers. destruct det as [|d det]; [discriminate |].
    injection Hd as ->. apply fold_left_set_add_In.
    right. left. reflexivity. }
  destruct (web (length (attempts st)) (normalizeUrl (url t))) as [| |[h|]|r|r|r links].
  - intros H. injection H as <-. exists t, rest. simpl. auto 10.
  - intros H. injection H as <-. exists t, rest. simpl. auto 10.
  - intros H. injection H as <-. exists t, rest. simpl.
    split; [reflexivity |]. split; [reflexivity |]. split; [exact Hrest |].
    split; [left; reflexivity |]. split; [right; exists h; reflexivity | left; reflexivity].
  - intros H. injection H as <-. exists t, rest. simpl. auto 10.
  - intros H. cbv beta iota in H. injection H as <-. exists t, rest. simpl.
    split; [reflexivity |]. split; [reflexivity |]. split; [exact Hrest |].
    split; [| split; [right; exists (html r); reflexivity | left; reflexivity]].
    right. eexists. split; [reflexivity |]. simpl. split; [reflexivity |]. split; [exact Hdep |].
    intros id Hid. apply Hhead. exact Hid.
  - intros H. cbv beta iota in H. injection H as <-. exists t, rest. simpl.
    split; [reflexivity |]. split; [reflexivity |]. split; [exact Hrest |].
    split; [| split; [right; exists (html r); reflexivity |]].
    + right. eexists. split; [reflexivity |]. simpl. split; [reflexivity |]. split; [exact Hdep |].
      intros id Hid. apply Hhead. exact Hid.
    + right. split; [reflexivity |]. eexists. reflexivity.
  - assert (Hq : forall q' sn' a',
               (if (depth t <? maxDepth) && (pagesCrawled st + 1 <? maxPages) then
                  let '(priorityLinks, normalLinks) :=
                    classifyLinks shouldExclude
                      (set_add (visited st) (normalizeUrl (url t))) links in
                  addLinks maxDepth false (set_add (visited st) (normalizeUrl (url t)))
                    (depth t) normalLinks
                    (addLinks maxDepth true (set_add (visited st) (normalizeUrl (url t)))
                       (depth t) priorityLinks (rest, seen st, 0))
                else (rest, seen st, 0)) = (q', sn', a') ->
               (length q' <= Nat.max (length rest) maxQueueSize)%nat
               /\ forall a, In a q' ->
                    In a rest
                    \/ (shouldExclude (url a) = false /\ depth a = depth t + 1
                        /\ depth t + 1 <= maxDepth)).
    { intros q' sn' a' E.
      destruct ((depth t <? maxDepth) && (pagesCrawled st + 1 <? maxPages));
        [| injection E as <- <- <-; exact Hrest].
      pose proof (classifyLinks_kept (set_add (visited st) (normalizeUrl (url t))) links) as Hk.
      destruct (classifyLinks _ _ links) as [pl nl]. destruct Hk as [Hkp Hkn].
      pose proof (addLinks_tasks true (set_add (visited st) (normalizeUrl (url t))) (depth t)
                    pl rest (seen st) 0) as HP.
      destruct (addLinks maxDepth true _ (depth t) pl _) as [[qp sp] ap].
      destruct HP as [HPl HPi].
      pose proof (addLinks_tasks false (set_add (visited st) (normalizeUrl (url t))) (depth t)
                    nl qp sp ap) as HN.
      rewrite E in HN. destruct HN as [HNl HNi].
      split; [lia |].
      intros a Ha. rewrite Forall_forall in Hkp, Hkn.
      destruct (HNi a Ha) as [Hqp | (Hl & Hd1 & Hd2)].
      - destruct (HPi a Hqp) as [Hr | (Hl & Hd1 & Hd2)]; [left; exact Hr |].
        right. split; [apply Hkp, list_elem_of_In; exact Hl | auto].
      - right. split; [apply Hkn, list_elem_of_In; exact Hl | auto]. }
    destruct (if (depth t <? maxDepth) && (pagesCrawled st + 1 <? maxPages) then _ else _)
      as [[q' sn'] a'] eqn:E.
    specialize (Hq q' sn' a' eq_refl).
    intros H. cbv beta iota in H. injection H as <-. exists t, rest. simpl.
    split; [reflexivity |]. split; [reflexivity |]. split; [exact Hq |].
    split; [| split; [right; exists (html r); reflexivity |]].
    + right. eexists. split; [reflexivity |]. simpl. split; [reflexivity |]. split; [exact Hdep |].
      intros id Hid. apply Hhead. exact Hid.
    + right. split; [reflexivity |]. eexists. reflexivity.
Qed.

(** The providers found on a page are providers of the table, each once. *)
Lemma detectBookingProviders_ids (u h : jsstr) :
  NoDup (detectBookingProviders u h)
  /\ Forall (fun id => In id (map fst BOOKING_PATTERNS)) (detectBookingProviders u h).
Proof.
  unfold detectBookingProviders. cbv zeta.
  set (hay := toLowerCase _). generalize BOOKING_PATTERNS as pats. intros pats.
  assert (G : forall found,
             NoDup found -> Forall (fun id => In id (map fst pats) \/ In id found) found ->
             let r := fold_left
                        (fun found provider =>
                           if existsb (fun p => includes hay (toLowerCase p)) (snd provider)
                           then set_add found (fst provider) else found) pats found in
             NoDup r /\ Forall (fun id => In id (map fst pats) \/ In id found) r).
  { induction pats as [|pt pats IH]; intros found Hnd Hin; [simpl; auto |].
    cbn [fold_left]. destruct (existsb _ (snd pt)).
    - destruct (IH (set_add found (fst pt))) as [H1 H2].
      + apply set_add_NoDup, Hnd.
      + apply Forall_forall. intros id Hid. right. apply list_elem_of_In. exact Hid.
      + split; [exact H1 |]. eapply Forall_impl; [exact H2 |].
        intros id [Hid | Hid]; [left; right; exact Hid |].
        apply set_add_In in Hid as [Hid | ->]; [right; exact Hid | left; left; reflexivity].
    - destruct (IH found Hnd) as [H1 H2].
      + apply Forall_forall. intros id Hid. right. apply list_elem_of_In. exact Hid.
      + split; [exact H1 |]. eapply Forall_impl; [exact H2 |].
        intros id [Hid | Hid]; [left; right; exact Hid | right; exact Hid]. }
  destruct (G [] (NoDup_nil_2) (Forall_nil_2 _)) as [H1 H2]. split; [exact H1 |].
  eapply Forall_impl; [exact H2 |]. intros id [Hid | []]. exact Hid.
Qed.

(** *** The queue before the loop *)

Lemma enqueue_queue (u : jsstr) (d : Z) (p : bool) (st : state) :
  let st' := enqueue normalizeUrl shouldExclude u d p st in
  dequeued st' = dequeued st
  /\ crawledPagesWithContent st' = crawledPagesWithContent st
  /\ bookingProviders st' = bookingProviders st
  /\ (length (queue st') <= S (length (queue st)))%nat
  /\ (Forall (fun t => shouldExclude (url t) = false /\ (depth t = 0 \/ depth t = 1)) (queue st) ->
      d = 0 \/ d = 1 ->
      Forall (fun t => shouldExclude (url t) = false /\ (depth t = 0 \/ depth t = 1)) (queue st')).
Proof.
  unfold enqueue. destruct u as [|c u]; [cbv zeta; auto 10 |].
  cbv zeta. destruct (set_has (seen st) _); [auto 10 |].
  destruct (shouldExclude _) eqn:E; [auto 10 |].
  simpl. do 3 (split; [reflexivity |]). split; [rewrite length_app; simpl; lia |].
  intros Hq Hd. apply Forall_app. split; [exact Hq |]. constructor; [| constructor].
  simpl. split; [exact E | exact Hd].
Qed.

Lemma initial_queue (baseUrl : jsstr) (forcedUrls sitemapUrls : list jsstr) :
  let st := Crawler.initial_state normalizeUrl shouldExclude resolveUrl
              baseUrl forcedUrls sitemapUrls in
  dequeued st = [] /\ crawledPagesWithContent st = [] /\ bookingProviders st = []
  /\ (length (queue st) <= 1 + length forcedUrls + length sitemapUrls)%nat
  /\ Forall (fun t => shouldExclude (url t) = false /\ (depth t = 0 \/ depth t = 1)) (queue st).
Proof.
  unfold Crawler.initial_state. cbv zeta.
  set (good := fun (k : nat) (st : state) =>
         dequeued st = [] /\ crawledPagesWithContent st = [] /\ bookingProviders st = []
         /\ (length (queue st) <= k)%nat
         /\ Forall (fun t => shouldExclude (url t) = false /\ (depth t = 0 \/ depth t = 1))
                   (queue st)).
  assert (Henq : forall u d p k st, d = 0 \/ d = 1 -> good k st ->
             good (S k) (enqueue normalizeUrl shouldExclude u d p st)).
  { intros u d p k st Hd (H1 & H2 & H3 & H4 & H5).
    destruct (enqueue_queue u d p st) as (E1 & E2 & E3 & E4 & E5).
    unfold good. rewrite E1, E2, E3. do 3 (split; [assumption |]).
    split; [lia | apply E5; assumption]. }
  assert (Hweak : forall k k' st, (k <= k')%nat -> good k st -> good k' st).
  { intros k k' st Hk (H1 & H2 & H3 & H4 & H5). unfold good. do 3 (split; [assumption |]).
    split; [lia | exact H5]. }
  assert (Hfold : forall (f : state -> jsstr -> state) l k st,
             (forall k st x, good k st -> good (S k) (f st x)) -> good k st ->
             good (length l + k)%nat (fold_left f l st)).
  { intros f l. induction l as [|x l IH]; intros k st Hf Hg; simpl; [exact Hg |].
    replace (S (length l + k))%nat with (length l + S k)%nat by lia.
    apply IH; [exact Hf |]. apply Hf. exact Hg. }
  assert (H0 : good 0%nat empty_state).
  { unfold good. simpl. repeat split; auto. }
  eapply Hweak; [| apply Hfold; [| apply Hfold; [| apply (Henq baseUrl 0 false 0%nat); [auto | exact H0]]]].
  - lia.
  - intros k st x Hg. apply Henq; [auto | exact Hg].
  - intros k st x Hg. destruct (resolveUrl x baseUrl).
    + apply Henq; [auto | exact Hg].
    + eapply Hweak; [| exact Hg]. lia.
Qed.

(** *** What the loop keeps *)

Lemma step_frontier_kept (cap : nat) (st st' : state) :
  Crawler.step normalizeUrl shouldExclude web maxDepth maxPages st = Some st' ->
  frontier_kept shouldExclude maxDepth cap st -> frontier_kept shouldExclude maxDepth cap st'.
Proof.
  intros Hs (Hlen & Hex & Hdep & Hpg & Hnd & Hids & Hrep).
  destruct (step_frame st st' Hs) as (t & rest & Eq & Ed & [Hql Hqi] & Hpages & Hprov & _).
  rewrite Eq in Hlen, Hdep. simpl in Hlen. apply Forall_cons_1 in Hdep as [Hdt Hdep].
  unfold timeline in Hex. rewrite Eq in Hex. apply Forall_app in Hex as [Hexd Hexq].
  cbn [map] in Hexq. apply Forall_cons_1 in Hexq as [Hext Hexq].
  assert (Hmono : forall id, In id (bookingProviders st) -> In id (bookingProviders st')).
  { intros id Hid. destruct Hprov as [-> | [h ->]]; [exact Hid |].
    unfold record_providers. apply fold_left_set_add_In. left. exact Hid. }
  unfold frontier_kept. split; [lia |]. split; [| split; [| split; [| split; [| split]]]].
  - unfold timeline. rewrite Ed. apply Forall_app. split.
    + apply Forall_app. split; [exact Hexd | constructor; [exact Hext | constructor]].
    + apply Forall_forall. intros u Hu. apply list_elem_of_In, in_map_iff in Hu as (a & <- & Ha).
      destruct (Hqi a Ha) as [Hr | (He & _)]; [| exact He].
      rewrite Forall_forall in Hexq. apply Hexq, list_elem_of_In, in_map. exact Hr.
  - apply Forall_forall. intros a Ha. apply list_elem_of_In in Ha.
    destruct (Hqi a Ha) as [Hr | (_ & Hd & _)]; [| lia].
    rewrite Forall_forall in Hdep. apply Hdep, list_elem_of_In. exact Hr.
  - destruct Hpages as [-> | (p & -> & Epd & Hmax & _)]; [exact Hpg |].
    apply Forall_app. split; [exact Hpg |]. constructor; [lia | constructor].
  - destruct Hprov as [-> | [h ->]]; [exact Hnd |].
    unfold record_providers. apply fold_left_set_add_NoDup. exact Hnd.
  - destruct Hprov as [-> | [h ->]]; [exact Hids |].
    apply Forall_forall. intros id Hid.
    apply list_elem_of_In in Hid. unfold record_providers in Hid.
    apply fold_left_set_add_In in Hid as [Hid | Hid].
    + rewrite Forall_forall in Hids. apply Hids, list_elem_of_In. exact Hid.
    + destruct (detectBookingProviders_ids (normalizeUrl (url t)) h) as [_ Hd].
      rewrite Forall_forall in Hd. apply Hd, list_elem_of_In. exact Hid.
  - assert (Hold : Forall (fun p => match page_bookingProvider p with
                                    | Some id => In id (bookingProviders st')
                                    | None => True
                                    end) (crawledPagesWithContent st)).
    { eapply Forall_impl; [exact Hrep |]. intros p Hp. cbv beta in Hp |- *.
      destruct (page_bookingProvider p); [apply Hmono; exact Hp | exact I]. }
    destruct Hpages as [-> | (p & -> & _ & _ & Hp)]; [exact Hold |].
    apply Forall_app. split; [exact Hold |]. constructor; [| constructor].
    destruct (page_bookingProvider p) as [id|]; [apply Hp; reflexivity | exact I].
Qed.

Lemma run_frontier_kept (baseUrl : jsstr) (forcedUrls sitemapUrls : list jsstr) (n : nat) :
  frontier_kept shouldExclude maxDepth (1 + length forcedUrls + length sitemapUrls)
    (Crawler.run normalizeUrl shouldExclude web maxDepth maxPages n
       (Crawler.initial_state normalizeUrl shouldExclude resolveUrl
          baseUrl forcedUrls sitemapUrls)).
Proof.
  apply (run_invariant normalizeUrl shouldExclude web maxDepth maxPages).
  - intros st st'. apply step_frontier_kept.
  - destruct (initial_queue baseUrl forcedUrls sitemapUrls) as (Hd & Hp & Hb & Hl & Hq).
    unfold frontier_kept, timeline. rewrite Hd, Hp, Hb. simpl app.
    split; [lia |]. split; [| split; [| repeat split; constructor]].
    + apply Forall_forall. intros u Hu. apply list_elem_of_In, in_map_iff in Hu as (a & <- & Ha).
      rewrite Forall_forall in Hq. apply Hq, list_elem_of_In. exact Ha.
    + eapply Forall_impl; [exact Hq |]. intros a [_ [-> | ->]]; lia.
Qed.

(** The queue stays within its cap: it never holds more tasks than the cap
    of 400, or than it held before the loop. *)
Theorem queue_stays_within_cap (baseUrl : jsstr) (forcedUrls sitemapUrls : list jsstr)
    (n : nat) :
  (length (queue (Crawler.run normalizeUrl shouldExclude web maxDepth maxPages n
                    (Crawler.initial_state normalizeUrl shouldExclude resolveUrl
                       baseUrl forcedUrls sitemapUrls)))
   <= Nat.max (1 + length forcedUrls + length sitemapUrls) maxQueueSize)%nat.
Proof. apply (run_frontier_kept baseUrl forcedUrls sitemapUrls n). Qed.

(** No excluded URL is put on the queue, before the loop or in it. *)
Theorem excluded_urls_are_never_queued (baseUrl : jsstr) (forcedUrls sitemapUrls : list jsstr)
    (n : nat) :
  Forall (fun u => shouldExclude u = false)
         (timeline (Crawler.run normalizeUrl shouldExclude web maxDepth maxPages n
                      (Crawler.initial_state normalizeUrl shouldExclude resolveUrl
                         baseUrl forcedUrls sitemapUrls))).
Proof. apply (run_frontier_kept baseUrl forcedUrls sitemapUrls n). Qed.

(** No page deeper than [maxDepth] is recorded. *)
Theorem recorded_pages_within_depth (baseUrl : jsstr) (forcedUrls sitemapUrls : list jsstr)
    (n : nat) :
  Forall (fun p => 0 <= page_depth p <= maxDepth)
         (crawledPagesWithContent
            (Crawler.run normalizeUrl shouldExclude web maxDepth maxPages n
               (Crawler.initial_state normalizeUrl shouldExclude resolveUrl
                  baseUrl forcedUrls sitemapUrls))).
Proof. apply (run_frontier_kept baseUrl forcedUrls sitemapUrls n). Qed.

(** The booking providers of the result: each is a provider of the table and
    is listed once, and the provider recorded with a page is among them. *)
Theorem page_providers_are_reported (baseUrl : jsstr) (forcedUrls sitemapUrls : list jsstr)
    (n : nat) :
  let st := Crawler.run normalizeUrl shouldExclude web maxDepth maxPages n
              (Crawler.initial_state normalizeUrl shouldExclude resolveUrl
                 baseUrl forcedUrls sitemapUrls) in
  NoDup (bookingProviders st)
  /\ Forall (fun id => In id (map fst BOOKING_PATTERNS)) (bookingProviders st)
  /\ Forall (fun p => match page_bookingProvider p with
                      | Some id => In id (bookingProviders st)
                      | None => True
                      end) (crawledPagesWithContent st).
Proof.
  destruct (run_frontier_kept baseUrl forcedUrls sitemapUrls n) as (_ & _ & _ & _ & H).
  exact H.
Qed.

End FrontierProps.

(** ** Locations *)

Section CityProps.
Context {P : Platform}.
Import Locations.

(** *** The insertion-ordered map *)

Lemma loc_map_get_In {V : Type} (k : jsstr) (mp : list (jsstr * V)) (v : V) :
  map_get k mp = Some v -> In (k, v) mp.
Proof.
  induction mp as [|[k' v'] mp IH]; simpl; [discriminate |].
  destruct (str_eqb k' k) eqn:E.
  - intros [= ->]. apply str_eqb_eq in E. subst. left. reflexivity.
  - intros H. right. apply IH. exact H.
Qed.

Lemma loc_map_set_In {V : Type} (k : jsstr) (v : V) (mp : list (jsstr * V)) (kv : jsstr * V) :
  In kv (map_set k v mp) -> kv = (k, v) \/ In kv mp.
Proof.
  induction mp as [|[k' v'] mp IH]; simpl.
  - intros [<- | []]. left. reflexivity.
  - destruct (str_eqb k' k); simpl; intros [H | H]; auto.
    destruct (IH H); auto.
Qed.

Lemma loc_map_set_keys {V : Type} (k : jsstr) (v : V) (mp : list (jsstr * V)) :
  NoDup (map fst mp) -> NoDup (map fst (map_set k v mp)).
Proof.
  induction mp as [|[k' v'] mp IH]; simpl; intros Hnd.
  - apply NoDup_singleton.
  - apply NoDup_cons in Hnd as [Hk Hnd]. destruct (str_eqb k' k) eqn:E; simpl.
    + apply str_eqb_eq in E. subst. apply NoDup_cons. auto.
    + apply NoDup_cons. split; [| apply IH, Hnd].
      rewrite list_elem_of_In in *. intros Hin. apply in_map_iff in Hin as ([k2 v2] & <- & Hin).
      apply loc_map_set_In in Hin as [[= -> ->] | Hin].
      * rewrite str_eqb_refl in E. discriminate.
      * apply Hk. apply (in_map fst _ _ Hin).
Qed.

Lemma loc_map_delete_spec {V : Type} (k : jsstr) (mp : list (jsstr * V)) (Q : jsstr * V -> Prop) :
  NoDup (map fst mp) -> Forall Q mp ->
  NoDup (map fst (map_delete k mp))
  /\ Forall Q (map_delete k mp)
  /\ Forall (fun kv => fst kv <> k) (map_delete k mp).
Proof.
  unfold map_delete. induction mp as [|[k' v'] mp IH]; intros Hnd HQ.
  - repeat split; constructor.
  - cbn [map] in Hnd. apply NoDup_cons in Hnd as [Hk Hnd]. apply Forall_cons_1 in HQ as [Hq HQ].
    destruct (IH Hnd HQ) as (H1 & H2 & H3). rewrite filter_cons.
    destruct (decide _) as [Hd | Hd]; [| auto].
    cbn [fst] in Hd. apply Is_true_true, negb_true_iff, str_eqb_neq in Hd.
    split; [| split].
    + cbn [map fst]. apply NoDup_cons. split; [| exact H1].
      rewrite list_elem_of_In in *. intros Hin. apply Hk.
      apply in_map_iff in Hin as (kv & Ekv & Hin).
      apply list_elem_of_In, list_elem_of_filter in Hin as [_ Hin]. apply list_elem_of_In in Hin.
      cbn [fst]. rewrite <- Ekv. apply (in_map fst mp kv Hin).
    + constructor; assumption.
    + constructor; [exact Hd | exact H3].
Qed.

(** *** One candidate per city *)

Lemma grouped_by_city (candidates : list location) :
  let byCity :=
    fold_left
      (fun byCity loc =>
         let city := city_key (address loc) in
         map_set city (default [] (map_get city byCity) ++ [loc]) byCity)
      candidates [] in
  NoDup (map fst byCity)
  /\ Forall (fun kv => Forall (fun l => city_of l = fst kv) (snd kv)) byCity.
Proof.
  cbv zeta.
  assert (G : forall mp,
             NoDup (map fst mp) ->
             Forall (fun kv => Forall (fun l => city_of l = fst kv) (snd kv)) mp ->
             NoDup (map fst (fold_left
                               (fun byCity loc =>
                                  map_set (city_key (address loc))
                                    (default [] (map_get (city_key (address loc)) byCity) ++ [loc])
                                    byCity) candidates mp))
             /\ Forall (fun kv => Forall (fun l => city_of l = fst kv) (snd kv))
                       (fold_left
                          (fun byCity loc =>
                             map_set (city_key (address loc))
                               (default [] (map_get (city_key (address loc)) byCity) ++ [loc])
                               byCity) candidates mp)).
  { induction candidates as [|loc candidates IH]; intros mp Hnd Hall; [simpl; auto |].
    cbn [fold_left]. apply IH.
    - apply loc_map_set_keys, Hnd.
    - apply Forall_forall. intros kv Hin. apply list_elem_of_In, loc_map_set_In in Hin as [-> | Hin].
      + cbn [fst snd]. apply Forall_app. split; [| constructor; [reflexivity | constructor]].
        destruct (map_get (city_key (address loc)) mp) as [locs|] eqn:Eg; [| constructor].
        apply loc_map_get_In in Eg. rewrite Forall_forall in Hall.
        apply (Hall _ (proj2 (list_elem_of_In _ _) Eg)).
      + rewrite Forall_forall in Hall. apply Hall, list_elem_of_In, Hin. }
  apply G; constructor.
Qed.

Lemma canonical_fold_cities (byCity : list (jsstr * list location)) (acc : list location) :
  NoDup (map fst byCity) ->
  Forall (fun kv => Forall (fun l => city_of l = fst kv) (snd kv)) byCity ->
  exists bests,
    fold_left
      (fun results '(city, locs) =>
         if str_eqb city (js "unknown") then results
         else match Sort.sort compare_candidates locs with
              | best :: _ => results ++ [best]
              | [] => results
              end)
      byCity acc = acc ++ bests
    /\ NoDup (map city_of bests)
    /\ Forall (fun b => In (city_of b) (map fst byCity) /\ city_of b <> js "unknown") bests.
Proof.
  revert acc. induction byCity as [|[city locs] byCity IH]; intros acc Hnd Hall.
  - exists []. simpl. rewrite app_nil_r. repeat split; constructor.
  - cbn [map fst] in Hnd. apply NoDup_cons in Hnd as [Hk Hnd].
    apply Forall_cons_1 in Hall as [Hl Hall]. cbn [fst snd] in Hl.
    assert (Hweak : forall acc',
               (exists bests,
                   fold_left
                     (fun results '(city, locs) =>
                        if str_eqb city (js "unknown") then results
                        else match Sort.sort compare_candidates locs with
                             | best :: _ => results ++ [best]
                             | [] => results
                             end) byCity acc' = acc' ++ bests
                   /\ NoDup (map city_of bests)
                   /\ Forall (fun b => In (city_of b) (map fst byCity) /\ city_of b <> js "unknown") bests)).
    { intros acc'. apply IH; assumption. }
    cbn [fold_left]. destruct (str_eqb city (js "unknown")) eqn:Eu.
    + destruct (Hweak acc) as (bests & E & H1 & H2). exists bests.
      split; [exact E |]. split; [exact H1 |].
      eapply Forall_impl; [exact H2 |]. intros b [Hb1 Hb2]. split; [right; exact Hb1 | exact Hb2].
    + destruct (Sort.sort compare_candidates locs) as [|best sorted] eqn:Es.
      * destruct (Hweak acc) as (bests & E & H1 & H2). exists bests.
        split; [exact E |]. split; [exact H1 |].
        eapply Forall_impl; [exact H2 |]. intros b [Hb1 Hb2]. split; [right; exact Hb1 | exact Hb2].
      * destruct (Hweak (acc ++ [best])) as (bests & E & H1 & H2).
        assert (Hb : city_of best = city).
        { rewrite Forall_forall in Hl. apply Hl, list_elem_of_In.
          apply (sort_In compare_candidates). rewrite Es. left. reflexivity. }
        exists (best :: bests). split; [rewrite E, <- app_assoc; reflexivity |]. split.
        -- cbn [map]. apply NoDup_cons. split; [| exact H1].
           rewrite list_elem_of_In. intros Hin. apply in_map_iff in Hin as (b & Eb & Hin).
           rewrite Forall_forall in H2. destruct (H2 b (proj2 (list_elem_of_In _ _) Hin)) as [Hbk _].
           apply Hk. rewrite list_elem_of_In. rewrite <- Hb, <- Eb. exact Hbk.
        -- constructor.
           ++ split; [left; symmetry; exact Hb |]. rewrite Hb. apply str_eqb_neq. exact Eu.
           ++ eapply Forall_impl; [exact H2 |]. intros b [Hb1 Hb2].
              split; [right; exact Hb1 | exact Hb2].
Qed.

Lemma NoDup_firstn {A : Type} (n : nat) (l : list A) : NoDup l -> NoDup (firstn n l).
Proof.
  intros H. rewrite <- (firstn_skipn n l) in H. apply NoDup_app in H as [H _]. exact H.
Qed.

(** The canonical locations lie in pairwise different cities, and there are
    at most five of them. *)
Lemma selectCanonicalPerCity_cities (base : option location) (candidates : list location) :
  NoDup (map city_of (selectCanonicalPerCity base candidates))
  /\ (length (selectCanonicalPerCity base candidates) <= 5)%nat.
Proof.
  split; [| unfold selectCanonicalPerCity;
            destruct base; cbv zeta; cbv beta iota; rewrite length_firstn; lia].
  unfold selectCanonicalPerCity. cbv zeta.
  destruct (grouped_by_city candidates) as [Hnd Hall]. cbv zeta in Hnd, Hall.
  set (byCity := fold_left _ candidates []) in *. clearbody byCity.
  destruct base as [b|]; cbv beta iota.
  - destruct (loc_map_delete_spec (city_key (address b)) byCity _ Hnd Hall) as (H1 & H2 & H3).
    destruct (canonical_fold_cities (map_delete (city_key (address b)) byCity) [b] H1 H2)
      as (bests & E & Hb1 & Hb2).
    rewrite E. rewrite <- firstn_map. apply NoDup_firstn. cbn [app map].
    apply NoDup_cons. split; [| exact Hb1].
    rewrite list_elem_of_In. intros Hin. apply in_map_iff in Hin as (x & Ex & Hin).
    rewrite Forall_forall in Hb2. destruct (Hb2 x (proj2 (list_elem_of_In _ _) Hin)) as [Hk _].
    apply in_map_iff in Hk as (kv & Ek & Hkv).
    rewrite Forall_forall in H3. apply (H3 kv (proj2 (list_elem_of_In _ _) Hkv)).
    rewrite Ek, Ex. reflexivity.
  - destruct (canonical_fold_cities byCity [] Hnd Hall) as (bests & E & Hb1 & _).
    rewrite E. rewrite <- firstn_map. apply NoDup_firstn. exact Hb1.
Qed.

(** Attaching the booking providers changes neither the names nor the
    addresses of the locations; a location keeps its providers or gets the
    detected ones added. *)
Lemma mapBookingProviders_frame (locs : list location) (chunks : list chunk)
    (providers : list jsstr) :
  Forall2 (fun l l' => address l' = address l /\ name l' = name l
                       /\ (booking_providers l' = booking_providers l
                           \/ booking_providers l'
                              = fold_left set_add providers (booking_providers l)))
          locs (mapBookingProvidersToLocations locs chunks providers).
Proof.
  assert (Hsame : Forall2 (fun l l' => address l' = address l /\ name l' = name l
                       /\ (booking_providers l' = booking_providers l
                           \/ booking_providers l'
                              = fold_left set_add providers (booking_providers l)))
                          locs locs).
  { induction locs; constructor; auto. }
  unfold mapBookingProvidersToLocations.
  destruct providers as [|p providers]; [exact Hsame |].
  destruct locs as [|l locs]; [constructor |].
  cbv zeta. set (urlLocationMap := fold_left _ chunks []). clearbody urlLocationMap.
  clear Hsame. generalize (l :: locs) as ls. intros ls.
  induction ls as [|x ls IH]; [constructor |]. cbn [map]. constructor; [| exact IH].
  destruct (existsb _ urlLocationMap); simpl; auto.
Qed.

Lemma Forall2_map_eq {A B : Type} (f : A -> B) (R : A -> A -> Prop) (l l' : list A) :
  (forall x y, R x y -> f y = f x) -> Forall2 R l l' -> map f l' = map f l.
Proof.
  intros HR H. induction H as [|x y l l' Hxy H IH]; [reflexivity |].
  cbn [map]. rewrite IH, (HR x y Hxy). reflexivity.
Qed.

(** The detected locations: at most five, and no two in the same city. *)
Theorem detected_locations_one_per_city (chunks : list chunk) (profileAddress : option jsstr)
    (providers : list jsstr) :
  NoDup (map (fun l => city_key (address l))
             (detectLocationsFromChunks chunks profileAddress providers))
  /\ (length (detectLocationsFromChunks chunks profileAddress providers) <= 5)%nat.
Proof.
  unfold detectLocationsFromChunks. destruct chunks as [|c chunks]; [split; [constructor | simpl; lia] |].
  cbv zeta.
  set (cleaned := normalizeAndFilterLocations _). clearbody cleaned.
  set (base := seedBaseLocationFromProfile _ _). clearbody base.
  pose proof (mapBookingProviders_frame (selectCanonicalPerCity base cleaned) (c :: chunks) providers)
    as Hf.
  destruct (selectCanonicalPerCity_cities base cleaned) as [Hnd Hlen].
  set (final := mapBookingProvidersToLocations _ _ _) in *. clearbody final.
  assert (Hck : map city_of final = map city_of (selectCanonicalPerCity base cleaned)).
  { apply (Forall2_map_eq city_of _ _ _ (fun x y H => f_equal city_key (proj1 H)) Hf). }
  assert (Hl : length final = length (selectCanonicalPerCity base cleaned)).
  { symmetry. apply (Forall2_length _ _ _ Hf). }
  destruct final as [|l final].
  - destruct (if truthy profileAddress then profileAddress else None);
      (split; [repeat constructor; intros H; inversion H | simpl; lia]).
  - split; [| destruct (if truthy profileAddress then profileAddress else None); lia].
    fold city_of. destruct (if truthy profileAddress then profileAddress else None);
      rewrite Hck; exact Hnd.
Qed.

Lemma inferredLocationName_nonempty (a : jsstr) : inferredLocationName a <> [].
Proof.
  unfold inferredLocationName. cbv zeta.
  repeat match goal with |- context [if ?c then _ else _] => destruct c end; discriminate.
Qed.

(** What the filter keeps: normalized addresses that pass the address test,
    each once (whatever the case of its letters), under a name. *)
Theorem filtered_locations_are_addresses (rawLocations : list raw_location) :
  Forall (fun l => isProbablyAddress (address l) = true
                   /\ truthy (name l) = true
                   /\ exists r, In r rawLocations
                                /\ (normalizeAddress <$> r_address r) = Some (address l)
                                /\ booking_providers l = r_booking_providers r)
         (normalizeAndFilterLocations rawLocations)
  /\ NoDup (map (fun l => toLowerCase (address l)) (normalizeAndFilterLocations rawLocations)).
Proof.
  unfold normalizeAndFilterLocations.
  set (f := fun '(seen, result) loc => _).
  set (good := fun (done : list raw_location) (sr : list jsstr * list location) =>
         Forall (fun l => isProbablyAddress (address l) = true
                          /\ truthy (name l) = true
                          /\ exists r, In r done
                                       /\ (normalizeAddress <$> r_address r) = Some (address l)
                                       /\ booking_providers l = r_booking_providers r)
                (snd sr)
         /\ NoDup (map (fun l => toLowerCase (address l)) (snd sr))
         /\ forall k, In k (map (fun l => toLowerCase (address l)) (snd sr)) -> In k (fst sr)).
  assert (G : forall raw done sr, good done sr -> good (done ++ raw) (fold_left f raw sr)).
  { induction raw as [|loc raw IH]; intros done sr Hg; [rewrite app_nil_r; exact Hg |].
    cbn [fold_left]. replace (done ++ loc :: raw) with ((done ++ [loc]) ++ raw)
      by (rewrite <- app_assoc; reflexivity).
    apply IH. destruct sr as [seen result]. destruct Hg as (H1 & H2 & H3). cbn [fst snd] in *.
    assert (Hkeep : good (done ++ [loc]) (seen, result)).
    { split; [| split; assumption]. eapply Forall_impl; [exact H1 |].
      intros l (Ha & Hn & r & Hr & Hrest). do 2 (split; [assumption |]).
      exists r. split; [apply in_app_iff; left; exact Hr | exact Hrest]. }
    unfold f. destruct (r_address loc) as [[|a0 addr]|] eqn:Ea; try exact Hkeep.
    destruct (isProbablyAddress (normalizeAddress (a0 :: addr))) eqn:Ep; [| exact Hkeep].
    simpl negb. cbv iota.
    destruct (set_has seen (toLowerCase (normalizeAddress (a0 :: addr)))) eqn:Es; [exact Hkeep |].
    apply set_has_not_In in Es.
    destruct Hkeep as (K1 & _ & _).
    split; [| split]; cbn [fst snd].
    - apply Forall_app. split; [exact K1 |]. constructor; [| constructor].
      cbn [address name booking_providers]. split; [exact Ep |]. split.
      + destruct (r_name loc) as [[|c n]|]; cbn [truthy];
          try (destruct (inferredLocationName (normalizeAddress (a0 :: addr))) eqn:Ei;
               [exfalso; apply (inferredLocationName_nonempty _ Ei) | reflexivity]).
        destruct (Regex.test _ (c :: n)); [| reflexivity].
        destruct (inferredLocationName (normalizeAddress (a0 :: addr))) eqn:Ei;
          [exfalso; apply (inferredLocationName_nonempty _ Ei) | reflexivity].
      + exists loc. split; [apply in_app_iff; right; left; reflexivity |].
        rewrite Ea. split; reflexivity.
    - rewrite map_app. cbn [map address]. apply NoDup_app. split; [exact H2 |].
      split; [| apply NoDup_singleton].
      intros k Hk Hk'. apply list_elem_of_In in Hk, Hk'. destruct Hk' as [<- | []].
      apply Es, H3, Hk.
    - intros k Hk. rewrite map_app in Hk. apply in_app_iff in Hk as [Hk | [<- | []]].
      + apply set_add_In. left. apply H3, Hk.
      + apply set_add_In. right. reflexivity. }
  specialize (G rawLocations [] ([], [])). cbn [app] in G.
  destruct G as (H1 & H2 & _); [| split; assumption].
  split; [constructor | split; [constructor | intros k []]].
Qed.

End CityProps.

(** ** Text chunks *)

Section ChunkProps.
Import Text.

Lemma slice_infix (s : jsstr) (i j : nat) : exists a b, s = a ++ slice s i j ++ b.
Proof.
  exists (firstn i s), (skipn (j - i) (skipn i s)). unfold slice.
  rewrite firstn_skipn, firstn_skipn. reflexivity.
Qed.

Lemma slice_length (s : jsstr) (i j : nat) : (length (slice s i j) <= j - i)%nat.
Proof. unfold slice. rewrite length_firstn. lia. Qed.

Lemma substring_infix (s : jsstr) (a b : Z) : exists x y, s = x ++ substring s a b ++ y.
Proof. apply slice_infix. Qed.

Lemma substring_length (s : jsstr) (a b : Z) :
  0 <= a <= b -> Z.of_nat (length (substring s a b)) <= b - a.
Proof.
  intros H. unfold substring. cbv zeta.
  pose proof (slice_length s
    (Z.to_nat (Z.min (Z.min (Z.max a 0) (Z.of_nat (length s)))
                     (Z.min (Z.max b 0) (Z.of_nat (length s)))))
    (Z.to_nat (Z.max (Z.min (Z.max a 0) (Z.of_nat (length s)))
                     (Z.min (Z.max b 0) (Z.of_nat (length s)))))) as Hl.
  lia.
Qed.

Lemma trim_length (s : jsstr) : (length (trim s) <= length s)%nat.
Proof.
  destruct (trim_infix s) as (a & b & E). rewrite E at 2. rewrite !length_app. lia.
Qed.

Lemma lastIndexOf_from_le (c : Z) (s : jsstr) (i from found : Z) :
  found <= from -> lastIndexOf_from c s i from found <= from.
Proof.
  revert i found. induction s as [|x s IH]; intros i found Hf; simpl; [exact Hf |].
  destruct (i <=? from) eqn:E; [| exact Hf]. apply Z.leb_le in E.
  apply IH. destruct (x =? c); lia.
Qed.

Lemma search_index_lt (p : Z -> bool) (r : re) (rest : list Z) (se : cursor * cursor) :
  search (Cat (Cls p) r) [] rest = Some se -> (index se < length rest)%nat.
Proof.
  destruct se as [s e]. intros H. apply search_spec in H as [(sk & H1 & H2) Hm].
  cbn [fst snd] in H1, H2. unfold index. cbn [fst]. rewrite H2, H1.
  rewrite !length_app, length_rev. cbn [length]. rewrite Nat.add_0_r.
  destruct s as [spre [|y srest]]; [| cbn [snd length]; lia].
  discriminate Hm.
Qed.

(** A chunk ends after its start and within [chunkSize] of it. *)
Lemma chunk_end_bounds (cleanedText : jsstr) (chunkSize start : Z) :
  1 <= chunkSize -> 0 <= start < Z.of_nat (length cleanedText) ->
  start < chunk_end cleanedText chunkSize start <= start + chunkSize.
Proof.
  intros Hc Hs. unfold chunk_end. cbv zeta.
  set (len := Z.of_nat (length cleanedText)) in *.
  destruct (Z.min (start + chunkSize) len <? len) eqn:E; [| lia].
  apply Z.ltb_lt in E.
  assert (Hdiv : 0 <= chunkSize * 4 / 5 <= chunkSize).
  { split; [apply Z.div_pos; lia |]. apply Z.div_le_upper_bound; lia. }
  destruct (search sentence_boundary [] _) as [se|] eqn:Em.
  - apply search_index_lt in Em.
    pose proof (substring_length cleanedText
                  (Z.max (start + chunkSize * 4 / 5) start)
                  (Z.min (start + chunkSize) len)) as Hl.
    lia.
  - pose proof (lastIndexOf_from_le 32 cleanedText 0
                  (Z.max (Z.min (start + chunkSize) len) 0) (-1)) as Hl.
    unfold lastIndexOf.
    destruct (2 * start + chunkSize <? 2 * _) eqn:Ec; [| lia].
    apply Z.ltb_lt in Ec. lia.
Qed.

Lemma chunk_loop_spec (cleanedText : jsstr) (chunkSize overlap : Z) (fuel : nat) :
  1 <= chunkSize ->
  forall (start : Z) (chunks : list jsstr),
    0 <= start ->
    Z.of_nat (length cleanedText) - start <= Z.of_nat fuel ->
    Forall (chunk_fits cleanedText chunkSize) chunks ->
    exists result,
      chunk_loop fuel cleanedText chunkSize overlap start chunks = Some result
      /\ Forall (chunk_fits cleanedText chunkSize) result
      /\ Z.of_nat (length result)
         <= Z.of_nat (length chunks) + Z.max 0 (Z.of_nat (length cleanedText) - start)
      /\ forall more,
           chunk_loop (fuel + more) cleanedText chunkSize overlap start chunks = Some result.
Proof.
  intros Hc. induction fuel as [|fuel IH]; intros start chunks Hs Hf Hall.
  - exists chunks.
    assert (E : (start <? Z.of_nat (length cleanedText)) = false).
    { apply Z.ltb_ge. simpl in Hf. lia. }
    split; [cbn [chunk_loop]; rewrite E; reflexivity |].
    split; [exact Hall |]. split; [lia |].
    intros more. destruct more as [|more]; cbn [Nat.add chunk_loop]; rewrite E; reflexivity.
  - cbn [Nat.add chunk_loop].
    destruct (start <? Z.of_nat (length cleanedText)) eqn:E;
      [| exists chunks; split; [reflexivity | split; [exact Hall | split; [lia | reflexivity]]]].
    apply Z.ltb_lt in E. cbv zeta.
    pose proof (chunk_end_bounds cleanedText chunkSize start Hc (conj Hs E)) as He.
    set (end_ := chunk_end cleanedText chunkSize start) in *. clearbody end_.
    set (chunk := trim (substring cleanedText start end_)).
    set (chunks' := match chunk with [] => chunks | _ :: _ => chunks ++ [chunk] end).
    assert (Hall' : Forall (chunk_fits cleanedText chunkSize) chunks').
    { subst chunks'. destruct chunk as [|c0 ch] eqn:Ech; [exact Hall |].
      apply Forall_app. split; [exact Hall |]. constructor; [| constructor].
      rewrite <- Ech. split; [rewrite Ech; discriminate |]. subst chunk.
      split; [apply trim_idempotent |]. split.
      - pose proof (trim_length (substring cleanedText start end_)).
        pose proof (substring_length cleanedText start end_). lia.
      - destruct (substring_infix cleanedText start end_) as (x & y & Ex).
        destruct (trim_infix (substring cleanedText start end_)) as (a & b & Et).
        exists (x ++ a), (b ++ y). rewrite Ex at 1. rewrite Et at 1.
        rewrite <- !app_assoc. reflexivity. }
    assert (Hlen' : Z.of_nat (length chunks') <= Z.of_nat (length chunks) + 1).
    { subst chunks'. destruct chunk; [lia |]. rewrite length_app. simpl. lia. }
    clearbody chunks'.
    set (start' := if end_ - overlap <=? start then end_ else end_ - overlap).
    assert (Hs' : start < start').
    { subst start'. destruct (end_ - overlap <=? start) eqn:En; [lia |].
      apply Z.leb_gt in En. lia. }
    clearbody start'.
    destruct (length cleanedText <? length chunks')%nat eqn:Eb.
    + exists chunks'. split; [reflexivity |]. split; [exact Hall' |].
      split; [lia | reflexivity].
    + destruct (IH start' chunks' ltac:(lia) ltac:(lia) Hall') as (result & H0 & H1 & H2 & H3).
      exists result. split; [exact H0 |]. split; [exact H1 |]. split; [lia | exact H3].
Qed.

Lemma chunkText_spec (text : option jsstr) (chunkSize overlap : Z) :
  1 <= chunkSize ->
  Forall (chunk_fits (trim (default [] text)) chunkSize) (chunkText text chunkSize overlap)
  /\ (length (chunkText text chunkSize overlap) <= length (trim (default [] text)))%nat
  /\ forall fuel, (length (trim (default [] text)) <= fuel)%nat ->
       chunkTextWithin fuel text chunkSize overlap
       = Some (chunkText text chunkSize overlap).
Proof.
  intros Hc. unfold chunkText, chunkTextWithin.
  destruct text as [[|c0 t]|]; try (split; [constructor | split; [simpl; lia | reflexivity]]).
  change (default [] (Some (c0 :: t))) with (c0 :: t). cbv zeta.
  destruct (trim (c0 :: t)) as [|d0 cl] eqn:Et;
    [split; [constructor | split; [simpl; lia | reflexivity]] |].
  assert (Htrim : trim (d0 :: cl) = d0 :: cl) by (rewrite <- Et; apply trim_idempotent).
  destruct (Z.of_nat (length (d0 :: cl)) <=? chunkSize) eqn:E.
  - apply Z.leb_le in E. split; [| split; [simpl; lia | reflexivity]].
    constructor; [| constructor].
    split; [discriminate |]. split; [exact Htrim |].
    split; [exact E |]. exists [], []. rewrite app_nil_r. reflexivity.
  - destruct (chunk_loop_spec (d0 :: cl) chunkSize overlap (length (d0 :: cl))
                Hc 0 [] ltac:(lia) ltac:(lia) ltac:(constructor))
      as (result & H0 & H1 & H2 & H3).
    rewrite H0. cbn [default from_option id].
    split; [exact H1 |]. split; [cbn [length] in H2 |- *; lia |].
    intros fuel Hf.
    replace fuel with (length (d0 :: cl) + (fuel - length (d0 :: cl)))%nat by lia.
    apply H3.
Qed.

(** With a chunk size of 1 or more the loop of [chunkText] ends within as
    many turns as the trimmed text has code units: given that many turns or
    more, it has a result, the chunks of the text. *)
Theorem chunking_ends (text : option jsstr) (chunkSize overlap : Z) (fuel : nat) :
  1 <= chunkSize -> (length (trim (default [] text)) <= fuel)%nat ->
  chunkTextWithin fuel text chunkSize overlap = Some (chunkText text chunkSize overlap).
Proof. intros Hc Hf. apply (chunkText_spec text chunkSize overlap Hc). exact Hf. Qed.

(** Every chunk is a non-empty, trimmed piece of the trimmed text of at most
    [chunkSize] code units, and there are no more chunks than the text has
    code units. *)
Theorem chunks_fit_the_chunk_size (text : option jsstr) (chunkSize overlap : Z) :
  1 <= chunkSize ->
  Forall (fun chunk =>
            chunk <> [] /\ trim chunk = chunk /\ Z.of_nat (length chunk) <= chunkSize
            /\ exists a b, trim (default [] text) = a ++ chunk ++ b)
         (chunkText text chunkSize overlap)
  /\ (length (chunkText text chunkSize overlap) <= length (trim (default [] text)))%nat.
Proof.
  intros Hc. destruct (chunkText_spec text chunkSize overlap Hc) as (H1 & H2 & _).
  split; [exact H1 | exact H2].
Qed.

(** With a chunk size of 0 the loop need not end: on this text no number of
    turns gives a result. *)
Lemma chunking_without_size_never_ends (fuel : nat) :
  chunkTextWithin fuel (Some (js "abc def")) 0 0 = None.
Proof.
  unfold chunkTextWithin.
  change (trim (js "abc def")) with (js "abc def"). cbv beta iota zeta.
  change (Z.of_nat (length (js "abc def")) <=? 0) with false. cbv iota.
  induction fuel as [|fuel IH]; [reflexivity |].
  cbn [chunk_loop].
  change (0 <? Z.of_nat (length (js "abc def"))) with true. cbv iota zeta.
  change (chunk_end (js "abc def") 0 0) with 0.
  change (trim (substring (js "abc def") 0 0)) with (@nil Z). cbv iota.
  change (0 - 0 <=? 0) with true. cbv iota.
  change (length (js "abc def") <? length (@nil jsstr))%nat with false. cbv iota.
  exact IH.
Qed.

End ChunkProps.

Lemma chunking_ends_witness :
  Text.chunkTextWithin 100 (Some (js "Dobrý den. Salon Petra, Národní 28, Praha 1.")) 20 5
  = Some (Text.chunkText (Some (js "Dobrý den. Salon Petra, Národní 28, Praha 1.")) 20 5).
Proof. apply chunking_ends; [lia | vm_compute; lia]. Defined.

Lemma chunks_fit_the_chunk_size_witness :
  Forall (fun chunk =>
            chunk <> [] /\ trim chunk = chunk /\ Z.of_nat (length chunk) <= 20
            /\ exists a b,
                 trim (default [] (Some (js "Dobrý den. Salon Petra, Národní 28, Praha 1.")))
                 = a ++ chunk ++ b)
         (Text.chunkText (Some (js "Dobrý den. Salon Petra, Národní 28, Praha 1.")) 20 5)
  /\ (length (Text.chunkText (Some (js "Dobrý den. Salon Petra, Národní 28, Praha 1.")) 20 5)
      <= length (trim (default [] (Some (js "Dobrý den. Salon Petra, Národní 28, Praha 1.")))))%nat.
Proof. apply chunks_fit_the_chunk_size. lia. Defined.

(** ** [cleanText] *)

Section CleanProps.
Import Text.

Lemma splice_units (t s : list Z) (ms : list (cursor * cursor)) (pos : nat) (c : Z) :
  In c (splice t s pos ms) -> In c s \/ In c t.
Proof.
  revert pos. induction ms as [|se ms IH]; intros pos H; cbn [splice] in H.
  - left. rewrite <- (firstn_skipn pos s). apply in_app_iff. right. exact H.
  - apply in_app_iff in H as [H | H].
    + left. destruct (slice_infix s pos (index se)) as (a & b & E). rewrite E.
      apply in_app_iff. right. apply in_app_iff. left. exact H.
    + apply in_app_iff in H as [H | H]; [right; exact H |]. apply (IH _ H).
Qed.

(** A replacement brings in no code unit but those of the replacement
    text. *)
Lemma replace_all_units (r : re) (t s : list Z) (c : Z) :
  In c (replace_all r t s) -> In c s \/ In c t.
Proof. apply splice_units. Qed.

Lemma split_on_units (sep : Z) (s : jsstr) :
  Forall (fun line => forall c, In c line -> In c s /\ c <> sep) (split_on sep s).
Proof.
  induction s as [|x s IH]; cbn [split_on].
  - constructor; [intros c [] | constructor].
  - destruct (x =? sep) eqn:E.
    + constructor; [intros c [] |]. eapply Forall_impl; [exact IH |].
      intros line H c Hc. destruct (H c Hc). split; [right |]; assumption.
    + apply Z.eqb_neq in E. destruct (split_on sep s) as [|l ls].
      * constructor; [| constructor]. intros c [<- | []]. split; [left; reflexivity | exact E].
      * apply Forall_cons_1 in IH as [Hl Hls]. constructor.
        -- intros c [<- | Hc]; [split; [left; reflexivity | exact E] |].
           destruct (Hl c Hc). split; [right |]; assumption.
        -- eapply Forall_impl; [exact Hls |].
           intros line H c Hc. destruct (H c Hc). split; [right |]; assumption.
Qed.

Lemma join_units (sep : jsstr) (l : list jsstr) (c : Z) :
  In c (join sep l) -> In c sep \/ exists line, In line l /\ In c line.
Proof.
  induction l as [|x l IH]; [intros [] |]. cbn [join]. destruct l as [|y l].
  - intros H. right. exists x. split; [left; reflexivity | exact H].
  - intros H. apply in_app_iff in H as [H | H].
    + right. exists x. split; [left; reflexivity | exact H].
    + apply in_app_iff in H as [H | H]; [left; exact H |].
      destruct (IH H) as [Hs | (line & Hl & Hc)]; [left; exact Hs |].
      right. exists line. split; [right; exact Hl | exact Hc].
Qed.

Lemma trim_units (s : jsstr) (c : Z) : In c (trim s) -> In c s.
Proof.
  intros H. destruct (trim_infix s) as (a & b & E). rewrite E.
  apply in_app_iff. right. apply in_app_iff. left. exact H.
Qed.

(** Cleaned text holds neither a carriage return nor a tab, and neither
    starts nor ends with white space. *)
Theorem cleaned_text_shape (text : option jsstr) :
  Forall (fun c => c <> 13 /\ c <> 9) (cleanText text)
  /\ match cleanText text with c :: _ => is_space c = false | [] => True end
  /\ match rev (cleanText text) with c :: _ => is_space c = false | [] => True end.
Proof.
  unfold cleanText. destruct text as [[|c0 t]|]; try (split; [constructor | split; exact I]).
  cbv zeta. split; [| apply trim_ends].
  set (s1 := replace_all (lit [13; 10]) LF (c0 :: t)). clearbody s1.
  set (s2 := replace_all (chr 13) LF s1).
  assert (H2 : forall c, In c s2 -> c <> 13).
  { intros c Hc. subst s2. unfold chr in Hc. rewrite replace_class in Hc.
    apply in_flat_map in Hc as (x & _ & Hc). destruct (13 =? x) eqn:E.
    - destruct Hc as [<- | []]. discriminate.
    - destruct Hc as [<- | []]. apply Z.eqb_neq in E. congruence. }
  clearbody s2.
  set (s3 := replace_all (Cat (times 3 (chr 10)) (star (chr 10))) (LF ++ LF) s2).
  assert (H3 : forall c, In c s3 -> c <> 13).
  { intros c Hc. apply replace_all_units in Hc as [Hc | Hc]; [apply H2, Hc |].
    destruct Hc as [<- | [<- | []]]; discriminate. }
  clearbody s3.
  set (s4 := replace_all (plus (Cls (any_of [32; 9]))) (js " ") s3).
  assert (H4 : forall c, In c s4 -> c <> 13 /\ c <> 9).
  { intros c Hc. subst s4. rewrite replace_runs in Hc.
    pose proof (squeeze_Forall (any_of [32; 9]) (fun c => c <> 13) (js " ") s3 false) as Hq.
    assert (Hs3 : Forall (fun c => c <> 13) s3)
      by (apply Forall_forall; intros x Hx; apply H3, list_elem_of_In, Hx).
    specialize (Hq Hs3). rewrite Forall_forall in Hq.
    destruct (Hq c (proj2 (list_elem_of_In _ _) Hc)) as [[Hn Ha] | [<- | []]].
    - split; [exact Hn |]. intros ->. discriminate Ha.
    - split; discriminate. }
  clearbody s4.
  apply Forall_forall. intros c Hc. apply list_elem_of_In, trim_units, join_units in Hc.
  destruct Hc as [[<- | []] | (line & Hl & Hc)]; [split; intros [=] |].
  apply in_map_iff in Hl as (raw & <- & Hraw). apply trim_units in Hc.
  pose proof (split_on_units 10 s4) as Hs. rewrite Forall_forall in Hs.
  apply H4. apply (Hs raw (proj2 (list_elem_of_In _ _) Hraw) c Hc).
Qed.

End CleanProps.

(** ** The import *)

Section HoursShape.
Import ImportFromWeb.

Lemma hoursOf_days (hours : gmap jsstr hours_entry) :
  sublist (map weekday (hoursOf hours)) (map snd weekdayMap)
  /\ Forall (fun oh => validHour oh = true /\ closed oh = false) (hoursOf hours).
Proof.
  unfold hoursOf. generalize weekdayMap as days. intros days.
  induction days as [|[k v] days [IH1 IH2]]; [split; constructor |].
  cbn [flat_map map snd]. destruct (hours !! k) as [h|].
  - destruct (truthy (opens h) && truthy (closes h)) eqn:E.
    + cbn [app map weekday]. split; [apply sublist_skip, IH1 |].
      constructor; [| exact IH2]. split; [exact E | reflexivity].
    + cbn [app]. split; [apply sublist_cons, IH1 | exact IH2].
  - cbn [app]. split; [apply sublist_cons, IH1 | exact IH2].
Qed.

Lemma final_hours_source (oracle : option (gmap jsstr hours_entry))
    (jsonLdHours : gmap jsstr hours_entry) (preExtractedHours : option (gmap jsstr hours_entry))
    (providers : list jsstr) (fresha : option (gmap jsstr hours_entry)) :
  finalOpeningHoursArray oracle jsonLdHours preExtractedHours providers fresha = []
  \/ exists h, finalOpeningHoursArray oracle jsonLdHours preExtractedHours providers fresha
               = hoursOf h.
Proof.
  unfold finalOpeningHoursArray. cbv zeta.
  set (f1 := match oracle with Some h => hoursOf h | None => [] end).
  assert (H1 : f1 = [] \/ exists h, f1 = hoursOf h).
  { subst f1. destruct oracle as [h|]; [right; exists h; reflexivity | left; reflexivity]. }
  clearbody f1.
  set (f2 := if (0 <? validDays jsonLdHours)%nat then hoursOf jsonLdHours else f1).
  assert (H2 : f2 = [] \/ exists h, f2 = hoursOf h).
  { subst f2. destruct (0 <? validDays jsonLdHours)%nat; [right; eexists; reflexivity | exact H1]. }
  clearbody f2. clear H1 f1.
  set (f3 := match preExtractedHours with Some h => hoursOf h | None => f2 end).
  assert (H3 : f3 = [] \/ exists h, f3 = hoursOf h).
  { subst f3. destruct preExtractedHours as [h|]; [right; exists h; reflexivity | exact H2]. }
  clearbody f3. clear H2 f2.
  set (f4 := match f3 with
             | [] => if set_has providers (js "fresha") then
                       match fresha with
                       | Some h => if (0 <? validDays h)%nat then hoursOf h else f3
                       | None => f3
                       end
                     else f3
             | _ :: _ => f3
             end).
  assert (H4 : f4 = [] \/ exists h, f4 = hoursOf h).
  { subst f4. destruct f3 as [|o l] eqn:E3; [| exact H3].
    destruct (set_has providers (js "fresha")); [| left; reflexivity].
    destruct fresha as [h|]; [| left; reflexivity].
    destruct (0 <? validDays h)%nat; [right; exists h; reflexivity | left; reflexivity]. }
  clearbody f4.
  destruct (length (filter validHour f4) =? 0)%nat; [left; reflexivity | exact H4].
Qed.

(** The opening hours of an import are complete days, none marked closed,
    in the order of the week and each weekday at most once. *)
Lemma final_hours_days (oracle : option (gmap jsstr hours_entry))
    (jsonLdHours : gmap jsstr hours_entry) (preExtractedHours : option (gmap jsstr hours_entry))
    (providers : list jsstr) (fresha : option (gmap jsstr hours_entry)) :
  sublist (map weekday
             (finalOpeningHoursArray oracle jsonLdHours preExtractedHours providers fresha))
          (map js [ "mon"; "tue"; "wed"; "thu"; "fri"; "sat"; "sun" ]%string)
  /\ Forall (fun oh => validHour oh = true /\ closed oh = false)
            (finalOpeningHoursArray oracle jsonLdHours preExtractedHours providers fresha).
Proof.
  destruct (final_hours_source oracle jsonLdHours preExtractedHours providers fresha)
    as [-> | [h ->]].
  - split; [apply sublist_nil_l | constructor].
  - destruct (hoursOf_days h) as [H1 H2]. split; [| exact H2].
    unfold weekdayMap in H1. rewrite map_map in H1. exact H1.
Qed.

Lemma week_NoDup : NoDup (map js [ "mon"; "tue"; "wed"; "thu"; "fri"; "sat"; "sun" ]%string).
Proof.
  apply (bool_decide_unpack _). vm_compute. exact I.
Qed.

End HoursShape.

Section ReconcilerOutcome.
Context {P : Platform}.
Variable urlHostname : jsstr -> option jsstr.
Variable supabase : ImportFromWeb.client.
Import ImportFromWeb.

Lemma hoursAfter_outcome (data : ImportedBusinessData) (table : gmap jsstr hours_row) :
  snd (hoursAfter supabase data table)
  = (if has_duplicate (map weekday (filter validHour (openingHours data)))
     then Threw (js "Failed to upsert opening hours: " ++ openingError supabase)
     else Returned)
  /\ (has_duplicate (map weekday (filter validHour (openingHours data))) = true ->
      fst (hoursAfter supabase data table) = table).
Proof.
  unfold hoursAfter, openingPayload.
  set (valid := filter validHour (openingHours data)). clearbody valid.
  destruct valid as [|oh valid]; [split; [reflexivity | discriminate] |].
  cbn [map]. unfold upsert.
  set (payload := _ :: map _ valid).
  assert (Ek : map h_weekday payload = map weekday (oh :: valid)).
  { subst payload. cbn [map h_weekday]. rewrite map_map. reflexivity. }
  rewrite Ek. cbn [map]. destruct (has_duplicate (weekday oh :: map weekday valid));
    (split; [reflexivity | intros Hd; first [reflexivity | discriminate Hd]]).
Qed.

Lemma apply_outcome (now : jsstr) (data : ImportedBusinessData) (st : store) :
  snd (applyImportedBusinessData urlHostname supabase now data st)
  = (if has_duplicate (map weekday (filter validHour (openingHours data)))
     then Threw (js "Failed to upsert opening hours: " ++ openingError supabase)
     else Returned)
  /\ (has_duplicate (map weekday (filter validHour (openingHours data))) = true ->
      opening_hours (fst (applyImportedBusinessData urlHostname supabase now data st))
      = opening_hours st).
Proof.
  destruct (apply_result urlHostname supabase now data st) as (T & H & c & _ & HH & E).
  rewrite E. cbn [fst snd opening_hours].
  destruct (hoursAfter_outcome data (opening_hours st)) as [H1 H2].
  rewrite HH in H1, H2. exact (conj H1 H2).
Qed.

Lemma filter_sublist_days (l : list ImportedOpeningHour) :
  sublist (map weekday (filter validHour l)) (map weekday l).
Proof.
  induction l as [|oh l IH]; [constructor |]. rewrite filter_cons.
  destruct (decide _); cbn [map]; [apply sublist_skip | apply sublist_cons]; exact IH.
Qed.

(** The data that [crawlBusinessWebsite] hands over is accepted: whatever the
    profile, the services and the sources of the opening hours, applying it
    returns normally. *)
Theorem crawled_data_is_accepted (now : jsstr) (profile : ImportedProfile)
    (services : list ImportedService)
    (oracle : option (gmap jsstr hours_entry)) (jsonLdHours : gmap jsstr hours_entry)
    (preExtractedHours : option (gmap jsstr hours_entry)) (providers : list jsstr)
    (fresha : option (gmap jsstr hours_entry)) (st : store) :
  snd (applyImportedBusinessData urlHostname supabase now
         {| ImportFromWeb.profile := profile;
            ImportFromWeb.services := services;
            openingHours :=
              finalOpeningHoursArray oracle jsonLdHours preExtractedHours providers fresha |}
         st)
  = Returned.
Proof.
  destruct (apply_outcome now
              {| ImportFromWeb.profile := profile;
                 ImportFromWeb.services := services;
                 openingHours :=
                   finalOpeningHoursArray oracle jsonLdHours preExtractedHours providers fresha |}
              st) as [E _].
  rewrite E. cbn [openingHours].
  rewrite has_duplicate_NoDup; [reflexivity |].
  destruct (final_hours_days oracle jsonLdHours preExtractedHours providers fresha) as [Hs _].
  eapply sublist_NoDup; [exact week_NoDup |].
  etransitivity; [apply filter_sublist_days | exact Hs].
Qed.

(** The services upsert touches the rows of the imported services only: a
    slug that no imported service has holds after the import what it held
    before. *)
Theorem other_services_are_kept (now : jsstr) (data : ImportedBusinessData) (st : store)
    (k : jsstr) :
  (forall i s, services data !! i = Some s -> serviceSlug i s <> k) ->
  services_table (fst (applyImportedBusinessData urlHostname supabase now data st)) !! k
  = services_table st !! k.
Proof.
  intros Hk. destruct (apply_result urlHostname supabase now data st) as (T & H & c & HT & _ & E).
  rewrite E. cbn [fst services_table]. clear E.
  unfold servicesAfter in HT. destruct (services data) as [|s0 rest] eqn:Es.
  { injection HT as <-. reflexivity. }
  rewrite <- Es in *. unfold upsert in HT.
  destruct (has_duplicate _); [discriminate |]. injection HT as <-.
  rewrite put_rows_lookup.
  destruct (find _ _) as [r|] eqn:Ef; [| reflexivity].
  exfalso. apply find_some in Ef as [Hin Hs]. apply str_eqb_eq in Hs.
  apply in_rev in Hin.
  destruct (servicesPayload_spec
              (rawServices data
                 (existingBySlug (existingServices supabase (services_table st)))))
    as (_ & Hsub & _).
  apply Hsub, rawServices_In in Hin as (i & s & Hi & ->).
  apply (Hk i s Hi). exact Hs.
Qed.

(** The name in [businesses] is left alone, or replaced by the trimmed,
    non-empty name of the import; and it is replaced only when no name was
    stored, or when the stored name is generic and the imported one scores
    higher for the website. *)
Theorem business_name_changes_only_for_the_better (now : jsstr) (data : ImportedBusinessData)
    (st : store) :
  let after := businesses (fst (applyImportedBusinessData urlHostname supabase now data st)) in
  let newName := trim <$> name (profile data) in
  let existingName := trim <$> mjoin (businesses st) in
  after = businesses st
  \/ (after = Some newName
      /\ truthy newName = true
      /\ (truthy existingName = false
          \/ exists w, or_else (website (profile data)) None = Some w
                       /\ PickName.isGenericBusinessName urlHostname existingName w = true
                       /\ PickName.scoreBusinessName urlHostname existingName w
                          < PickName.scoreBusinessName urlHostname newName w)).
Proof.
  cbv zeta. destruct (apply_result urlHostname supabase now data st) as (T & H & c & _ & _ & E).
  rewrite E. cbn [fst businesses]. clear E.
  unfold updateBusinessName. cbv zeta.
  match goal with |- context [if ?c then _ else _] => destruct c eqn:Hc end;
    [| left; reflexivity].
  apply andb_true_iff in Hc as [Hc Hbetter]. apply andb_true_iff in Hc as [Htr _].
  cbn [businesses]. destruct (businesses st) as [row|]; [| left; reflexivity].
  right. split; [reflexivity |]. split; [exact Htr |].
  apply orb_true_iff in Hbetter as [Hb | Hb].
  - left. apply negb_true_iff in Hb. exact Hb.
  - right. destruct (or_else (website (profile data)) None) as [w|]; [| discriminate].
    exists w. split; [reflexivity |]. unfold betterName in Hb.
    apply andb_true_iff in Hb as [Hg Hs]. apply Z.ltb_lt in Hs. split; assumption.
Qed.

End ReconcilerOutcome.

Lemma other_services_are_kept_witness :
  ImportFromWeb.services_table
    (fst (ImportFromWeb.applyImportedBusinessData (P := latin) site_hostname answering
            (js "2025-02-01T08:00:00.000Z") second_import stored)) !! js "barveni"
  = ImportFromWeb.services_table stored !! js "barveni".
Proof.
  apply other_services_are_kept. intros i s Hi.
  destruct i as [|i]; [| destruct i; discriminate Hi].
  injection Hi as <-. vm_compute. discriminate.
Defined.

(** ** Name scores *)

Section NameScore.
Context {P : Platform}.
Variable urlHostname : jsstr -> option jsstr.
Import PickName.

Lemma generic_words_lower (words : list jsstr) (score : Z) :
  fold_left (fun score w => if set_has GENERIC_WORDS w then score - 12 else score) words score
  <= score.
Proof.
  revert score. induction words as [|w words IH]; intros score; cbn [fold_left]; [lia |].
  destruct (set_has GENERIC_WORDS w); [specialize (IH (score - 12)); lia | apply IH].
Qed.

(** The score of a name is at most 78; a name that is empty once normalized
    scores -1000 and counts as generic. *)
Theorem business_name_score_is_bounded (name : option jsstr) (url : jsstr) :
  scoreBusinessName urlHostname name url <= 78
  /\ (normalizeNameCandidate name = [] ->
      scoreBusinessName urlHostname name url = -1000
      /\ isGenericBusinessName urlHostname name url = true).
Proof.
  unfold isGenericBusinessName, scoreBusinessName.
  destruct (normalizeNameCandidate name) as [|c n] eqn:En.
  - split; [lia |]. intros _. split; reflexivity.
  - split; [| discriminate]. cbv zeta.
    match goal with
    | |- context [fold_left ?f ?words ?s0] =>
      pose proof (generic_words_lower words s0) as Hw;
      set (afterWords := fold_left f words s0) in *; clearbody afterWords
    end.
    repeat match goal with
           | H : context [if ?b then _ else _] |- _ => destruct b
           | |- context [if ?b then _ else _] => destruct b
           end; lia.
Qed.

End NameScore.

(** ** More on the sources of the opening hours and on the frontier *)

Section MoreHours.
Import ImportFromWeb.

(** The opening hours of the imported data are complete days, none marked
    closed, in the order of the week and each weekday at most once. *)
Theorem import_hours_are_complete_days (oracle : option (gmap jsstr hours_entry))
    (jsonLdHours : gmap jsstr hours_entry) (preExtractedHours : option (gmap jsstr hours_entry))
    (providers : list jsstr) (fresha : option (gmap jsstr hours_entry)) :
  sublist (map weekday
             (finalOpeningHoursArray oracle jsonLdHours preExtractedHours providers fresha))
          (map js [ "mon"; "tue"; "wed"; "thu"; "fri"; "sat"; "sun" ]%string)
  /\ Forall (fun oh => validHour oh = true /\ closed oh = false)
            (finalOpeningHoursArray oracle jsonLdHours preExtractedHours providers fresha).
Proof. apply final_hours_days. Qed.

End MoreHours.

Lemma heuristic_hours_decide_witness :
  ImportFromWeb.finalOpeningHoursArray None structured_hours (Some heuristic_hours) [] None
  = ImportFromWeb.hoursOf heuristic_hours.
Proof.
  apply heuristic_hours_decide. vm_compute. discriminate.
Defined.

Lemma structured_hours_before_oracle_witness :
  ImportFromWeb.finalOpeningHoursArray (Some heuristic_hours) structured_hours None [] None
  = ImportFromWeb.hoursOf structured_hours.
Proof.
  apply structured_hours_before_oracle. vm_compute. discriminate.
Defined.

Section MoreLocations.
Context {P : Platform}.
Import Locations.

(** Attaching the booking providers changes neither the number, the names
    nor the addresses of the locations; a location keeps its providers or
    gets the detected ones added to them. *)
Theorem booking_providers_leave_locations (locs : list location) (chunks : list chunk)
    (providers : list jsstr) :
  Forall2 (fun l l' => address l' = address l /\ name l' = name l
                       /\ (booking_providers l' = booking_providers l
                           \/ booking_providers l'
                              = fold_left set_add providers (booking_providers l)))
          locs (mapBookingProvidersToLocations locs chunks providers).
Proof. apply mapBookingProviders_frame. Qed.

End MoreLocations.

Section MoreFrontier.
Context {P : Platform}.
Variable normalizeUrl : jsstr -> jsstr.
Variable shouldExclude : jsstr -> bool.
Variable web : nat -> jsstr -> Crawler.outcome.
Variables maxDepth maxPages : Z.
Import Crawler.

(** A turn of the loop takes the first task off the queue and adds at most
    50 tasks, before or behind the others, each for a URL not seen
    before. *)
Theorem a_turn_adds_at_most_fifty_links (st st' : state) :
  Crawler.step normalizeUrl shouldExclude web maxDepth maxPages st = Some st' ->
  exists t rest front back,
    queue st = t :: rest
    /\ queue st' = front ++ rest ++ back
    /\ (length front + length back <= 50)%nat
    /\ Forall (fun a => ~ In (url a) (seen st)) (front ++ back).
Proof.
  intros Hs.
  destruct (step_spec normalizeUrl shouldExclude (fun _ _ => None) web maxDepth maxPages
              st st' Hs)
    as (t & rest & newP & newN & Eq & _ & _ & Eq' & _ & HP & HN & Hcap & _).
  exists t, rest, (rev newP), newN. split; [exact Eq |]. split; [exact Eq' |].
  unfold maxLinksPerPage in Hcap. rewrite length_rev. split; [lia |].
  apply Forall_app. split.
  - apply Forall_forall. intros a Ha. apply list_elem_of_In, in_rev in Ha.
    rewrite Forall_forall in HP. apply (HP a), list_elem_of_In, Ha.
  - eapply Forall_impl; [exact HN |]. intros a (_ & Ha & _). exact Ha.
Qed.

End MoreFrontier.

Lemma a_turn_adds_at_most_fifty_links_witness :
  let st := Crawler.initial_state same_url no_exclusion no_resolution home [] [] in
  let st' := Crawler.run (P := latin) same_url no_exclusion small_site 2 10 1 st in
  exists t rest front back,
    Crawler.queue st = t :: rest
    /\ Crawler.queue st' = front ++ rest ++ back
    /\ (length front + length back <= 50)%nat
    /\ Forall (fun a => ~ In (Crawler.url a) (Crawler.seen st)) (front ++ back).
Proof.
  cbv zeta.
  apply (a_turn_adds_at_most_fifty_links (P := latin) same_url no_exclusion small_site 2 10).
  vm_compute. reflexivity.
Defined.

(** ** The contact and the services of the imported data *)

Section ContactProps.
Import Assembly.

(** The contact of the imported profile: the deterministic value when there
    is one, else the oracle's, else (for the phone) the pre-extracted one,
    else [null]; never an empty string.  The rule for a generic address of
    the oracle changes nothing. *)
Theorem final_contact_precedence (deterministicContact extractedData : contact)
    (preExtractedPhone : option jsstr) :
  let first := fun a b c : option jsstr =>
    if truthy a then a else if truthy b then b else if truthy c then c else None in
  let final := finalContact deterministicContact extractedData preExtractedPhone in
  c_address final = first (c_address deterministicContact) (c_address extractedData) None
  /\ c_phone final
     = first (c_phone deterministicContact) (c_phone extractedData) preExtractedPhone
  /\ c_email final = first (c_email deterministicContact) (c_email extractedData) None.
Proof.
  destruct deterministicContact as [dn [[|d0 da]|] [[|p0 dp]|] [[|e0 de]|]];
    destruct extractedData as [en [[|a0 ea]|] [[|q0 ep]|] [[|f0 ee]|]];
    destruct preExtractedPhone as [[|r0 pp]|];
    cbn -[Nat.ltb length]; repeat split;
    repeat match goal with |- context [if ?b then _ else _] => destruct b end; reflexivity.
Qed.

End ContactProps.

Section MapProps.
Import Locations.

Lemma loc_map_get_set {V : Type} (k : jsstr) (v : V) (mp : list (jsstr * V)) :
  map_get k (map_set k v mp) = Some v.
Proof.
  induction mp as [|[k' v'] mp IH]; simpl.
  - rewrite str_eqb_refl. reflexivity.
  - destruct (str_eqb k' k) eqn:E; simpl.
    + rewrite str_eqb_refl. reflexivity.
    + rewrite E. exact IH.
Qed.

Lemma loc_map_get_set_other {V : Type} (k k0 : jsstr) (v : V) (mp : list (jsstr * V)) :
  k0 <> k -> map_get k0 (map_set k v mp) = map_get k0 mp.
Proof.
  intros Hne. induction mp as [|[k' v'] mp IH]; simpl.
  - destruct (str_eqb k k0) eqn:E; [apply str_eqb_eq in E; congruence | reflexivity].
  - destruct (str_eqb k' k) eqn:E; simpl.
    + apply str_eqb_eq in E. subst k'.
      destruct (str_eqb k k0) eqn:E'; [apply str_eqb_eq in E'; congruence | reflexivity].
    + destruct (str_eqb k' k0); [reflexivity | exact IH].
Qed.

Lemma loc_map_set_length {V : Type} (k : jsstr) (v : V) (mp : list (jsstr * V)) :
  (length (map_set k v mp) <= S (length mp))%nat.
Proof.
  induction mp as [|[k' v'] mp IH]; simpl; [lia |].
  destruct (str_eqb k' k); simpl; lia.
Qed.

End MapProps.

Section ServiceProps.
Context {P : Platform}.
Import ImportFromWeb Assembly.

Lemma carryOver_score (winner loser : ImportedService) :
  numericScore winner <= numericScore (carryOver winner loser)
  /\ numericScore loser <= numericScore (carryOver winner loser).
Proof.
  unfold numericScore, carryOver. simpl.
  destruct (durationMinutes winner), (priceFrom winner), (priceTo winner),
    (durationMinutes loser), (priceFrom loser), (priceTo loser); lia.
Qed.

Lemma hasNumeric_score (s : ImportedService) : hasNumeric s = true <-> 1 <= numericScore s.
Proof.
  unfold hasNumeric, numericScore.
  destruct (durationMinutes s), (priceFrom s), (priceTo s); cbn; split; intros; (lia || congruence).
Qed.

Lemma cleanService_kept (byName : list (jsstr * ImportedService)) (s : ImportedService) :
  cleaned_index byName -> cleaned_index (cleanService byName s).
Proof.
  intros H. pose proof H as [Hnd Hall]. unfold cleanService. cbv zeta.
  destruct (canonicalizeServiceName _) as [|c0 name] eqn:En; [exact H |].
  cbv beta iota.
  match goal with |- context [hasNumeric ?c] => set (candidate := c) end.
  assert (Hcs : numericScore candidate = numericScore s) by reflexivity.
  assert (Hcn : hasNumeric candidate = hasNumeric s) by reflexivity.
  destruct (hasNumeric candidate) eqn:Hn; [| exact H]. cbn [negb]. cbv beta iota.
  match goal with |- context [Locations.map_get ?k byName] => set (key := k) end.
  assert (Hset : forall v,
             (truthy (s_name v) = true /\ hasNumeric v = true /\ isCore v = true
              /\ normalizeServiceNameForComparison (s_name v) = key) ->
             cleaned_index (Locations.map_set key v byName)).
  { intros v Hv. split; [apply loc_map_set_keys, Hnd |].
    apply Forall_forall. intros kv Hin. apply list_elem_of_In, loc_map_set_In in Hin.
    destruct Hin as [-> | Hin]; [exact Hv |].
    rewrite Forall_forall in Hall. apply Hall, list_elem_of_In, Hin. }
  assert (Hcand : truthy (s_name candidate) = true /\ hasNumeric candidate = true
                  /\ isCore candidate = true
                  /\ normalizeServiceNameForComparison (s_name candidate) = key).
  { split; [reflexivity |]. split; [exact Hn |]. split; [| reflexivity].
    cbn [isCore candidate]. symmetry. exact Hcn. }
  destruct (Locations.map_get key byName) as [existing|] eqn:Eg; [| apply Hset, Hcand].
  apply loc_map_get_In in Eg. rewrite Forall_forall in Hall.
  pose proof (Hall _ (proj2 (list_elem_of_In _ _) Eg)) as (He1 & He2 & He3 & He4).
  cbn [fst snd] in He1, He2, He3, He4.
  apply Hset.
  destruct (numericScore existing <=? numericScore candidate).
  - destruct Hcand as (H1 & H2 & H3 & H4).
    split; [exact H1 |]. split; [| split; [exact H3 | exact H4]].
    apply hasNumeric_score. apply hasNumeric_score in H2.
    pose proof (carryOver_score candidate existing). lia.
  - split; [exact He1 |]. split; [| split; [exact He3 | exact He4]].
    apply hasNumeric_score. apply hasNumeric_score in He2.
    pose proof (carryOver_score existing candidate). lia.
Qed.

Lemma cleanService_length (byName : list (jsstr * ImportedService)) (s : ImportedService) :
  (length (cleanService byName s) <= S (length byName))%nat.
Proof.
  unfold cleanService. cbv zeta.
  destruct (canonicalizeServiceName _); [lia |].
  destruct (negb _); [lia |].
  destruct (Locations.map_get _ _); apply loc_map_set_length.
Qed.

Lemma cleanServices_fold (services : list ImportedService)
    (byName : list (jsstr * ImportedService)) :
  cleaned_index byName ->
  cleaned_index (fold_left cleanService services byName)
  /\ (length (fold_left cleanService services byName) <= length byName + length services)%nat.
Proof.
  revert byName. induction services as [|s services IH]; intros byName H; simpl.
  - split; [exact H | lia].
  - destruct (IH _ (cleanService_kept byName s H)) as [H1 H2]. split; [exact H1 |].
    pose proof (cleanService_length byName s). lia.
Qed.

(** The cleaned services: each has a name and a duration or a price and is
    marked core; no two have the same name under the comparison; there are
    no more of them than services given. *)
Theorem cleaned_services_are_priced_and_distinct (services : list ImportedService) :
  Forall (fun s => truthy (s_name s) = true /\ hasNumeric s = true /\ isCore s = true)
         (cleanServices services)
  /\ NoDup (map (fun s => normalizeServiceNameForComparison (s_name s))
                (cleanServices services))
  /\ (length (cleanServices services) <= length services)%nat.
Proof.
  destruct (cleanServices_fold services []) as [[Hnd Hall] Hlen].
  { split; constructor. }
  unfold cleanServices. split; [| split].
  - apply Forall_forall. intros s Hs. apply list_elem_of_In, in_map_iff in Hs as (kv & <- & Hin).
    rewrite Forall_forall in Hall. destruct (Hall kv) as (H1 & H2 & H3 & _); auto.
    apply list_elem_of_In, Hin.
  - rewrite map_map.
    rewrite (map_ext_in _ fst); [exact Hnd |].
    intros kv Hin. rewrite Forall_forall in Hall. apply Hall, list_elem_of_In, Hin.
  - rewrite length_map. simpl in Hlen. exact Hlen.
Qed.

(** What is stored under a name is only replaced by something with at least
    as many numeric fields. *)
Lemma cleanService_improves (byName : list (jsstr * ImportedService)) (s : ImportedService)
    (k : jsstr) (o : ImportedService) :
  Locations.map_get k byName = Some o ->
  exists o', Locations.map_get k (cleanService byName s) = Some o'
             /\ numericScore o <= numericScore o'.
Proof.
  intros Hg. unfold cleanService. cbv zeta.
  destruct (canonicalizeServiceName _) as [|c0 name]; [exists o; split; [exact Hg | lia] |].
  cbv beta iota.
  match goal with |- context [hasNumeric ?c] => set (candidate := c) end.
  destruct (negb _); [exists o; split; [exact Hg | lia] |].
  match goal with |- context [Locations.map_get ?k byName] => set (key := k) end.
  destruct (decide (k = key)) as [-> | Hne].
  - rewrite Hg. rewrite loc_map_get_set. eexists. split; [reflexivity |].
    destruct (numericScore o <=? numericScore candidate);
      apply carryOver_score.
  - destruct (Locations.map_get key byName) as [existing|];
      rewrite loc_map_get_set_other by exact Hne; exists o; split; [exact Hg | lia | exact Hg | lia].
Qed.

Lemma cleanService_records (byName : list (jsstr * ImportedService)) (s : ImportedService)
    (c0 : Z) (name : jsstr) :
  canonicalizeServiceName (or_else (s_name s) (Some [])) = c0 :: name ->
  hasNumeric s = true ->
  exists o, Locations.map_get (normalizeServiceNameForComparison (Some (c0 :: name)))
              (cleanService byName s) = Some o
            /\ numericScore s <= numericScore o.
Proof.
  intros En Hn. unfold cleanService. cbv zeta. rewrite En. cbv beta iota.
  match goal with |- context [hasNumeric ?c] => set (candidate := c) end.
  change (hasNumeric candidate) with (hasNumeric s). rewrite Hn. cbn [negb].
  destruct (Locations.map_get _ byName) as [existing|];
    rewrite loc_map_get_set; eexists; (split; [reflexivity |]).
  - change (numericScore s) with (numericScore candidate).
    destruct (numericScore existing <=? numericScore candidate); apply carryOver_score.
  - change (numericScore s) with (numericScore candidate). lia.
Qed.

Lemma fold_improves (services : list ImportedService) (byName : list (jsstr * ImportedService))
    (k : jsstr) (o : ImportedService) :
  Locations.map_get k byName = Some o ->
  exists o', Locations.map_get k (fold_left cleanService services byName) = Some o'
             /\ numericScore o <= numericScore o'.
Proof.
  revert byName o. induction services as [|s services IH]; intros byName o Hg; simpl.
  - exists o. split; [exact Hg | lia].
  - destruct (cleanService_improves byName s k o Hg) as (o1 & H1 & L1).
    destruct (IH _ _ H1) as (o2 & H2 & L2). exists o2. split; [exact H2 | lia].
Qed.

(** No service with a name and a duration or a price is lost: the cleaned
    services have one of its name, under the comparison, with at least as
    many numeric fields. *)
Theorem no_priced_service_is_lost (services : list ImportedService) (s : ImportedService) :
  In s services ->
  canonicalizeServiceName (or_else (s_name s) (Some [])) <> [] ->
  hasNumeric s = true ->
  exists o, In o (cleanServices services)
            /\ normalizeServiceNameForComparison (s_name o)
               = normalizeServiceNameForComparison
                   (Some (canonicalizeServiceName (or_else (s_name s) (Some []))))
            /\ numericScore s <= numericScore o.
Proof.
  intros Hin Hname Hn.
  destruct (canonicalizeServiceName (or_else (s_name s) (Some []))) as [|c0 name] eqn:En;
    [contradiction |].
  assert (G : forall byName, cleaned_index byName ->
            exists o, Locations.map_get (normalizeServiceNameForComparison (Some (c0 :: name)))
                        (fold_left cleanService services byName) = Some o
                      /\ numericScore s <= numericScore o).
  { clear Hname. induction services as [|x services IH]; [destruct Hin |].
    intros byName Hb. simpl. destruct Hin as [-> | Hin].
    - destruct (cleanService_records byName s c0 name En Hn) as (o & Ho & Lo).
      destruct (fold_improves services _ _ _ Ho) as (o' & Ho' & Lo').
      exists o'. split; [exact Ho' | lia].
    - apply (IH Hin), cleanService_kept, Hb. }
  destruct (G []) as (o & Ho & Lo); [split; constructor |].
  apply loc_map_get_In in Ho.
  destruct (cleanServices_fold services []) as [[_ Hall] _]; [split; constructor |].
  rewrite Forall_forall in Hall.
  pose proof (Hall _ (proj2 (list_elem_of_In _ _) Ho)) as (_ & _ & _ & Hk).
  exists o. split; [| split; [exact Hk | exact Lo]].
  unfold cleanServices. apply in_map_iff. eexists. split; [| exact Ho]. reflexivity.
Qed.

End ServiceProps.

Lemma no_priced_service_is_lost_witness :
  let cut := {| ImportFromWeb.s_name := Some (js "Střih"); ImportFromWeb.description := None;
                ImportFromWeb.durationMinutes := Some 30; ImportFromWeb.priceFrom := None;
                ImportFromWeb.priceTo := None; ImportFromWeb.isCore := false |} in
  let cut_again := {| ImportFromWeb.s_name := Some (js "střih *");
                      ImportFromWeb.description := None;
                      ImportFromWeb.durationMinutes := None;
                      ImportFromWeb.priceFrom := Some 300;
                      ImportFromWeb.priceTo := None; ImportFromWeb.isCore := false |} in
  exists o, In o (Assembly.cleanServices (P := latin) [cut; cut_again])
            /\ Assembly.normalizeServiceNameForComparison (P := latin) (ImportFromWeb.s_name o)
               = Assembly.normalizeServiceNameForComparison (P := latin)
                   (Some (Assembly.canonicalizeServiceName
                            (or_else (ImportFromWeb.s_name cut) (Some []))))
            /\ Assembly.numericScore cut <= Assembly.numericScore o.
Proof.
  cbv zeta. apply (no_priced_service_is_lost (P := latin)).
  - left. reflexivity.
  - vm_compute. discriminate.
  - reflexivity.
Defined.

(** ** C8: the forms of a phone number *)

Section PhoneForms.
Import Contact.

Lemma digit_no_joint (c : Z) : is_digit c = true -> either is_space (Z.eqb 45) c = false.
Proof.
  unfold is_digit, in_range, either, is_space, in_range. intros H.
  apply andb_true_iff in H as [H1 H2]. apply Z.leb_le in H1, H2.
  repeat match goal with
         | |- context [?a <=? ?b] => destruct (Z.leb_spec a b); try lia
         | |- context [?a =? ?b] => destruct (Z.eqb_spec a b); try lia
         end; reflexivity.
Qed.

Lemma joint_no_digit (c : Z) : either is_space (Z.eqb 45) c = true -> is_digit c = false.
Proof.
  intros H. destruct (is_digit c) eqn:E; [| reflexivity].
  rewrite (digit_no_joint c E) in H. discriminate.
Qed.



















End PhoneForms.


